(** * The heatmap of gotraceui: buckets, saturations, cached geometry, hover

    A shallow embedding of [Heatmap] (computeBuckets, computeSaturations,
    HoveredBucket, Layout, SetData) and of the library functions it calls
    (sort.Ints, sort.SearchInts, math.Ceil, the float32/float64 arithmetic
    of Go), followed by the properties of the heatmap specification.

    Conventions.
    - Go's [int] and [time.Duration] are 64-bit: they are integers of [Z]
      and every addition, subtraction and multiplication is reduced by
      [wrap].
    - [float32] and [float64] are [spec_float] with the IEEE-754 operations
      of the Standard Library's [SpecFloat] at precisions 24 and 53.
    - A run-time panic (index out of range, integer division by zero,
      negative length, the explicit [panic]) is the result [None].
    - Every floating-point operation is rounded on its own (no fused
      multiply-add, as gc compiles for amd64).
    - Go leaves the value of a float-to-integer conversion
      implementation-dependent when the target type cannot represent it;
      that value is the section variable [unrepresentable]. *)

From Stdlib Require Import ZArith Lia Bool Ascii.
From Stdlib Require Import Floats.SpecFloat.
From stdpp Require Import base option list sorting.

#[local] Open Scope Z_scope.

(** ** Machine integers *)

Definition min_int : Z := - 2 ^ 63.
Definition max_int : Z := 2 ^ 63 - 1.

Definition wrap (z : Z) : Z := (z + 2 ^ 63) mod 2 ^ 64 - 2 ^ 63.

Definition int_add (a b : Z) : Z := wrap (a + b).
Definition int_sub (a b : Z) : Z := wrap (a - b).
Definition int_mul (a b : Z) : Z := wrap (a * b).

(** [a / b] on ints: truncated division, a panic when [b] is zero. *)
Definition int_div (a b : Z) : option Z :=
  if b =? 0 then None else Some (wrap (Z.quot a b)).

(** ** Slices *)

(** [s[i]] with its bounds check. *)
Definition index {A} (s : list A) (i : Z) : option A :=
  if i <? 0 then None else s !! Z.to_nat i.

(** [s[i] = v] with its bounds check. *)
Definition store {A} (s : list A) (i : Z) (v : A) : option (list A) :=
  match index s i with
  | Some _ => Some (<[Z.to_nat i := v]> s)
  | None => None
  end.

Definition len {A} (s : list A) : Z := Z.of_nat (length s).

(** [make([]int, n)]: a panic when [n] is negative. *)
Definition make (n : Z) : option (list Z) :=
  if n <? 0 then None else Some (replicate (Z.to_nat n) 0).

(** ** Floating point *)

Definition float32 := spec_float.
Definition float64 := spec_float.

Module F32.
Definition prec : Z := 24.
Definition emax : Z := 128.
Definition of_int (z : Z) : float32 := binary_normalize prec emax z 0 false.
Definition mul : float32 -> float32 -> float32 := SFmul prec emax.
Definition div : float32 -> float32 -> float32 := SFdiv prec emax.
Definition sub : float32 -> float32 -> float32 := SFsub prec emax.
Definition zero : float32 := S754_zero false.
End F32.

Module F64.
Definition prec : Z := 53.
Definition emax : Z := 1024.
Definition of_int (z : Z) : float64 := binary_normalize prec emax z 0 false.
Definition div : float64 -> float64 -> float64 := SFdiv prec emax.
End F64.

#[global] Arguments F32.of_int : simpl never.
#[global] Arguments F32.mul : simpl never.
#[global] Arguments F32.div : simpl never.
#[global] Arguments F32.sub : simpl never.
#[global] Arguments F64.of_int : simpl never.
#[global] Arguments F64.div : simpl never.

(** [a > b], [a <= b] on floats: false as soon as one side is a NaN. *)
Definition fgt (a b : spec_float) : bool := SFltb b a.
Definition fle (a b : spec_float) : bool := SFleb a b.

(** The integer part of a float, towards zero; none for NaN and infinities. *)
Definition SFtrunc (f : spec_float) : option Z :=
  match f with
  | S754_zero _ => Some 0
  | S754_finite s m e =>
      Some (cond_Zopp s
              (match e with
               | Zneg k => Z.pos m / 2 ^ Z.pos k
               | _ => Z.pos m * 2 ^ e
               end))
  | _ => None
  end.

(** The least integer not below a finite float. *)
Definition SFceilZ (s : bool) (m : positive) (e : Z) : Z :=
  match e with
  | Zneg k =>
      if s then - (Z.pos m / 2 ^ Z.pos k)
      else - ((- Z.pos m) / 2 ^ Z.pos k)
  | _ => cond_Zopp s (Z.pos m * 2 ^ e)
  end.

(** [math.Ceil]: NaN, infinities and zeros are returned as they are; the
    ceiling of a finite double is an integer that a double represents. *)
Definition Ceil (f : float64) : float64 :=
  match f with
  | S754_finite s m e => binary_normalize F64.prec F64.emax (SFceilZ s m e) 0 s
  | _ => f
  end.

(** ** The heatmap state *)

Record Point := { pX : Z; pY : Z }.
Record f32Point := { fX : float32; fY : float32 }.

Record heatmapCacheKey := {
  size : Point;
  useLinearColors : bool;
  yBucketSize : Z;
  xBucketSize : Z
}.

Record HeatmapBucket := {
  XStart : Z;
  XEnd : Z;
  YStart : Z;
  YEnd : Z;
  Count : Z
}.

Record NRGBA := { cR : Z; cG : Z; cB : Z; cA : Z }.

Inductive path_cmd :=
| MoveTo (p : f32Point)
| LineTo (p : f32Point)
| Close.

(** What Layout records in [cachedOps]. *)
Inductive cached_op :=
| ClipRectPush (max : Point)
| ClipPop
| BackgroundFill
| EventOp
| FillShape (c : NRGBA) (outline : list path_cmd).

(** What Layout adds to the frame's operation list [gtx.Ops]. *)
Inductive frame_op :=
| CallMacro (recorded : list cached_op)
| HoverOutline (rmin rmax : f32Point) (width : float32).

Record Heatmap := {
  MaxY : Z;
  UseLinearColors : bool;
  XBucketSize : Z;
  YBucketSize : Z;
  numXBuckets : Z;
  numYBuckets : Z;
  data : list Z;
  origData : list (list Z);
  pointer : f32Point;
  pointerConstraint : Point;
  hovered : HeatmapBucket;
  cacheKey : heatmapCacheKey;
  cachedOps : list cached_op;
  cachedMacro : list cached_op;
  linearSaturations : list Z;
  rankedSaturations : list Z
}.

#[export] Instance Point_eq_dec : EqDecision Point.
Proof. solve_decision. Defined.

#[export] Instance heatmapCacheKey_eq_dec : EqDecision heatmapCacheKey.
Proof. solve_decision. Defined.

(** The layout context: the maximum constraint, the pointer moves that are
    queued for the heatmap, and [gtx.Dp(1)]. *)
Record Context := {
  ConstraintsMax : Point;
  moves : list f32Point;
  Dp1 : Z
}.

(** Field updates. *)
Definition with_buckets (hm : Heatmap) (ny : Z) (d : list Z) : Heatmap :=
  {| MaxY := MaxY hm; UseLinearColors := UseLinearColors hm;
     XBucketSize := XBucketSize hm; YBucketSize := YBucketSize hm;
     numXBuckets := numXBuckets hm; numYBuckets := ny; data := d;
     origData := origData hm; pointer := pointer hm;
     pointerConstraint := pointerConstraint hm; hovered := hovered hm;
     cacheKey := cacheKey hm; cachedOps := cachedOps hm;
     cachedMacro := cachedMacro hm;
     linearSaturations := linearSaturations hm;
     rankedSaturations := rankedSaturations hm |}.

Definition with_saturations (hm : Heatmap) (lin rk : list Z) : Heatmap :=
  {| MaxY := MaxY hm; UseLinearColors := UseLinearColors hm;
     XBucketSize := XBucketSize hm; YBucketSize := YBucketSize hm;
     numXBuckets := numXBuckets hm; numYBuckets := numYBuckets hm;
     data := data hm; origData := origData hm; pointer := pointer hm;
     pointerConstraint := pointerConstraint hm; hovered := hovered hm;
     cacheKey := cacheKey hm; cachedOps := cachedOps hm;
     cachedMacro := cachedMacro hm;
     linearSaturations := lin; rankedSaturations := rk |}.

Definition with_numXBuckets (hm : Heatmap) (nx : Z) : Heatmap :=
  {| MaxY := MaxY hm; UseLinearColors := UseLinearColors hm;
     XBucketSize := XBucketSize hm; YBucketSize := YBucketSize hm;
     numXBuckets := nx; numYBuckets := numYBuckets hm;
     data := data hm; origData := origData hm; pointer := pointer hm;
     pointerConstraint := pointerConstraint hm; hovered := hovered hm;
     cacheKey := cacheKey hm; cachedOps := cachedOps hm;
     cachedMacro := cachedMacro hm;
     linearSaturations := linearSaturations hm;
     rankedSaturations := rankedSaturations hm |}.

Definition with_pointer (hm : Heatmap) (p : f32Point) (c : Point) : Heatmap :=
  {| MaxY := MaxY hm; UseLinearColors := UseLinearColors hm;
     XBucketSize := XBucketSize hm; YBucketSize := YBucketSize hm;
     numXBuckets := numXBuckets hm; numYBuckets := numYBuckets hm;
     data := data hm; origData := origData hm; pointer := p;
     pointerConstraint := c; hovered := hovered hm;
     cacheKey := cacheKey hm; cachedOps := cachedOps hm;
     cachedMacro := cachedMacro hm;
     linearSaturations := linearSaturations hm;
     rankedSaturations := rankedSaturations hm |}.

Definition with_hovered (hm : Heatmap) (b : HeatmapBucket) : Heatmap :=
  {| MaxY := MaxY hm; UseLinearColors := UseLinearColors hm;
     XBucketSize := XBucketSize hm; YBucketSize := YBucketSize hm;
     numXBuckets := numXBuckets hm; numYBuckets := numYBuckets hm;
     data := data hm; origData := origData hm; pointer := pointer hm;
     pointerConstraint := pointerConstraint hm; hovered := b;
     cacheKey := cacheKey hm; cachedOps := cachedOps hm;
     cachedMacro := cachedMacro hm;
     linearSaturations := linearSaturations hm;
     rankedSaturations := rankedSaturations hm |}.

Definition with_cache (hm : Heatmap) (k : heatmapCacheKey)
    (ops : list cached_op) : Heatmap :=
  {| MaxY := MaxY hm; UseLinearColors := UseLinearColors hm;
     XBucketSize := XBucketSize hm; YBucketSize := YBucketSize hm;
     numXBuckets := numXBuckets hm; numYBuckets := numYBuckets hm;
     data := data hm; origData := origData hm; pointer := pointer hm;
     pointerConstraint := pointerConstraint hm; hovered := hovered hm;
     cacheKey := k; cachedOps := ops; cachedMacro := ops;
     linearSaturations := linearSaturations hm;
     rankedSaturations := rankedSaturations hm |}.

Definition with_origData (hm : Heatmap) (d : list (list Z)) (nx : Z)
    (k : heatmapCacheKey) : Heatmap :=
  {| MaxY := MaxY hm; UseLinearColors := UseLinearColors hm;
     XBucketSize := XBucketSize hm; YBucketSize := YBucketSize hm;
     numXBuckets := nx; numYBuckets := numYBuckets hm;
     data := data hm; origData := d; pointer := pointer hm;
     pointerConstraint := pointerConstraint hm; hovered := hovered hm;
     cacheKey := k; cachedOps := cachedOps hm;
     cachedMacro := cachedMacro hm;
     linearSaturations := linearSaturations hm;
     rankedSaturations := rankedSaturations hm |}.

Definition with_UseLinearColors (hm : Heatmap) (b : bool) : Heatmap :=
  {| MaxY := MaxY hm; UseLinearColors := b;
     XBucketSize := XBucketSize hm; YBucketSize := YBucketSize hm;
     numXBuckets := numXBuckets hm; numYBuckets := numYBuckets hm;
     data := data hm; origData := origData hm; pointer := pointer hm;
     pointerConstraint := pointerConstraint hm; hovered := hovered hm;
     cacheKey := cacheKey hm; cachedOps := cachedOps hm;
     cachedMacro := cachedMacro hm;
     linearSaturations := linearSaturations hm;
     rankedSaturations := rankedSaturations hm |}.

(** ** sort.Ints and sort.SearchInts *)

(** [sort.Ints]: the ascending arrangement of the slice. *)
Definition sort_Ints (s : list Z) : list Z := merge_sort Z.le s.

(** The loop of [sort.Search]: [h := int(uint(i+j) >> 1)], then
    [i = h + 1] when [f(h)] is false and [j = h] otherwise.  The interval
    shrinks at every turn, so [n] turns are enough for [Search(n, f)]. *)
Fixpoint search_loop (fuel : nat) (f : Z -> bool) (i j : Z) : Z :=
  match fuel with
  | O => i
  | S k =>
      if i <? j then
        let h := (i + j) / 2 in
        if f h then search_loop k f i h else search_loop k f (h + 1) j
      else i
  end.

Definition Search (n : Z) (f : Z -> bool) : Z :=
  search_loop (Z.to_nat n) f 0 n.

(** [sort.SearchInts(a, x)] is [Search(len(a), func(i) { a[i] >= x })]. *)
Definition SearchInts (a : list Z) (x : Z) : Z :=
  Search (len a) (fun i => match index a i with
                           | Some y => x <=? y
                           | None => false
                           end).

(** ** Two instances of what the sources leave open *)

(** The gc compiler on amd64 converts to [int] with CVTTSS2SQ / CVTTSD2SQ,
    whose result for a NaN or an out-of-range operand is the "integer
    indefinite" value, the least 64-bit integer; it converts to [uint8]
    through a 32-bit integer (CVTTSS2SL, indefinite value [- 2 ^ 31]) of
    which it keeps the low byte. *)
Definition amd64_unrepresentable (f : spec_float) : Z :=
  match SFtrunc f with
  | Some z => if (- 2 ^ 31 <=? z) && (z <? 2 ^ 31) then z else min_int
  | None => min_int
  end.

(** Modelled from the spec: [round32] is called by Layout and is not among
    the sources; the spec says that each edge of a cell is rounded to a
    pixel on its own.  The nearest integer, halves away from zero. *)
Definition round32_nearest (f : float32) : float32 :=
  match f with
  | S754_finite s m e =>
      let twice :=
        match e with
        | Zneg k => (2 * Z.pos m) / 2 ^ Z.pos k
        | _ => 2 * Z.pos m * 2 ^ e
        end in
      F32.of_int (cond_Zopp s ((twice + 1) / 2))
  | _ => f
  end.

(** ** Rounding to nearest, on integer fractions

    What the operations of [SpecFloat] compute on positive operands, in
    terms of integers: the fraction [N / D] scaled by [2 ^ e]. *)

(** Where the remainder of [N] by [D] lies with respect to [D / 2]. *)
Definition loc_of (N D : Z) : location :=
  if N mod D =? 0 then loc_Exact else loc_Inexact (2 * (N mod D) ?= D).

(** [N / D] rounded to the nearest integer, ties to even. *)
Definition rne (N D : Z) : Z := round_nearest_even (N / D) (loc_of N D).

(** [N / D * 2 ^ e] rounded to [prec] binary digits: mantissa and
    exponent. *)
Definition rnd (prec N D e : Z) : Z * Z :=
  let n := Z.max 0 (Zdigits2 (N / D) - prec) in
  let m := rne N (D * 2 ^ n) in
  if m =? 2 ^ prec then (2 ^ (prec - 1), e + n + 1) else (m, e + n).

(** The order of two floats of [prec] digits each, as (mantissa, exponent). *)
Definition pair_le (a b : Z * Z) : Prop :=
  snd a < snd b \/ (snd a = snd b /\ fst a <= fst b).

(** The record of [shr] for the quotient of [N] by [D]. *)
Definition rec_of (N D : Z) : shr_record :=
  shr_record_of_loc (N / D) (loc_of N D).

(** A positive finite float of mantissa [m] and exponent [e]. *)
Definition fin (m e : Z) : spec_float := S754_finite false (Z.to_pos m) e.

Definition fin_of (p : Z * Z) : spec_float := fin (fst p) (snd p).

(** A mantissa of exactly [prec] digits. *)
Definition canon (prec m : Z) : Prop := 2 ^ (prec - 1) <= m < 2 ^ prec.

(** The integer part of [fst p * 2 ^ snd p]. *)
Definition trunc_pair (p : Z * Z) : Z :=
  match snd p with
  | Z.neg k => fst p / 2 ^ Z.pos k
  | _ => fst p * 2 ^ snd p
  end.

(** The float32 conversion, division and multiplication of positive
    operands, and the ranked saturation before its conversion to [uint8]:
    [0xFF * (float32(a) / float32(n))]. *)
Definition f32_int (z : Z) : Z * Z := rnd 24 (z * 2 ^ 24) 1 (- 24).

Definition f32_div (x y : Z * Z) : Z * Z :=
  rnd 24 (fst x * 2 ^ 24) (fst y) (snd x - snd y - 24).

Definition f32_mul (x y : Z * Z) : Z * Z :=
  rnd 24 (fst x * fst y) 1 (snd x + snd y).

Definition f32_255 : Z * Z := (255 * 2 ^ 16, - 16).

Definition ranked_pair (a n : Z) : Z * Z :=
  f32_mul f32_255 (f32_div (f32_int a) (f32_int n)).

(** ** Notions used to state the properties *)

(** The sum of the counts of a grid. *)
Definition total (d : list Z) : Z := foldr Z.add 0 d.

(** The number of samples of a raw series. *)
Definition samples (rows : list (list Z)) : Z := len (concat rows).

(** What the deduplication loop keeps of a list: an element is dropped
    when it equals the element before it ([prev] before the first). *)
Fixpoint uniq (prev : Z) (l : list Z) : list Z :=
  match l with
  | [] => []
  | v :: l' => if v =? prev then uniq prev l' else v :: uniq v l'
  end.

(** The values of type [int]. *)
Definition is_int (z : Z) : Prop := min_int <= z <= max_int.

Section Heatmap.

(** The implementation-dependent result of converting a float that the
    integer type cannot represent. *)
Variable unrepresentable : spec_float -> Z.

(** [round32], defined outside the sources at hand. *)
Variable round32 : float32 -> float32.

(** [int(f)] *)
Definition to_int (f : spec_float) : Z :=
  match SFtrunc f with
  | Some z =>
      if (min_int <=? z) && (z <=? max_int) then z
      else wrap (unrepresentable f)
  | None => wrap (unrepresentable f)
  end.

(** [uint8(f)] *)
Definition to_uint8 (f : spec_float) : Z :=
  match SFtrunc f with
  | Some z =>
      if (0 <=? z) && (z <=? 255) then z
      else unrepresentable f mod 256
  | None => unrepresentable f mod 256
  end.

(** *** computeBuckets *)

(** [int(math.Ceil(float64(MaxY) / float64(YBucketSize)))] *)
Definition numYBuckets_of (maxY ybs : Z) : Z :=
  to_int (Ceil (F64.div (F64.of_int maxY) (F64.of_int ybs))).

(** The bin of one sample [y]. *)
Definition bin_of (ybs numY y : Z) : option Z :=
  bin ← int_div y ybs;
  Some (if numY <=? bin then int_sub numY 1 else bin).

(** The inner loop, [for i, y := range xBuckets], from index [i] on. *)
Fixpoint bucket_row (ybs numY : Z) (i : Z) (xBuckets : list Z)
    (d : list Z) : option (list Z) :=
  match xBuckets with
  | [] => Some d
  | y :: rest =>
      bin ← bin_of ybs numY y;
      let idx := int_add (int_mul i numY) bin in
      c ← index d idx;
      d' ← store d idx (int_add c 1);
      bucket_row ybs numY (i + 1) rest d'
  end.

(** The outer loop, [for _, xBuckets := range hm.origData]. *)
Fixpoint bucket_rows (ybs numY : Z) (rows : list (list Z))
    (d : list Z) : option (list Z) :=
  match rows with
  | [] => Some d
  | xBuckets :: rest =>
      d' ← bucket_row ybs numY 0 xBuckets d;
      bucket_rows ybs numY rest d'
  end.

Definition computeBuckets (hm : Heatmap) : option Heatmap :=
  let numY := numYBuckets_of (MaxY hm) (YBucketSize hm) in
  d0 ← make (int_mul (numXBuckets hm) numY);
  d ← bucket_rows (YBucketSize hm) numY (origData hm) d0;
  Some (with_buckets hm numY d).

(** *** computeSaturations *)

(** The deduplication loop.  [unique := sorted[:0]] shares the backing
    array of [sorted], so an append to [unique] writes into [sorted]: [buf]
    is that array, [ulen] the length of [unique], [i] the index that the
    range loop reads next and [n] the number of turns left.  [unique] never
    grows past the index being read, so the append never reallocates. *)
Fixpoint dedup_loop (n : nat) (i : nat) (buf : list Z) (ulen : nat)
    (prev : Z) : list Z * nat :=
  match n with
  | O => (buf, ulen)
  | S n' =>
      match buf !! i with
      | None => (buf, ulen)
      | Some v =>
          if v =? prev then dedup_loop n' (S i) buf ulen prev
          else dedup_loop n' (S i) (<[ulen := v]> buf) (S ulen) v
      end
  end.

(** The ranked saturation of a cell of value [v]; the explicit panic when
    the search does not find a bucket. *)
Definition ranked_saturation (unique : list Z) (v : Z) : option Z :=
  let satIdx := SearchInts unique v in
  if satIdx =? len unique then None
  else
    let s := to_uint8 (F32.mul (F32.of_int 255)
               (F32.div (F32.of_int (int_add satIdx 1))
                        (F32.of_int (len unique)))) in
    Some (if s =? 0 then 1 else s).

(** The linear saturation of a cell of value [v]; [sorted] is the array
    after the deduplication loop has written into it. *)
Definition linear_saturation (sorted : list Z) (v : Z) : option Z :=
  top ← index sorted (int_sub (len sorted) 1);
  let s := to_uint8 (F32.mul (F32.of_int 255)
             (F32.div (F32.of_int v) (F32.of_int top))) in
  Some (if s =? 0 then 1 else s).

(** The loop over the cells: the ranked and the linear table. *)
Fixpoint saturation_loop (unique sorted : list Z) (d : list Z)
    : option (list Z * list Z) :=
  match d with
  | [] => Some ([], [])
  | v :: rest =>
      r ← ranked_saturation unique v;
      l ← linear_saturation sorted v;
      '(ls, rs) ← saturation_loop unique sorted rest;
      Some (l :: ls, r :: rs)
  end.

(** [prev := -1], [unique := sorted[:0]] and the loop: the array of
    [sorted] as the loop leaves it, and [unique]. *)
Definition deduplicate (sorted : list Z) : list Z * list Z :=
  let '(buf, ulen) := dedup_loop (length sorted) 0 sorted 0 (-1) in
  (buf, take ulen buf).

Definition computeSaturations (hm : Heatmap) : option Heatmap :=
  if len (data hm) =? 0 then Some hm
  else
    let '(sorted, unique) := deduplicate (sort_Ints (data hm)) in
    '(ls, rs) ← saturation_loop unique sorted (data hm);
    Some (with_saturations hm ls rs).

(** *** HoveredBucket *)

Definition HoveredBucket (hm : Heatmap) : HeatmapBucket * bool :=
  (hovered hm, negb (Count (hovered hm) =? -1)).

(** *** Layout *)

(** The pointer moves of the frame, in their order. *)
Definition handle_moves (hm : Heatmap) (dims : Point)
    (evs : list f32Point) : Heatmap :=
  fold_left (fun h p => with_pointer h p dims) evs hm.

Definition key_of (hm : Heatmap) (dims : Point) : heatmapCacheKey :=
  {| size := dims; useLinearColors := UseLinearColors hm;
     yBucketSize := YBucketSize hm; xBucketSize := XBucketSize hm |}.

(** Re-aggregation, when a bucket size differs from the stored key's. *)
Definition refresh (hm : Heatmap) (key : heatmapCacheKey) : option Heatmap :=
  if negb (xBucketSize key =? xBucketSize (cacheKey hm))
     || negb (yBucketSize key =? yBucketSize (cacheKey hm))
  then
    row0 ← origData hm !! 0%nat;
    hm1 ← computeBuckets (with_numXBuckets hm (len row0));
    computeSaturations hm1
  else Some hm.

(** The four rounded edges of cell [(x, y)]. *)
Definition cell_edges (dims : Point) (xStepPx yStepPx : float32) (x y : Z)
    : float32 * float32 * float32 * float32 :=
  let xStart := round32 (F32.mul (F32.of_int x) xStepPx) in
  let yEnd := round32 (F32.sub (F32.of_int (pY dims))
                         (F32.mul (F32.of_int y) yStepPx)) in
  let xEnd := round32 (F32.mul (F32.of_int (int_add x 1)) xStepPx) in
  let yStart := round32 (F32.sub (F32.of_int (pY dims))
                           (F32.mul (F32.of_int (int_add y 1)) yStepPx)) in
  (xStart, yStart, xEnd, yEnd).

Definition cell_path (dims : Point) (xStepPx yStepPx : float32) (x y : Z)
    : list path_cmd :=
  let '(xStart, yStart, xEnd, yEnd) := cell_edges dims xStepPx yStepPx x y in
  [ MoveTo {| fX := xStart; fY := yStart |};
    LineTo {| fX := xEnd; fY := yStart |};
    LineTo {| fX := xEnd; fY := yEnd |};
    LineTo {| fX := xStart; fY := yEnd |};
    Close ].

(** The body of the two nested loops over the cells: an empty bucket is
    skipped, any other adds its rectangle to the path of its saturation. *)
Definition add_cell (hm : Heatmap) (dims : Point) (xStepPx yStepPx : float32)
    (saturations : list Z) (paths : list (list path_cmd)) (x y : Z)
    : option (list (list path_cmd)) :=
  let idx := int_add (int_mul x (numYBuckets hm)) y in
  v ← index (data hm) idx;
  if v =? 0 then Some paths
  else
    s ← index saturations idx;
    p ← index paths s;
    store paths s (p ++ cell_path dims xStepPx yStepPx x y).

Fixpoint add_cells (hm : Heatmap) (dims : Point) (xStepPx yStepPx : float32)
    (saturations : list Z) (cells : list (Z * Z))
    (paths : list (list path_cmd)) : option (list (list path_cmd)) :=
  match cells with
  | [] => Some paths
  | (x, y) :: rest =>
      paths' ← add_cell hm dims xStepPx yStepPx saturations paths x y;
      add_cells hm dims xStepPx yStepPx saturations rest paths'
  end.

(** The cells in the order of [for x ... { for y ... } ]. *)
Definition cell_order (numX numY : Z) : list (Z * Z) :=
  x ← seqZ 0 numX; y ← seqZ 0 numY; [(x, y)].

(** [paint.FillShape] for path [i]: red, with [255 - i] of green and blue. *)
Definition fill_of (i : Z) (p : list path_cmd) : cached_op :=
  let m := (255 - i) mod 256 in
  FillShape {| cR := 255; cG := m; cB := m; cA := 255 |} p.

(** The rebuild of the cached operations.  (The loop that computes [max]
    in the source has no effect on them and is left out.) *)
Definition active_saturations (hm : Heatmap) : list Z :=
  if UseLinearColors hm then linearSaturations hm
  else rankedSaturations hm.

Definition rebuild (hm : Heatmap) (dims : Point) (numX : Z)
    (xStepPx yStepPx : float32) : option (list cached_op) :=
  let saturations := active_saturations hm in
  paths ← add_cells hm dims xStepPx yStepPx saturations
             (cell_order numX (numYBuckets hm)) (replicate 256 []);
  Some ([ClipRectPush dims; BackgroundFill; EventOp]
        ++ imap (fun i p => fill_of (Z.of_nat i) p) paths
        ++ [ClipPop]).

(** The guard of the hover. *)
Definition hover_valid (hm : Heatmap) (dims : Point) : bool :=
  bool_decide (pointerConstraint hm = dims)
  && fgt (fX (pointer hm)) F32.zero
  && fgt (fY (pointer hm)) F32.zero
  && fle (fX (pointer hm)) (F32.of_int (pX dims))
  && fle (fY (pointer hm)) (F32.of_int (pY dims)).

(** The bucket indices under the pointer. *)
Definition hover_x (hm : Heatmap) (xStepPx : float32) : Z :=
  to_int (F32.div (fX (pointer hm)) xStepPx).

Definition hover_y (hm : Heatmap) (dims : Point) (yStepPx : float32) : Z :=
  to_int (F32.div (F32.sub (F32.of_int (pY dims)) (fY (pointer hm))) yStepPx).

Definition no_hover : HeatmapBucket :=
  {| XStart := 0; XEnd := 0; YStart := 0; YEnd := 0; Count := -1 |}.

(** The hover: the outline added to the frame and the hovered bucket. *)
Definition hover (hm : Heatmap) (dims : Point) (dp1 : Z)
    (xStepPx yStepPx : float32) : option (list frame_op * HeatmapBucket) :=
  if hover_valid hm dims then
    let x := hover_x hm xStepPx in
    let y := hover_y hm dims yStepPx in
    let '(xStart, yStart, xEnd, yEnd) :=
      cell_edges dims xStepPx yStepPx x y in
    let outline :=
      HoverOutline {| fX := xStart; fY := yStart |}
                   {| fX := xEnd; fY := yEnd |} (F32.of_int dp1) in
    let idx := int_add (int_mul x (numYBuckets hm)) y in
    c ← index (data hm) idx;
    Some ([outline],
          {| XStart := int_mul x (XBucketSize hm);
             XEnd := int_add (int_mul x (XBucketSize hm)) (XBucketSize hm);
             YStart := int_mul y (YBucketSize hm);
             YEnd := int_add (int_mul y (YBucketSize hm)) (YBucketSize hm);
             Count := c |})
  else Some ([], no_hover).

(** The cache: replay the stored macro when the key is the stored one,
    rebuild and store otherwise.  The result tells whether a rebuild ran. *)
Definition geometry (hm : Heatmap) (key : heatmapCacheKey) (dims : Point)
    (numX : Z) (xStepPx yStepPx : float32) : option (Heatmap * bool) :=
  if bool_decide (cacheKey hm = key) then Some (hm, false)
  else
    ops ← rebuild hm dims numX xStepPx yStepPx;
    Some (with_cache hm key ops, true).

(** The part of [Heatmap.Layout] before the hover: the pointer moves, the
    cache key, the re-aggregation, the pixel steps and the cached
    operations.  The result is the state, the two steps and whether the
    cached operations were rebuilt. *)
Definition layout_cache (hm : Heatmap) (gtx : Context)
    : option (Heatmap * float32 * float32 * bool) :=
  let dims := ConstraintsMax gtx in
  let hm := handle_moves hm dims (moves gtx) in
  let key := key_of hm dims in
  hm ← refresh hm key;
  numX ← int_div (len (data hm)) (numYBuckets hm);
  let xStepPx := F32.div (F32.of_int (pX dims)) (F32.of_int numX) in
  let yStepPx := F32.div (F32.of_int (pY dims))
                         (F32.of_int (numYBuckets hm)) in
  '(hm, rebuilt) ← geometry hm key dims numX xStepPx yStepPx;
  Some (hm, xStepPx, yStepPx, rebuilt).

(** [Heatmap.Layout]: the new state, the operations added to [gtx.Ops] and
    whether the cached operations were rebuilt. *)
Definition Layout (hm : Heatmap) (gtx : Context)
    : option (Heatmap * list frame_op * bool) :=
  '(hm, xStepPx, yStepPx, rebuilt) ← layout_cache hm gtx;
  '(outline, b) ← hover hm (ConstraintsMax gtx) (Dp1 gtx) xStepPx yStepPx;
  Some (with_hovered hm b, CallMacro (cachedMacro hm) :: outline, rebuilt).

(** *** SetData *)

Definition zero_key : heatmapCacheKey :=
  {| size := {| pX := 0; pY := 0 |}; useLinearColors := false;
     yBucketSize := 0; xBucketSize := 0 |}.

Definition SetData (hm : Heatmap) (d : list (list Z)) : option Heatmap :=
  row0 ← d !! 0%nat;
  Some (with_origData hm d (len row0) zero_key).

(** *** Well-formed inputs *)

(** A raw series that computeBuckets accepts: a positive bucket size, at
    least one Y bucket, a grid whose length is an [int], no row longer than
    the number of X buckets, and samples that are non-negative ints. *)
Definition regular_input (hm : Heatmap) : Prop :=
  0 < YBucketSize hm /\ is_int (YBucketSize hm)
  /\ 1 <= numYBuckets_of (MaxY hm) (YBucketSize hm)
  /\ 0 <= numXBuckets hm
  /\ numXBuckets hm * numYBuckets_of (MaxY hm) (YBucketSize hm) <= max_int
  /\ Forall (fun row => len row <= numXBuckets hm
                        /\ Forall (fun y => 0 <= y <= max_int) row)
            (origData hm).

(** *** The fill operations of a rebuild *)

Definition is_FillShape (op : cached_op) : bool :=
  match op with FillShape _ _ => true | _ => false end.

Definition count_fills (ops : list cached_op) : nat :=
  length (List.filter is_FillShape ops).

(** The saturation under which a cell is drawn, none for an empty cell. *)
Definition cell_saturation (hm : Heatmap) (c : Z * Z) : option Z :=
  let idx := int_add (int_mul (fst c) (numYBuckets hm)) (snd c) in
  v ← index (data hm) idx;
  if v =? 0 then None else index (active_saturations hm) idx.

(** The distinct saturations that the nonzero-count cells use. *)
Definition used_saturations (hm : Heatmap) (numX : Z) : list Z :=
  remove_dups (omap (cell_saturation hm) (cell_order numX (numYBuckets hm))).

(** A state whose grid covers [numX] columns and whose active table covers
    the grid with values of type [uint8]. *)
Definition drawable (hm : Heatmap) (numX : Z) : Prop :=
  0 <= numX /\ 0 <= numYBuckets hm
  /\ numX * numYBuckets hm <= len (data hm) <= max_int
  /\ len (data hm) <= len (active_saturations hm)
  /\ Forall (fun s => 0 <= s <= 255) (active_saturations hm).

(** *** States on which the pass before the hover returns *)

(** A table of [uint8]. *)
Definition uint8_table (t : list Z) : Prop :=
  Forall (fun s => 0 <= s <= 255) t.

(** The aggregated grid is in place: the number of Y buckets is positive
    and is the one of the bucket size, the length of the grid is an [int],
    no count is negative, and both tables cover the grid. *)
Definition aggregated (hm : Heatmap) : Prop :=
  0 < numYBuckets hm
  /\ numYBuckets hm = numYBuckets_of (MaxY hm) (YBucketSize hm)
  /\ len (data hm) <= max_int
  /\ Forall (fun v => 0 <= v) (data hm)
  /\ len (data hm) <= len (linearSaturations hm)
  /\ len (data hm) <= len (rankedSaturations hm).

(** The raw series can be aggregated, with the number of X buckets that
    Layout takes from its first row. *)
Definition aggregable (hm : Heatmap) : Prop :=
  exists row0,
    origData hm !! 0%nat = Some row0
    /\ regular_input (with_numXBuckets hm (len row0))
    /\ samples (origData hm) <= max_int.

(** A state that Layout can start from: the raw series can be aggregated,
    and when the stored key has the bucket sizes of the state (no
    re-aggregation is due) the aggregated grid is in place. *)
Definition well_formed (hm : Heatmap) : Prop :=
  uint8_table (linearSaturations hm) /\ uint8_table (rankedSaturations hm)
  /\ aggregable hm
  /\ (XBucketSize hm = xBucketSize (cacheKey hm) ->
      YBucketSize hm = yBucketSize (cacheKey hm) -> aggregated hm).

(** *** Example states *)

Definition zero_bucket : HeatmapBucket :=
  {| XStart := 0; XEnd := 0; YStart := 0; YEnd := 0; Count := 0 |}.

(** A heatmap of two X buckets over [0, 20] with a Y bucket size of 10,
    after [SetData] with the single series [5, 15], before any Layout. *)
Definition example_heatmap : Heatmap :=
  {| MaxY := 20; UseLinearColors := false; XBucketSize := 100;
     YBucketSize := 10; numXBuckets := 2; numYBuckets := 0; data := [];
     origData := [[5; 15]];
     pointer := {| fX := F32.zero; fY := F32.zero |};
     pointerConstraint := {| pX := 0; pY := 0 |};
     hovered := zero_bucket; cacheKey := zero_key;
     cachedOps := []; cachedMacro := [];
     linearSaturations := []; rankedSaturations := [] |}.

(** A frame of 100 x 100 pixels in which the pointer moves to [(x, y)]. *)
Definition example_frame (x y : Z) : Context :=
  {| ConstraintsMax := {| pX := 100; pY := 100 |};
     moves := [ {| fX := F32.of_int x; fY := F32.of_int y |} ];
     Dp1 := 1 |}.

(** A frame of 100 x 100 pixels without a pointer move. *)
Definition still_frame : Context :=
  {| ConstraintsMax := {| pX := 100; pY := 100 |}; moves := []; Dp1 := 1 |}.

(** The grid of 4 x 3 cells of the specification's example. *)
Definition example_grid : Heatmap :=
  {| MaxY := 30; UseLinearColors := false; XBucketSize := 100;
     YBucketSize := 10; numXBuckets := 4; numYBuckets := 3;
     data := [0; 0; 0; 1; 0; 0; 0; 5; 0; 0; 0; 9];
     origData := [];
     pointer := {| fX := F32.zero; fY := F32.zero |};
     pointerConstraint := {| pX := 0; pY := 0 |};
     hovered := zero_bucket; cacheKey := zero_key;
     cachedOps := []; cachedMacro := [];
     linearSaturations := []; rankedSaturations := [] |}.

(** *** The cells of the aggregated grid *)

(** The bin of a sample [y >= 0]: [y / ybs], and the last bin when this is
    beyond it. *)
Definition bin_index (ybs numY y : Z) : Z := Z.min (y / ybs) (numY - 1).

(** Whether the series [xs], whose first sample belongs to X bucket [i0],
    has its sample of X bucket [i] in bin [b]. *)
Definition sample_hits (ybs numY : Z) (xs : list Z) (i0 i b : Z) : bool :=
  match xs !! Z.to_nat (i - i0) with
  | Some y => (i0 <=? i) && (bin_index ybs numY y =? b)
  | None => false
  end.

(** The number of series whose sample of X bucket [i] falls in bin [b]. *)
Definition cell_samples (ybs numY : Z) (rows : list (list Z)) (i b : Z) : Z :=
  len (List.filter (fun xs => sample_hits ybs numY xs 0 i b) rows).

(** *** The path of a saturation *)

(** The rectangles of the cells drawn with saturation [s], in the order of
    the two loops over the cells. *)
Definition saturation_path (hm : Heatmap) (dims : Point)
    (xStepPx yStepPx : float32) (numX : Z) (s : Z) : list path_cmd :=
  concat (map (fun c =>
                 match cell_saturation hm c with
                 | Some s' =>
                     if s' =? s then cell_path dims xStepPx yStepPx (fst c) (snd c)
                     else []
                 | None => []
                 end)
              (cell_order numX (numYBuckets hm))).

(** *** HeatmapComponent *)

Definition with_XBucketSize (hm : Heatmap) (x : Z) : Heatmap :=
  {| MaxY := MaxY hm; UseLinearColors := UseLinearColors hm;
     XBucketSize := x; YBucketSize := YBucketSize hm;
     numXBuckets := numXBuckets hm; numYBuckets := numYBuckets hm;
     data := data hm; origData := origData hm; pointer := pointer hm;
     pointerConstraint := pointerConstraint hm; hovered := hovered hm;
     cacheKey := cacheKey hm; cachedOps := cachedOps hm;
     cachedMacro := cachedMacro hm;
     linearSaturations := linearSaturations hm;
     rankedSaturations := rankedSaturations hm |}.

Definition with_YBucketSize (hm : Heatmap) (y : Z) : Heatmap :=
  {| MaxY := MaxY hm; UseLinearColors := UseLinearColors hm;
     XBucketSize := XBucketSize hm; YBucketSize := y;
     numXBuckets := numXBuckets hm; numYBuckets := numYBuckets hm;
     data := data hm; origData := origData hm; pointer := pointer hm;
     pointerConstraint := pointerConstraint hm; hovered := hovered hm;
     cacheKey := cacheKey hm; cachedOps := cachedOps hm;
     cachedMacro := cachedMacro hm;
     linearSaturations := linearSaturations hm;
     rankedSaturations := rankedSaturations hm |}.

(** [time.Millisecond]: a [time.Duration] counts nanoseconds. *)
Definition Millisecond : Z := 1000000.

(** The array [ySteps] of HeatmapComponent.Layout. *)
Definition ySteps : list Z := [1; 2; 4; 5; 10; 20; 25; 50; 100].

(** The trace, its processors and [ptrace.ComputeProcessorBusy] are
    defined outside the sources at hand; the result [None] of
    ComputeProcessorBusy stands for a panic. *)
Variable Trace : Type.
Variable Processor : Type.
Variable Processors : Trace -> list Processor.
Variable ComputeProcessorBusy : Trace -> Processor -> Z -> option (list Z).

(** The loop of bucketByX, over the processors [ps]. *)
Fixpoint processors_busy (tr : Trace) (xStep : Z) (ps : list Processor)
    : option (list (list Z)) :=
  match ps with
  | [] => Some []
  | p :: rest =>
      row ← ComputeProcessorBusy tr p xStep;
      rows ← processors_busy tr xStep rest;
      Some (row :: rows)
  end.

Definition bucketByX (tr : Trace) (xStep : Z) : option (list (list Z)) :=
  processors_busy tr xStep (Processors tr).

(** [hmc.useLinear] is a [widget.Bool]; only its [Value] is kept. *)
Record HeatmapComponent := {
  hmc_trace : Trace;
  hmc_hm : Heatmap;
  hmc_yStep : Z;
  hmc_useLinear : bool
}.

Definition with_hm (hmc : HeatmapComponent) (hm : Heatmap)
    : HeatmapComponent :=
  {| hmc_trace := hmc_trace hmc; hmc_hm := hm; hmc_yStep := hmc_yStep hmc;
     hmc_useLinear := hmc_useLinear hmc |}.

Definition with_yStep (hmc : HeatmapComponent) (y : Z) : HeatmapComponent :=
  {| hmc_trace := hmc_trace hmc; hmc_hm := hmc_hm hmc; hmc_yStep := y;
     hmc_useLinear := hmc_useLinear hmc |}.

(** The fields that the composite literal leaves out have their zero
    value. *)
Definition NewHeatmapComponent (tr : Trace) : option HeatmapComponent :=
  let initialXStep := 100 * Millisecond in
  let initialYStep := 1 in
  let maxY := 100 in
  let hm :=
    {| MaxY := maxY; UseLinearColors := false; XBucketSize := initialXStep;
       YBucketSize := initialYStep;
       numXBuckets := 0; numYBuckets := 0; data := []; origData := [];
       pointer := {| fX := F32.zero; fY := F32.zero |};
       pointerConstraint := {| pX := 0; pY := 0 |};
       hovered := zero_bucket; cacheKey := zero_key;
       cachedOps := []; cachedMacro := [];
       linearSaturations := []; rankedSaturations := [] |} in
  d ← bucketByX tr initialXStep;
  hm ← SetData hm d;
  Some {| hmc_trace := tr; hmc_hm := hm; hmc_yStep := 0;
          hmc_useLinear := false |}.

(** The events that the filters of HeatmapComponent.Layout let through:
    focus events, and key events named by one of the four arrows. *)
Inductive key_name :=
  NameUpArrow | NameDownArrow | NameLeftArrow | NameRightArrow.

Inductive key_state := Press | Release.

Inductive input_event :=
  | FocusEvent (focus : bool)
  | KeyEvent (name : key_name) (state : key_state).

(** The [switch ev.Name] of HeatmapComponent.Layout. *)
Definition handle_key (hmc : HeatmapComponent) (name : key_name)
    : option HeatmapComponent :=
  match name with
  | NameUpArrow =>
      let y := int_add (hmc_yStep hmc) 1 in
      let y := if len ySteps <=? y then int_sub (len ySteps) 1 else y in
      s ← index ySteps y;
      Some (with_hm (with_yStep hmc y) (with_YBucketSize (hmc_hm hmc) s))
  | NameDownArrow =>
      let y := int_sub (hmc_yStep hmc) 1 in
      let y := if y <? 0 then 0 else y in
      s ← index ySteps y;
      Some (with_hm (with_yStep hmc y) (with_YBucketSize (hmc_hm hmc) s))
  | NameLeftArrow =>
      let x := int_sub (XBucketSize (hmc_hm hmc)) (10 * Millisecond) in
      let x := if x <? 10 * Millisecond then 10 * Millisecond else x in
      d ← bucketByX (hmc_trace hmc) x;
      hm ← SetData (with_XBucketSize (hmc_hm hmc) x) d;
      Some (with_hm hmc hm)
  | NameRightArrow =>
      let x := int_add (XBucketSize (hmc_hm hmc)) (10 * Millisecond) in
      d ← bucketByX (hmc_trace hmc) x;
      hm ← SetData (with_XBucketSize (hmc_hm hmc) x) d;
      Some (with_hm hmc hm)
  end.

(** One turn of the event loop: only a key press is acted upon. *)
Definition handle_event (hmc : HeatmapComponent) (ev : input_event)
    : option HeatmapComponent :=
  match ev with
  | KeyEvent name Press => handle_key hmc name
  | _ => Some hmc
  end.

(** The event loop of HeatmapComponent.Layout, over the queued events. *)
Fixpoint handle_events (hmc : HeatmapComponent) (evs : list input_event)
    : option HeatmapComponent :=
  match evs with
  | [] => Some hmc
  | ev :: rest => hmc' ← handle_event hmc ev; handle_events hmc' rest
  end.

(** The X bucket size that an event asks for, in plain arithmetic: the left
    arrow takes 10ms off, but not below 10ms, the right arrow adds 10ms,
    and every other event leaves the size alone. *)
Definition XBucketSize_after (x : Z) (ev : input_event) : Z :=
  match ev with
  | KeyEvent NameLeftArrow Press =>
      Z.max (x - 10 * Millisecond) (10 * Millisecond)
  | KeyEvent NameRightArrow Press => x + 10 * Millisecond
  | _ => x
  end.

(** The closing bracket of the range in the label of the hovered bucket,
    none when no bucket is hovered.  (The text of the label is formatted
    outside the sources at hand.) *)
Definition label_close (hm : Heatmap) : option ascii :=
  let '(b, ok) := HoveredBucket hm in
  if ok then Some (if MaxY hm <=? YEnd b then "]"%char else ")"%char)
  else None.

(** What the component keeps true of its state: the step index is within
    [ySteps] and selects the Y bucket size, the largest value is 100, and
    the raw series are those of the X bucket size. *)
Definition component_ok (hmc : HeatmapComponent) : Prop :=
  0 <= hmc_yStep hmc <= 8
  /\ index ySteps (hmc_yStep hmc) = Some (YBucketSize (hmc_hm hmc))
  /\ MaxY (hmc_hm hmc) = 100
  /\ bucketByX (hmc_trace hmc) (XBucketSize (hmc_hm hmc))
     = Some (origData (hmc_hm hmc)).

Definition with_MaxY (hm : Heatmap) (m : Z) : Heatmap :=
  {| MaxY := m; UseLinearColors := UseLinearColors hm;
     XBucketSize := XBucketSize hm; YBucketSize := YBucketSize hm;
     numXBuckets := numXBuckets hm; numYBuckets := numYBuckets hm;
     data := data hm; origData := origData hm; pointer := pointer hm;
     pointerConstraint := pointerConstraint hm; hovered := hovered hm;
     cacheKey := cacheKey hm; cachedOps := cachedOps hm;
     cachedMacro := cachedMacro hm;
     linearSaturations := linearSaturations hm;
     rankedSaturations := rankedSaturations hm |}.

(** The number of elements of [l] that are below [v]. *)
Definition count_below (l : list Z) (v : Z) : Z :=
  len (List.filter (fun u => u <? v) l).

(** ** The table of package theme *)

(** [SortOrder] is a [uint8] with three named values. *)
Definition SortNone : Z := 0.
Definition SortAscending : Z := 1.
Definition SortDescending : Z := 2.

(** The fields of [Table] that the sorting reads and writes;
    [clickedColumn] is a [container.Option[int]]. *)
Record Table := {
  SortOrder : Z;
  SortedBy : Z;
  clickedColumn : option Z
}.

(** [Table.ClickedColumn]: the value and whether there is one. *)
Definition ClickedColumn (tbl : Table) : Z * bool :=
  match clickedColumn tbl with
  | Some col => (col, true)
  | None => (0, false)
  end.

(** [Table.SortByClickedColumn]: the table, the column and whether a column
    was clicked; the explicit panic on a sort order that has no name. *)
Definition SortByClickedColumn (tbl : Table) : option (Table * Z * bool) :=
  let '(col, ok) := ClickedColumn tbl in
  if ok then
    if col =? SortedBy tbl then
      if SortOrder tbl =? SortNone then
        Some ({| SortOrder := SortAscending; SortedBy := SortedBy tbl;
                 clickedColumn := clickedColumn tbl |}, col, true)
      else if SortOrder tbl =? SortAscending then
        Some ({| SortOrder := SortDescending; SortedBy := SortedBy tbl;
                 clickedColumn := clickedColumn tbl |}, col, true)
      else if SortOrder tbl =? SortDescending then
        Some ({| SortOrder := SortAscending; SortedBy := SortedBy tbl;
                 clickedColumn := clickedColumn tbl |}, col, true)
      else None
    else
      Some ({| SortOrder := SortAscending; SortedBy := col;
               clickedColumn := clickedColumn tbl |}, col, true)
  else Some (tbl, 0, false).

(** The table after a click: sorted by [col] in the order [order]. *)
Definition sorted_table (tbl : Table) (col order : Z) : Table :=
  {| SortOrder := order; SortedBy := col;
     clickedColumn := clickedColumn tbl |}.

(** The mark that the header of column [colIdx] puts before the name of
    the column (TableHeaderRowStyle.Layout): none, the triangle that points
    up or the one that points down. *)
Inductive header_mark := NoMark | MarkAscending | MarkDescending.

Definition header_mark_of (tbl : Table) (colIdx : Z) : option header_mark :=
  if SortedBy tbl =? colIdx then
    if SortOrder tbl =? SortNone then Some NoMark
    else if SortOrder tbl =? SortAscending then Some MarkAscending
    else if SortOrder tbl =? SortDescending then Some MarkDescending
    else None
  else Some NoMark.

(** ** The histogram of package theme *)

(** [widget.Histogram], its bins and its method BucketRange are defined
    outside the sources at hand; the result [None] of BucketRange stands
    for a panic.  [widget.FloatDuration] is a [float64]. *)
Variable Histogram : Type.
Variable Bins : Histogram -> list Z.
Variable BucketRange : Histogram -> Z -> option (float64 * float64).

(** [pointer.ButtonPrimary], [gesture.KindClick] and [key.ModShortcut],
    constants of the libraries. *)
Variable ButtonPrimary : Z.
Variable KindClick : Z.
Variable ModShortcut : Z.

(** The fields of [HistogramState] that Update and selectedRange read and
    write, apart from the two gestures. *)
Record HistogramState := {
  hs_Histogram : option Histogram;
  prevBarWidth : float32;
  dragging_active : bool;
  dragging_startBucket : Z
}.

Definition with_dragging (hs : HistogramState) (a : bool) (b : Z)
    : HistogramState :=
  {| hs_Histogram := hs_Histogram hs; prevBarWidth := prevBarWidth hs;
     dragging_active := a; dragging_startBucket := b |}.

(** [HistogramState.selectedRange]; a nil [hs.Histogram] is a panic. *)
Definition selectedRange (hs : HistogramState) (bin : Z)
    : option (float64 * float64) :=
  h ← hs_Histogram hs;
  if dragging_startBucket hs <? bin then
    '(start, _) ← BucketRange h (dragging_startBucket hs);
    '(_, end_) ← BucketRange h bin;
    Some (start, end_)
  else
    '(_, end_) ← BucketRange h (dragging_startBucket hs);
    '(start, _) ← BucketRange h bin;
    Some (start, end_).

(** A click of [hs.click.Update] and a pointer event of the filter of
    Update (presses, releases, drags and cancels). *)
Record click_event := { ce_Button : Z; ce_Kind : Z; ce_NumClicks : Z }.

Inductive pointer_kind :=
  PointerPress | PointerRelease | PointerDrag | PointerCancel.

Record pointer_event := { pe_Kind : pointer_kind; pe_Modifiers : Z }.

(** What a frame gives to Update: the clicks, whether the pointer hovers
    over the plot, the pointer events and the X of the pointer. *)
Record update_input := {
  in_clicks : list click_event;
  in_hovered : bool;
  in_events : list pointer_event;
  in_pointerX : float32
}.

(** The loop over the clicks: a double click with the primary button. *)
Definition double_clicked (clicks : list click_event) : bool :=
  fold_left (fun clicked click =>
               if negb (ce_Button click =? ButtonPrimary) then clicked
               else if negb (ce_Kind click =? KindClick) then clicked
               else if ce_NumClicks click =? 2 then true
               else clicked)
            clicks false.

(** The loop over the pointer events, on [dragging.active],
    [trackDragStart] and [trackDragEnd]. *)
Definition track_drag (st : bool * bool * bool) (ev : pointer_event)
    : bool * bool * bool :=
  let '(active, trackDragStart, trackDragEnd) := st in
  match pe_Kind ev with
  | PointerPress =>
      if pe_Modifiers ev =? ModShortcut then (true, true, trackDragEnd)
      else st
  | PointerRelease =>
      (false, trackDragStart, if active then true else trackDragEnd)
  | PointerCancel => (false, trackDragStart, trackDragEnd)
  | PointerDrag => st
  end.

(** The bin under the pointer, brought back into the bins. *)
Definition hovered_bin (hs : HistogramState) (h : Histogram) (x : float32)
    : Z :=
  let bin := to_int (F32.div x (prevBarWidth hs)) in
  if bin <? 0 then 0
  else if len (Bins h) <=? bin then int_sub (len (Bins h)) 1
  else bin.

Definition f64_zero : float64 := S754_zero false.

(** [HistogramState.Update]: the state, [start], [end] and [ok]. *)
Definition Update (hs : HistogramState) (inp : update_input)
    : option (HistogramState * float64 * float64 * bool) :=
  match hs_Histogram hs with
  | None => Some (hs, f64_zero, f64_zero, false)
  | Some h =>
      let clicked := double_clicked (in_clicks inp) in
      let '(active, trackDragStart, trackDragEnd) :=
        fold_left track_drag (in_events inp)
                  (dragging_active hs, false, false) in
      let hs := with_dragging hs active (dragging_startBucket hs) in
      '(hs, start, end_) ←
        (if in_hovered inp then
           let bin := hovered_bin hs h (in_pointerX inp) in
           '(start, end_) ←
             (if clicked then
                '(start, end_) ← BucketRange h bin;
                Some (start,
                      if bin =? len (Bins h)
                      then SFadd 53 1024 end_ (F64.of_int 1)
                      else end_)
              else Some (f64_zero, f64_zero));
           let hs := if trackDragStart
                     then with_dragging hs (dragging_active hs) bin
                     else hs in
           if trackDragEnd then
             '(start, end_) ← selectedRange hs bin;
             Some (with_dragging hs false 0, start, end_)
           else Some (hs, start, end_)
         else Some (hs, f64_zero, f64_zero));
      Some (hs, start, end_,
            negb (SFeqb start f64_zero && SFeqb end_ f64_zero))
  end.

(** ** The clicked column of the table *)

(** [gesture.TypeClick], a constant of the library.  The events of a header
    click have a button and a type, kept in [ce_Button] and [ce_Kind]. *)
Variable TypeClick : Z.

Definition primary_click (ev : click_event) : bool :=
  (ce_Button ev =? ButtonPrimary) && (ce_Kind ev =? TypeClick).

(** The loop over the events of the header of column [i]. *)
Definition header_events (i : Z) (evs : list click_event) (acc : option Z)
    : option Z :=
  fold_left (fun acc ev => if primary_click ev then Some i else acc) evs acc.

(** The loop [for i := range tbl.headerClicks], from column [i] on. *)
Fixpoint header_clicks (i : Z) (headerClicks : list (list click_event))
    (acc : option Z) : option Z :=
  match headerClicks with
  | [] => acc
  | evs :: rest => header_clicks (i + 1) rest (header_events i evs acc)
  end.

(** The end of Table.Layout: the clicked column is forgotten, then set
    from the events of the header clicks. *)
Definition Table_Layout_clicks (tbl : Table)
    (headerClicks : list (list click_event)) : Table :=
  {| SortOrder := SortOrder tbl; SortedBy := SortedBy tbl;
     clickedColumn := header_clicks 0 headerClicks None |}.

(** * Properties *)

(** ** Machine integers and slices *)

Lemma wrap_small z : is_int z -> wrap z = z.
Proof.
  unfold is_int, wrap, min_int, max_int. intros H.
  rewrite Z.mod_small; lia.
Qed.

Lemma wrap_is_int z : is_int (wrap z).
Proof.
  unfold is_int, wrap, min_int, max_int.
  pose proof (Z.mod_pos_bound (z + 2 ^ 63) (2 ^ 64)). lia.
Qed.

Lemma index_Some {A} (s : list A) i v :
  index s i = Some v <-> 0 <= i /\ s !! Z.to_nat i = Some v.
Proof.
  unfold index. destruct (Z.ltb_spec i 0); split; intros; try lia;
    intuition (try discriminate; try lia; auto).
Qed.

Lemma index_is_Some {A} (s : list A) i :
  0 <= i < len s -> is_Some (index s i).
Proof.
  unfold index, len. intros H. destruct (Z.ltb_spec i 0); [lia|].
  apply lookup_lt_is_Some. lia.
Qed.

Lemma index_bound {A} (s : list A) i v :
  index s i = Some v -> 0 <= i < len s.
Proof.
  rewrite index_Some. intros [H0 H]. apply lookup_lt_Some in H.
  unfold len. lia.
Qed.

Lemma index_None {A} (s : list A) i :
  index s i = None <-> i < 0 \/ len s <= i.
Proof.
  unfold index, len. destruct (Z.ltb_spec i 0).
  - split; auto.
  - rewrite lookup_ge_None. lia.
Qed.

Lemma store_Some {A} (s : list A) i v s' :
  store s i v = Some s' ->
  0 <= i < len s /\ s' = <[Z.to_nat i := v]> s.
Proof.
  unfold store. destruct (index s i) eqn:E; [|discriminate].
  intros [= <-]. split; [eapply index_bound; eauto | reflexivity].
Qed.

Lemma store_is_Some {A} (s : list A) i v :
  0 <= i < len s -> store s i v = Some (<[Z.to_nat i := v]> s).
Proof.
  intros H. unfold store. destruct (index_is_Some s i H) as [x ->]. reflexivity.
Qed.

Lemma len_nonneg {A} (s : list A) : 0 <= len s.
Proof. unfold len. lia. Qed.

Lemma len_insert {A} (s : list A) i v : len (<[i := v]> s) = len s.
Proof. unfold len. now rewrite length_insert. Qed.

Lemma len_replicate {A} n (x : A) : len (replicate n x) = Z.of_nat n.
Proof. unfold len. now rewrite length_replicate. Qed.

Lemma make_Some n d : make n = Some d -> 0 <= n /\ d = replicate (Z.to_nat n) 0.
Proof.
  unfold make. destruct (Z.ltb_spec n 0); [discriminate|].
  intros [= <-]. auto.
Qed.

(** ** The sum of a grid *)

Lemma total_replicate n : total (replicate n 0) = 0.
Proof. induction n; simpl; auto. Qed.

Lemma total_insert (d : list Z) i c v :
  d !! i = Some c -> total (<[i := v]> d) = total d - c + v.
Proof.
  revert i. induction d as [|x d IH]; intros [|i]; simpl; try discriminate.
  - intros [= ->]. lia.
  - intros H. rewrite (IH _ H). lia.
Qed.

Lemma total_lookup_le (d : list Z) i c :
  Forall (fun x => 0 <= x) d -> d !! i = Some c -> 0 <= c <= total d.
Proof.
  intros HF. revert i. induction HF as [|x d Hx HF IH]; intros [|i]; simpl;
    try discriminate.
  - intros [= ->]. clear IH.
    assert (0 <= total d) by (induction HF; simpl; lia). lia.
  - intros H. specialize (IH _ H). lia.
Qed.

Lemma Forall_nonneg_insert (d : list Z) i v :
  Forall (fun x => 0 <= x) d -> 0 <= v ->
  Forall (fun x => 0 <= x) (<[i := v]> d).
Proof. intros. apply Forall_insert; auto. Qed.

(** ** computeBuckets *)

Lemma to_int_is_int f : is_int (to_int f).
Proof.
  unfold to_int. destruct (SFtrunc f) as [z|]; [|apply wrap_is_int].
  destruct (andb _ _) eqn:E; [|apply wrap_is_int].
  apply andb_true_iff in E as [E1 E2]. unfold is_int. lia.
Qed.

Lemma numYBuckets_of_is_int maxY ybs : is_int (numYBuckets_of maxY ybs).
Proof. apply to_int_is_int. Qed.

Lemma bin_of_spec ybs numY y :
  0 <= y <= max_int -> 0 < ybs -> 1 <= numY -> is_int numY ->
  bin_of ybs numY y = Some (Z.min (y / ybs) (numY - 1)).
Proof.
  intros Hy Hybs HnY HnYi. unfold bin_of, int_div.
  destruct (Z.eqb_spec ybs 0); [lia|]. simpl.
  rewrite Z.quot_div_nonneg by lia.
  assert (0 <= y / ybs <= y).
  { split; [apply Z.div_pos; lia|]. apply Z.div_le_upper_bound; nia. }
  rewrite wrap_small by (unfold is_int, min_int, max_int in *; lia).
  f_equal. destruct (Z.leb_spec numY (y / ybs)).
  - unfold int_sub. rewrite wrap_small by (unfold is_int, min_int in *; lia). lia.
  - lia.
Qed.

Lemma len_cons {A} (x : A) l : len (x :: l) = 1 + len l.
Proof. unfold len. simpl length. lia. Qed.

Lemma bucket_row_total ybs numY xs :
  forall i d d',
    Forall (fun x => 0 <= x) d ->
    total d + len xs <= max_int ->
    bucket_row ybs numY i xs d = Some d' ->
    total d' = total d + len xs /\ Forall (fun x => 0 <= x) d'
    /\ len d' = len d.
Proof.
  induction xs as [|y xs IH]; intros i d d' Hd Hsum H; simpl in H.
  - injection H as <-. unfold len; simpl. split; [lia|auto].
  - rewrite len_cons in Hsum. pose proof (len_nonneg xs).
    destruct (bin_of ybs numY y) as [bin|]; simpl in H; [|discriminate].
    destruct (index d _) as [c|] eqn:Hc; simpl in H; [|discriminate].
    destruct (store d _ _) as [d1|] eqn:Hs; simpl in H; [|discriminate].
    apply store_Some in Hs as [_ ->].
    apply index_Some in Hc as [_ Hc].
    pose proof (total_lookup_le _ _ _ Hd Hc) as Hcb.
    assert (Hadd : int_add c 1 = c + 1).
    { unfold int_add. apply wrap_small. unfold is_int, min_int. lia. }
    rewrite Hadd in H.
    apply IH in H.
    + rewrite (total_insert _ _ _ _ Hc), len_insert in H.
      rewrite len_cons. destruct H as (? & ? & ?). repeat split; auto; lia.
    + apply Forall_nonneg_insert; auto; lia.
    + rewrite (total_insert _ _ _ _ Hc). lia.
Qed.

Lemma bucket_rows_total ybs numY rows :
  forall d d',
    Forall (fun x => 0 <= x) d ->
    total d + samples rows <= max_int ->
    bucket_rows ybs numY rows d = Some d' ->
    total d' = total d + samples rows /\ Forall (fun x => 0 <= x) d'
    /\ len d' = len d.
Proof.
  induction rows as [|r rows IH]; intros d d' Hd Hsum H; simpl in H.
  - injection H as <-. unfold samples, len; simpl. split; [lia|auto].
  - assert (Hs : samples (r :: rows) = len r + samples rows).
    { unfold samples, len. simpl. rewrite length_app. lia. }
    rewrite Hs in *.
    assert (0 <= samples rows) by apply len_nonneg.
    destruct (bucket_row ybs numY 0 r d) as [d1|] eqn:Hr; simpl in H;
      [|discriminate].
    apply bucket_row_total in Hr as (Ht & Hf & Hl); auto; [|lia].
    apply IH in H as (Ht' & Hf' & Hl'); auto; [|lia].
    repeat split; auto; lia.
Qed.

Lemma bucket_row_succeeds ybs numY numX xs :
  0 < ybs -> 1 <= numY -> is_int numY -> numX * numY <= max_int ->
  forall i d,
    Forall (fun y => 0 <= y <= max_int) xs ->
    0 <= i -> i + len xs <= numX -> len d = numX * numY ->
    Forall (fun x => 0 <= x) d -> total d + len xs <= max_int ->
    is_Some (bucket_row ybs numY i xs d).
Proof.
  intros Hybs HnY HnYi Hfit.
  induction xs as [|y xs IH]; intros i d Hxs Hi Hlen Hd Hnn Hsum; simpl.
  - eauto.
  - rewrite len_cons in *. pose proof (len_nonneg xs).
    apply Forall_cons in Hxs as [Hy Hxs].
    rewrite bin_of_spec by auto. simpl.
    set (bin := Z.min (y / ybs) (numY - 1)).
    assert (0 <= bin <= numY - 1).
    { unfold bin. assert (0 <= y / ybs) by (apply Z.div_pos; lia). lia. }
    assert (Hidx : int_add (int_mul i numY) bin = i * numY + bin).
    { unfold int_add, int_mul.
      rewrite (wrap_small (i * numY))
        by (unfold is_int, min_int, max_int in *; nia).
      apply wrap_small. unfold is_int, min_int, max_int in *. nia. }
    rewrite Hidx.
    assert (Hin : 0 <= i * numY + bin < len d) by nia.
    destruct (index_is_Some d _ Hin) as [c Hc]. rewrite Hc. simpl.
    rewrite (store_is_Some d _ _ Hin). simpl.
    apply index_Some in Hc as [_ Hc].
    pose proof (total_lookup_le _ _ _ Hnn Hc) as Hcb.
    assert (Hadd : int_add c 1 = c + 1).
    { unfold int_add. apply wrap_small. unfold is_int, min_int. lia. }
    rewrite Hadd.
    apply IH; auto; try lia.
    + rewrite len_insert. auto.
    + apply Forall_nonneg_insert; auto; lia.
    + rewrite (total_insert _ _ _ _ Hc). lia.
Qed.

Lemma bucket_rows_succeeds ybs numY numX rows :
  0 < ybs -> 1 <= numY -> is_int numY -> numX * numY <= max_int ->
  forall d,
    Forall (fun row => len row <= numX
                       /\ Forall (fun y => 0 <= y <= max_int) row) rows ->
    len d = numX * numY ->
    Forall (fun x => 0 <= x) d -> total d + samples rows <= max_int ->
    is_Some (bucket_rows ybs numY rows d).
Proof.
  intros Hybs HnY HnYi Hfit.
  induction rows as [|r rows IH]; intros d Hrows Hlen Hnn Hsum; simpl.
  - eauto.
  - apply Forall_cons in Hrows as [[Hr1 Hr2] Hrows].
    assert (Hs : samples (r :: rows) = len r + samples rows).
    { unfold samples, len. simpl. rewrite length_app. lia. }
    rewrite Hs in *.
    assert (0 <= samples rows) by apply len_nonneg.
    destruct (bucket_row_succeeds ybs numY numX r Hybs HnY HnYi Hfit 0 d)
      as [d1 Hd1]; auto; try lia.
    rewrite Hd1. simpl.
    apply bucket_row_total in Hd1 as (Ht & Hf & Hl); auto; [|lia].
    apply IH; auto; lia.
Qed.

Lemma Forall_nonneg_replicate n : Forall (fun x => 0 <= x) (replicate n 0).
Proof. apply Forall_replicate. lia. Qed.

Lemma computeBuckets_succeeds (hm : Heatmap) :
  samples (origData hm) <= max_int -> regular_input hm ->
  is_Some (computeBuckets hm).
Proof.
  intros Hs (Hybs & Hybsi & HnY & HnX & Hfit & Hrows).
  unfold computeBuckets.
  set (numY := numYBuckets_of (MaxY hm) (YBucketSize hm)) in *.
  assert (Hmul : int_mul (numXBuckets hm) numY = numXBuckets hm * numY).
  { unfold int_mul. apply wrap_small. unfold is_int, min_int. nia. }
  rewrite Hmul. unfold make.
  destruct (Z.ltb_spec (numXBuckets hm * numY) 0); [nia|]. simpl.
  destruct (bucket_rows_succeeds (YBucketSize hm) numY (numXBuckets hm)
              (origData hm) Hybs HnY (numYBuckets_of_is_int _ _) Hfit
              (replicate (Z.to_nat (numXBuckets hm * numY)) 0))
    as [d Hd]; auto.
  - rewrite len_replicate. lia.
  - apply Forall_nonneg_replicate.
  - rewrite total_replicate. lia.
  - rewrite Hd. simpl. eauto.
Qed.

(** C6.  Whenever computeBuckets completes, the counts of the grid add up
    to the number of samples of the raw series (each sample has added one
    to one cell); and it completes on every well-formed input. *)
Theorem computeBuckets_counts_every_sample (hm : Heatmap) :
  samples (origData hm) <= max_int ->
  (forall hm', computeBuckets hm = Some hm' ->
               total (data hm') = samples (origData hm))
  /\ (regular_input hm ->
      exists hm', computeBuckets hm = Some hm'
                  /\ total (data hm') = samples (origData hm)).
Proof.
  intros Hs.
  assert (Hpart : forall hm', computeBuckets hm = Some hm' ->
                              total (data hm') = samples (origData hm)).
  { intros hm' H. unfold computeBuckets in H.
    destruct (make _) as [d0|] eqn:Hm; simpl in H; [|discriminate].
    destruct (bucket_rows _ _ _ d0) as [d|] eqn:Hr; simpl in H; [|discriminate].
    injection H as <-. simpl.
    apply make_Some in Hm as [_ ->].
    apply bucket_rows_total in Hr as (Ht & _ & _).
    - rewrite Ht, total_replicate. lia.
    - apply Forall_nonneg_replicate.
    - rewrite total_replicate. lia. }
  split; [exact Hpart|].
  intros Hreg.
  destruct (computeBuckets_succeeds hm Hs Hreg) as [hm' H].
  exists hm'. split; auto.
Qed.

(** ** sort.Search *)

(** The loop keeps [f] false just below [i] and true at [j]. *)
Lemma search_loop_inv (f : Z -> bool) (lo hi : Z) :
  forall fuel i j,
    lo <= i <= j -> j <= hi -> j - i <= Z.of_nat fuel ->
    (i = lo \/ f (i - 1) = false) -> (j = hi \/ f j = true) ->
    let r := search_loop fuel f i j in
    lo <= r <= hi /\ (r = lo \/ f (r - 1) = false) /\ (r = hi \/ f r = true).
Proof.
  induction fuel as [|k IH]; intros i j Hij Hj Hfuel Hi Hjt; simpl.
  - assert (i = j) by lia. subst. repeat split; auto; lia.
  - destruct (Z.ltb_spec i j) as [Hlt|Hge].
    + assert (Hh : i <= (i + j) / 2 < j).
      { split; [apply Z.div_le_lower_bound; lia
               | apply Z.div_lt_upper_bound; lia]. }
      destruct (f ((i + j) / 2)) eqn:Hf.
      * apply IH; auto; lia.
      * apply IH; auto; try lia.
        right. replace ((i + j) / 2 + 1 - 1) with ((i + j) / 2) by lia. auto.
    + assert (i = j) by lia. subst. repeat split; auto; lia.
Qed.

Lemma Search_spec (n : Z) (f : Z -> bool) :
  0 <= n ->
  let r := Search n f in
  0 <= r <= n /\ (r = 0 \/ f (r - 1) = false) /\ (r = n \/ f r = true).
Proof.
  intros Hn. unfold Search.
  apply (search_loop_inv f 0 n); auto; lia.
Qed.

(** On a predicate that stays true once it is true, the result is at most
    any index where the predicate is true. *)
Lemma Search_le (n : Z) (f : Z -> bool) k :
  0 <= n ->
  (forall a b, 0 <= a <= b -> b < n -> f a = true -> f b = true) ->
  0 <= k < n -> f k = true -> Search n f <= k.
Proof.
  intros Hn Hmono Hk Hfk.
  destruct (Search_spec n f Hn) as (Hr & Hlow & _).
  destruct Hlow as [->|Hlow]; [lia|].
  destruct (Z.le_gt_cases (Search n f) k) as [|Hgt]; auto.
  rewrite (Hmono k (Search n f - 1)) in Hlow; try discriminate; auto; lia.
Qed.

(** ** The deduplication loop *)

Lemma uniq_elem prev l x : x ∈ l -> x = prev \/ x ∈ uniq prev l.
Proof.
  revert prev. induction l as [|v l IH]; intros prev Hx; simpl.
  - inversion Hx.
  - apply elem_of_cons in Hx as [->|Hx].
    + destruct (Z.eqb_spec v prev); [auto|]. right. apply elem_of_cons. auto.
    + destruct (Z.eqb_spec v prev) as [->|].
      * apply IH; auto.
      * destruct (IH v Hx) as [->|]; right; apply elem_of_cons; auto.
Qed.

Lemma uniq_sublist prev l : uniq prev l `sublist_of` l.
Proof.
  revert prev. induction l as [|v l IH]; intros prev; simpl.
  - constructor.
  - destruct (v =? prev).
    + apply sublist_cons, IH.
    + apply sublist_skip, IH.
Qed.

Lemma dedup_loop_spec (n : nat) :
  forall i buf ulen prev,
    (ulen <= i)%nat -> (i + n = length buf)%nat ->
    let '(buf', ulen') := dedup_loop n i buf ulen prev in
    take ulen' buf' = take ulen buf ++ uniq prev (drop i buf)
    /\ length buf' = length buf
    /\ (ulen' <= length buf)%nat
    /\ last buf' = last buf.
Proof.
  induction n as [|n IH]; intros i buf ulen prev Hu Hn; simpl.
  - rewrite drop_ge by lia. rewrite app_nil_r. repeat split; auto; lia.
  - destruct (buf !! i) as [v|] eqn:Hv.
    2: { apply lookup_ge_None in Hv. lia. }
    rewrite (drop_S _ _ _ Hv). simpl.
    destruct (Z.eqb_spec v prev) as [->|Hne].
    + specialize (IH (S i) buf ulen prev). 
      destruct (dedup_loop n (S i) buf ulen prev) as [buf' ulen'].
      apply IH; lia.
    + specialize (IH (S i) (<[ulen := v]> buf) (S ulen) v).
      destruct (dedup_loop n (S i) (<[ulen := v]> buf) (S ulen) v)
        as [buf' ulen'].
      rewrite length_insert in IH.
      destruct IH as (Ht & Hl & Hle & Hlast); try lia.
      assert (Hul : (ulen < length buf)%nat) by lia.
      repeat split; auto.
      * rewrite Ht. rewrite drop_insert_lt by lia.
        rewrite (take_S_r _ _ v) by (apply list_lookup_insert_eq; lia).
        rewrite take_insert_ge by lia. rewrite <- app_assoc. reflexivity.
      * rewrite Hlast. rewrite !last_lookup, length_insert.
        destruct (decide (ulen = pred (length buf))) as [->|Hd].
        -- assert (i = pred (length buf)) by lia. subst i.
           rewrite list_lookup_insert_eq by lia. auto.
        -- rewrite list_lookup_insert_ne by auto. auto.
Qed.

Lemma deduplicate_spec (sorted : list Z) :
  let '(buf, unique) := deduplicate sorted in
  unique = uniq (-1) sorted /\ length buf = length sorted
  /\ last buf = last sorted.
Proof.
  unfold deduplicate.
  pose proof (dedup_loop_spec (length sorted) 0 sorted 0 (-1)) as H.
  destruct (dedup_loop _ _ _ _ _) as [buf ulen].
  destruct H as (Ht & Hl & _ & Hlast); [lia | lia |].
  rewrite Ht. simpl. auto.
Qed.

Lemma uniq_Forall (P : Z -> Prop) prev l : Forall P l -> Forall P (uniq prev l).
Proof.
  intros H. revert prev. induction H as [|v l Hv H IH]; intros prev; simpl.
  - constructor.
  - destruct (v =? prev); auto.
Qed.

Lemma uniq_sorted l :
  StronglySorted Z.le l -> forall prev, StronglySorted Z.le (uniq prev l).
Proof.
  induction 1 as [|v l Hs IH Hv]; intros prev; simpl.
  - constructor.
  - destruct (v =? prev); auto.
    constructor; auto. apply uniq_Forall. auto.
Qed.

(** ** sort.Ints and sort.SearchInts *)

Lemma sort_Ints_sorted d : StronglySorted Z.le (sort_Ints d).
Proof. apply StronglySorted_merge_sort; apply _. Qed.

Lemma sort_Ints_perm d : sort_Ints d ≡ₚ d.
Proof. apply merge_sort_Permutation. Qed.

Lemma sorted_lookup_le (l : list Z) :
  StronglySorted Z.le l ->
  forall i j x y, (i <= j)%nat -> l !! i = Some x -> l !! j = Some y -> x <= y.
Proof.
  induction 1 as [|v l Hs IH Hv]; intros i j x y Hij Hi Hj.
  - inversion Hi.
  - destruct i as [|i], j as [|j]; simpl in *; try lia.
    + injection Hi as <-. injection Hj as <-. lia.
    + injection Hi as <-. rewrite Forall_forall in Hv. apply Hv.
      apply list_elem_of_lookup. eauto.
    + apply (IH i j x y); auto. lia.
Qed.

(** On an ascending slice [SearchInts(a, x)] is the number of elements
    below [x]. *)
Lemma SearchInts_spec (a : list Z) (x : Z) :
  StronglySorted Z.le a ->
  0 <= SearchInts a x <= len a
  /\ forall i y, a !! i = Some y -> (Z.of_nat i < SearchInts a x <-> y < x).
Proof.
  intros Hs. unfold SearchInts.
  set (f := fun i => match index a i with Some y => x <=? y | None => false end).
  destruct (Search_spec (len a) f (len_nonneg a)) as (Hr & Hlow & Hhigh).
  remember (Search (len a) f) as r eqn:Er. clear Er.
  split; [exact Hr|].
  intros i y Hi.
  assert (Hil : Z.of_nat i < len a)
    by (apply lookup_lt_Some in Hi; unfold len; lia).
  split.
  - intros Hlt. destruct Hlow as [H0|Hlow]; [lia|].
    unfold f in Hlow.
    destruct (index a (r - 1)) as [z|] eqn:Hz.
    + apply index_Some in Hz as [? Hz].
      assert (y <= z).
      { apply (sorted_lookup_le a Hs i (Z.to_nat (r - 1))); auto. lia. }
      apply Z.leb_gt in Hlow. lia.
    + apply index_None in Hz. lia.
  - intros Hyx. destruct Hhigh as [->|Hhigh]; [lia|].
    unfold f in Hhigh.
    destruct (index a r) as [z|] eqn:Hz; [|discriminate].
    apply index_Some in Hz as [? Hz]. apply Z.leb_le in Hhigh.
    destruct (Z.lt_ge_cases (Z.of_nat i) r) as [|Hge]; auto.
    assert (z <= y).
    { apply (sorted_lookup_le a Hs (Z.to_nat r) i); auto. lia. }
    lia.
Qed.

Lemma SearchInts_mono (a : list Z) (x1 x2 : Z) :
  StronglySorted Z.le a -> x1 <= x2 -> SearchInts a x1 <= SearchInts a x2.
Proof.
  intros Hs Hx.
  destruct (SearchInts_spec a x1 Hs) as (Hr1 & H1).
  destruct (SearchInts_spec a x2 Hs) as (Hr2 & H2).
  destruct (Z.le_gt_cases (SearchInts a x1) (SearchInts a x2)) as [|Hgt]; auto.
  assert (Hlt : (Z.to_nat (SearchInts a x2) < length a)%nat)
    by (unfold len in *; lia).
  apply lookup_lt_is_Some in Hlt as [y Hy].
  pose proof (proj1 (H1 _ _ Hy)) as Ha. pose proof (proj2 (H2 _ _ Hy)) as Hb.
  rewrite Z2Nat.id in Ha, Hb by lia. lia.
Qed.

Lemma SearchInts_found (a : list Z) (x y : Z) :
  StronglySorted Z.le a -> y ∈ a -> x <= y -> SearchInts a x < len a.
Proof.
  intros Hs Hy Hxy. apply list_elem_of_lookup in Hy as [i Hi].
  destruct (SearchInts_spec a x Hs) as (Hr & H).
  pose proof (lookup_lt_Some _ _ _ Hi). specialize (H _ _ Hi).
  unfold len in *. lia.
Qed.

(** ** computeSaturations *)

Lemma saturation_loop_lookup unique sorted d :
  forall ls rs,
    saturation_loop unique sorted d = Some (ls, rs) ->
    length ls = length d /\ length rs = length d
    /\ forall i v, d !! i = Some v ->
         exists r l, ranked_saturation unique v = Some r
                     /\ linear_saturation sorted v = Some l
                     /\ rs !! i = Some r /\ ls !! i = Some l.
Proof.
  induction d as [|x d IH]; intros ls rs H; simpl in H.
  - injection H as <- <-. repeat split; auto. intros i v Hi. inversion Hi.
  - destruct (ranked_saturation unique x) as [r|] eqn:Hr; simpl in H;
      [|discriminate].
    destruct (linear_saturation sorted x) as [l|] eqn:Hl; simpl in H;
      [|discriminate].
    destruct (saturation_loop unique sorted d) as [[ls' rs']|] eqn:Hrec;
      simpl in H; [|discriminate].
    injection H as <- <-.
    destruct (IH _ _ eq_refl) as (H1 & H2 & H3).
    simpl. repeat split; try lia.
    intros [|i] v Hi; simpl in Hi.
    + injection Hi as <-. exists r, l. auto.
    + apply H3. auto.
Qed.

Lemma saturation_loop_succeeds unique sorted d :
  (forall v, v ∈ d -> is_Some (ranked_saturation unique v)
                     /\ is_Some (linear_saturation sorted v)) ->
  is_Some (saturation_loop unique sorted d).
Proof.
  induction d as [|x d IH]; intros H; simpl.
  - eauto.
  - destruct (H x) as [[r ->] [l ->]]; [apply elem_of_cons; auto|]. simpl.
    destruct IH as [[ls rs] ->].
    + intros v Hv. apply H. apply elem_of_cons. auto.
    + simpl. eauto.
Qed.

Lemma unique_contains (d : list Z) v :
  v ∈ d -> v <> -1 -> v ∈ uniq (-1) (sort_Ints d).
Proof.
  intros Hv Hne.
  assert (Hs : v ∈ sort_Ints d) by (rewrite sort_Ints_perm; auto).
  destruct (uniq_elem (-1) _ _ Hs); [contradiction | auto].
Qed.

Lemma unique_sorted (d : list Z) : StronglySorted Z.le (uniq (-1) (sort_Ints d)).
Proof. apply uniq_sorted, sort_Ints_sorted. Qed.

Lemma computeSaturations_nonempty (hm : Heatmap) :
  len (data hm) <> 0 ->
  exists sorted,
    length sorted = length (data hm)
    /\ last sorted = last (sort_Ints (data hm))
    /\ computeSaturations hm =
         '(ls, rs) ← saturation_loop (uniq (-1) (sort_Ints (data hm)))
                       sorted (data hm);
         Some (with_saturations hm ls rs).
Proof.
  intros Hne. unfold computeSaturations.
  destruct (Z.eqb_spec (len (data hm)) 0); [contradiction|].
  pose proof (deduplicate_spec (sort_Ints (data hm))) as H.
  destruct (deduplicate (sort_Ints (data hm))) as [sorted unique].
  destruct H as (-> & Hl & Hlast).
  exists sorted. repeat split; auto.
  rewrite Hl. apply Permutation_length, sort_Ints_perm.
Qed.

Lemma linear_saturation_top (sorted : list Z) :
  0 < len sorted <= max_int ->
  exists top, last sorted = Some top
              /\ index sorted (int_sub (len sorted) 1) = Some top.
Proof.
  intros Hl. unfold int_sub.
  rewrite wrap_small by (unfold is_int, min_int; lia).
  destruct (index_is_Some sorted (len sorted - 1)) as [top Ht]; [lia|].
  exists top. split; auto.
  apply index_Some in Ht as [_ Ht]. rewrite last_lookup. rewrite <- Ht.
  f_equal. unfold len. lia.
Qed.

Lemma deduplicate_unique (d : list Z) :
  snd (deduplicate (sort_Ints d)) = uniq (-1) (sort_Ints d).
Proof.
  pose proof (deduplicate_spec (sort_Ints d)) as H.
  destruct (deduplicate _) as [b u]. simpl. tauto.
Qed.

(** On a grid of counts every value is found in the deduplicated copy. *)
Lemma search_finds (d : list Z) v :
  Forall (fun v => 0 <= v) d -> v ∈ d ->
  SearchInts (uniq (-1) (sort_Ints d)) v < len (uniq (-1) (sort_Ints d)).
Proof.
  intros Hnn Hv. apply (SearchInts_found _ v v).
  - apply unique_sorted.
  - apply unique_contains; auto. rewrite Forall_forall in Hnn.
    specialize (Hnn v Hv). lia.
  - lia.
Qed.

Lemma computeSaturations_succeeds (hm : Heatmap) :
  0 < len (data hm) <= max_int ->
  Forall (fun v => 0 <= v) (data hm) ->
  is_Some (computeSaturations hm).
Proof.
  intros Hlen Hnn.
  destruct (computeSaturations_nonempty hm) as (sorted & Hl & _ & ->); [lia|].
  destruct (saturation_loop_succeeds (uniq (-1) (sort_Ints (data hm)))
              sorted (data hm)) as [[ls rs] ->]; [|simpl; eauto].
  intros v Hv. split.
  - unfold ranked_saturation.
    pose proof (search_finds _ v Hnn Hv) as Hsearch.
    destruct (Z.eqb_spec (SearchInts (uniq (-1) (sort_Ints (data hm))) v)
                (len (uniq (-1) (sort_Ints (data hm))))); [lia|eauto].
  - unfold linear_saturation.
    destruct (linear_saturation_top sorted) as (top & _ & ->).
    + unfold len in *. lia.
    + simpl. eauto.
Qed.

(** C9.  On an empty grid computeSaturations returns the state as it is, so
    both tables are untouched.  On a non-empty grid of counts the search of
    every cell's value in the deduplicated sorted copy ends below its
    length, and computeSaturations completes: the panic is not reached. *)
Theorem computeSaturations_search_succeeds (hm : Heatmap) :
  (len (data hm) = 0 -> computeSaturations hm = Some hm)
  /\ (0 < len (data hm) <= max_int ->
      Forall (fun v => 0 <= v) (data hm) ->
      let unique := snd (deduplicate (sort_Ints (data hm))) in
      (forall v, v ∈ data hm -> SearchInts unique v < len unique)
      /\ is_Some (computeSaturations hm)).
Proof.
  split.
  - intros H. unfold computeSaturations. rewrite H. reflexivity.
  - intros Hlen Hnn unique. split.
    + intros v Hv. unfold unique. rewrite deduplicate_unique.
      apply search_finds; auto.
    + apply computeSaturations_succeeds; auto.
Qed.

(** ** Layout: what each step leaves alone *)

Lemma handle_moves_fields hm dims evs :
  let hm' := handle_moves hm dims evs in
  UseLinearColors hm' = UseLinearColors hm
  /\ XBucketSize hm' = XBucketSize hm /\ YBucketSize hm' = YBucketSize hm
  /\ cacheKey hm' = cacheKey hm /\ cachedOps hm' = cachedOps hm
  /\ cachedMacro hm' = cachedMacro hm /\ data hm' = data hm
  /\ linearSaturations hm' = linearSaturations hm
  /\ rankedSaturations hm' = rankedSaturations hm
  /\ numYBuckets hm' = numYBuckets hm /\ origData hm' = origData hm
  /\ MaxY hm' = MaxY hm.
Proof.
  unfold handle_moves. revert hm.
  induction evs as [|p evs IH]; intros hm; simpl.
  - repeat split.
  - specialize (IH (with_pointer hm p dims)). simpl in IH. exact IH.
Qed.

Lemma handle_moves_pointer hm dims evs :
  let hm' := handle_moves hm dims evs in
  (evs = [] /\ pointer hm' = pointer hm
   /\ pointerConstraint hm' = pointerConstraint hm)
  \/ (last evs = Some (pointer hm') /\ pointerConstraint hm' = dims).
Proof.
  unfold handle_moves. revert hm.
  induction evs as [|p evs IH]; intros hm; simpl.
  - left. auto.
  - right. destruct (IH (with_pointer hm p dims)) as [(-> & H1 & H2)|[H1 H2]].
    + simpl. auto.
    + split; auto. destruct evs; [discriminate|]. exact H1.
Qed.

Lemma key_of_handle_moves hm dims evs :
  key_of (handle_moves hm dims evs) dims = key_of hm dims.
Proof.
  destruct (handle_moves_fields hm dims evs) as (H1 & H2 & H3 & _).
  unfold key_of. now rewrite H1, H2, H3.
Qed.

Lemma computeBuckets_fields hm hm' :
  computeBuckets hm = Some hm' ->
  UseLinearColors hm' = UseLinearColors hm
  /\ XBucketSize hm' = XBucketSize hm /\ YBucketSize hm' = YBucketSize hm
  /\ cacheKey hm' = cacheKey hm /\ cachedOps hm' = cachedOps hm
  /\ cachedMacro hm' = cachedMacro hm /\ pointer hm' = pointer hm
  /\ pointerConstraint hm' = pointerConstraint hm
  /\ linearSaturations hm' = linearSaturations hm
  /\ rankedSaturations hm' = rankedSaturations hm.
Proof.
  unfold computeBuckets. intros H.
  destruct (make _) as [d0|]; simpl in H; [|discriminate].
  destruct (bucket_rows _ _ _ _) as [d|]; simpl in H; [|discriminate].
  injection H as <-. simpl. repeat split.
Qed.

Lemma computeSaturations_fields hm hm' :
  computeSaturations hm = Some hm' ->
  UseLinearColors hm' = UseLinearColors hm
  /\ XBucketSize hm' = XBucketSize hm /\ YBucketSize hm' = YBucketSize hm
  /\ cacheKey hm' = cacheKey hm /\ cachedOps hm' = cachedOps hm
  /\ cachedMacro hm' = cachedMacro hm /\ pointer hm' = pointer hm
  /\ pointerConstraint hm' = pointerConstraint hm
  /\ data hm' = data hm /\ numYBuckets hm' = numYBuckets hm.
Proof.
  unfold computeSaturations. intros H.
  destruct (len (data hm) =? 0).
  - injection H as <-. repeat split.
  - destruct (deduplicate _) as [sorted unique].
    destruct (saturation_loop _ _ _) as [[ls rs]|]; simpl in H; [|discriminate].
    injection H as <-. simpl. repeat split.
Qed.

Lemma refresh_fields hm key hm' :
  refresh hm key = Some hm' ->
  UseLinearColors hm' = UseLinearColors hm
  /\ XBucketSize hm' = XBucketSize hm /\ YBucketSize hm' = YBucketSize hm
  /\ cacheKey hm' = cacheKey hm /\ cachedOps hm' = cachedOps hm
  /\ cachedMacro hm' = cachedMacro hm /\ pointer hm' = pointer hm
  /\ pointerConstraint hm' = pointerConstraint hm.
Proof.
  unfold refresh. intros H.
  destruct (orb _ _).
  - destruct (origData hm !! 0%nat) as [row0|]; simpl in H; [|discriminate].
    destruct (computeBuckets _) as [hm1|] eqn:Hb; simpl in H; [|discriminate].
    apply computeBuckets_fields in Hb. apply computeSaturations_fields in H.
    simpl in Hb. intuition congruence.
  - injection H as <-. repeat split.
Qed.

(** Without a change of bucket size there is no re-aggregation. *)
Lemma refresh_same_sizes hm key :
  xBucketSize key = xBucketSize (cacheKey hm) ->
  yBucketSize key = yBucketSize (cacheKey hm) ->
  refresh hm key = Some hm.
Proof.
  intros Hx Hy. unfold refresh. rewrite Hx, Hy, !Z.eqb_refl. reflexivity.
Qed.

Lemma geometry_inv hm key dims numX xs ys hm' rb :
  geometry hm key dims numX xs ys = Some (hm', rb) ->
  (cacheKey hm = key /\ hm' = hm /\ rb = false)
  \/ (cacheKey hm <> key /\ rb = true
      /\ exists ops, rebuild hm dims numX xs ys = Some ops
                     /\ hm' = with_cache hm key ops).
Proof.
  unfold geometry. intros H. case_bool_decide as Hk.
  - injection H as <- <-. left. auto.
  - destruct (rebuild _ _ _ _ _) as [ops|]; simpl in H; [|discriminate].
    injection H as <- <-. right. eauto.
Qed.

(** The steps of a Layout that returns. *)
Lemma layout_cache_inv hm gtx hm2 xs ys rb :
  layout_cache hm gtx = Some (hm2, xs, ys, rb) ->
  let dims := ConstraintsMax gtx in
  let hm0 := handle_moves hm dims (moves gtx) in
  let key := key_of hm dims in
  exists hm1 numX,
    refresh hm0 key = Some hm1
    /\ int_div (len (data hm1)) (numYBuckets hm1) = Some numX
    /\ xs = F32.div (F32.of_int (pX dims)) (F32.of_int numX)
    /\ ys = F32.div (F32.of_int (pY dims)) (F32.of_int (numYBuckets hm1))
    /\ geometry hm1 key dims numX xs ys = Some (hm2, rb).
Proof.
  intros H. cbv zeta. unfold layout_cache in H. cbv zeta in H.
  rewrite (key_of_handle_moves hm (ConstraintsMax gtx) (moves gtx)) in H.
  destruct (refresh _ _) as [hm1|]; simpl in H; [|discriminate].
  destruct (int_div _ _) as [numX|] eqn:Hd; simpl in H; [|discriminate].
  destruct (geometry _ _ _ _ _ _) as [[h r]|] eqn:Hg; simpl in H;
    [|discriminate].
  injection H as <- <- <- <-.
  exists hm1, numX. repeat split; auto.
Qed.

Lemma Layout_inv hm gtx hm' ops rb :
  Layout hm gtx = Some (hm', ops, rb) ->
  exists hm2 xs ys outline b,
    layout_cache hm gtx = Some (hm2, xs, ys, rb)
    /\ hover hm2 (ConstraintsMax gtx) (Dp1 gtx) xs ys = Some (outline, b)
    /\ hm' = with_hovered hm2 b
    /\ ops = CallMacro (cachedMacro hm2) :: outline.
Proof.
  unfold Layout. intros H.
  destruct (layout_cache hm gtx) as [[[[hm2 xs] ys] r]|]; simpl in H;
    [|discriminate].
  destruct (hover _ _ _ _ _) as [[outline b]|] eqn:Hh; simpl in H;
    [|discriminate].
  injection H as <- <- <-.
  exists hm2, xs, ys, outline, b. auto.
Qed.

(** After a Layout the stored key is the key of that call, and the bucket
    sizes and the colour mode are those of the call. *)
Lemma Layout_stores_key hm gtx hm' ops rb :
  Layout hm gtx = Some (hm', ops, rb) ->
  cacheKey hm' = key_of hm (ConstraintsMax gtx)
  /\ UseLinearColors hm' = UseLinearColors hm
  /\ XBucketSize hm' = XBucketSize hm /\ YBucketSize hm' = YBucketSize hm.
Proof.
  intros H. apply Layout_inv in H as (hm2 & xs & ys & outline & b & Hc & _ & -> & _).
  apply layout_cache_inv in Hc as (hm1 & numX & Hr & _ & _ & _ & Hg).
  apply refresh_fields in Hr as (R1 & R2 & R3 & R4 & _).
  destruct (handle_moves_fields hm (ConstraintsMax gtx) (moves gtx))
    as (M1 & M2 & M3 & M4 & _).
  apply geometry_inv in Hg as [(Hk & -> & _)|(_ & _ & ops' & _ & ->)]; simpl.
  - rewrite Hk. intuition congruence.
  - intuition congruence.
Qed.

(** ** Layout: the cache *)

(** C10.  Between two Layouts only the colour mode is set: the second
    Layout leaves the grid, the number of Y buckets and both saturation
    tables as the first left them, and when the mode has changed it
    rebuilds the cached operations. *)
Theorem color_toggle_keeps_grid hm0 gtx1 hm1 ops1 rb1 b gtx2 hm2 ops2 rb2 :
  Layout hm0 gtx1 = Some (hm1, ops1, rb1) ->
  Layout (with_UseLinearColors hm1 b) gtx2 = Some (hm2, ops2, rb2) ->
  data hm2 = data hm1
  /\ numYBuckets hm2 = numYBuckets hm1
  /\ linearSaturations hm2 = linearSaturations hm1
  /\ rankedSaturations hm2 = rankedSaturations hm1
  /\ (b <> UseLinearColors hm1 -> rb2 = true).
Proof.
  intros H1 H2.
  apply Layout_stores_key in H1 as (K & KU & KX & KY).
  apply Layout_inv in H2 as (h2 & xs & ys & outline & bk & Hc & _ & -> & _).
  apply layout_cache_inv in Hc as (h1 & numX & Hr & _ & _ & _ & Hg).
  set (hmt := with_UseLinearColors hm1 b) in *.
  set (dims := ConstraintsMax gtx2) in *.
  destruct (handle_moves_fields hmt dims (moves gtx2))
    as (M1 & M2 & M3 & M4 & M5 & M6 & M7 & M8 & M9 & M10 & _).
  assert (Hsame : refresh (handle_moves hmt dims (moves gtx2)) (key_of hmt dims)
                  = Some (handle_moves hmt dims (moves gtx2))).
  { apply refresh_same_sizes; rewrite M4; unfold hmt; simpl; rewrite K;
      simpl; congruence. }
  rewrite Hsame in Hr. injection Hr as <-.
  apply geometry_inv in Hg as [(Hk & -> & ->)|(Hk & -> & ops' & Hb & ->)];
    simpl; rewrite ?M7, ?M8, ?M9, ?M10; unfold hmt; simpl;
    repeat split; auto.
  intros Hne. exfalso. rewrite M4 in Hk. unfold hmt in Hk. simpl in Hk.
  rewrite K in Hk. unfold key_of in Hk. simpl in Hk.
  injection Hk as _ Hu. congruence.
Qed.

(** ** Layout: the hover *)

Lemma hover_valid_true hm dims :
  hover_valid hm dims = true <->
  pointerConstraint hm = dims
  /\ fgt (fX (pointer hm)) F32.zero = true
  /\ fgt (fY (pointer hm)) F32.zero = true
  /\ fle (fX (pointer hm)) (F32.of_int (pX dims)) = true
  /\ fle (fY (pointer hm)) (F32.of_int (pY dims)) = true.
Proof.
  unfold hover_valid. rewrite !andb_true_iff, bool_decide_eq_true. tauto.
Qed.

(** ** Layout: the rebuild *)

Lemma cell_path_nonempty dims xs ys x y p : p ++ cell_path dims xs ys x y <> [].
Proof.
  unfold cell_path. destruct (cell_edges _ _ _ _ _) as [[[a b] c] d].
  destruct p; discriminate.
Qed.

Lemma add_cell_spec hm dims xs ys paths x y paths' :
  add_cell hm dims xs ys (active_saturations hm) paths x y = Some paths' ->
  length paths' = length paths
  /\ forall i p', paths' !! i = Some p' ->
       exists p, paths !! i = Some p
                 /\ (p' <> [] <->
                     p <> [] \/ cell_saturation hm (x, y) = Some (Z.of_nat i)).
Proof.
  unfold add_cell, cell_saturation. simpl.
  set (idx := int_add (int_mul x (numYBuckets hm)) y).
  destruct (index (data hm) idx) as [v|]; simpl; [|discriminate].
  destruct (Z.eqb_spec v 0).
  - intros [= <-]. split; auto. intros i p' Hi. exists p'. split; auto.
    split; auto. intros [|]; auto; discriminate.
  - destruct (index (active_saturations hm) idx) as [s|]; simpl;
      [|discriminate].
    destruct (index paths s) as [p0|] eqn:Hp0; simpl; [|discriminate].
    intros Hst. apply store_Some in Hst as [Hs ->].
    split; [apply length_insert|].
    apply index_Some in Hp0 as [Hs0 Hp0].
    intros i p' Hi.
    destruct (decide (i = Z.to_nat s)) as [->|Hne].
    + rewrite list_lookup_insert_eq in Hi by (unfold len in Hs; lia).
      injection Hi as <-. exists p0. split; auto.
      split; [|intros _; apply cell_path_nonempty].
      intros _. right. f_equal. lia.
    + rewrite list_lookup_insert_ne in Hi by auto.
      exists p'. split; auto. split; auto.
      intros [|Heq]; auto. injection Heq as ->. lia.
Qed.

Lemma add_cells_spec hm dims xs ys cells :
  forall paths paths',
    add_cells hm dims xs ys (active_saturations hm) cells paths = Some paths' ->
    length paths' = length paths
    /\ forall i p', paths' !! i = Some p' ->
         exists p, paths !! i = Some p
                   /\ (p' <> [] <->
                       p <> [] \/ exists c, c ∈ cells
                         /\ cell_saturation hm c = Some (Z.of_nat i)).
Proof.
  induction cells as [|[x y] cells IH]; intros paths paths' H; simpl in H.
  - injection H as <-. split; auto. intros i p' Hi. exists p'. split; auto.
    split; auto. intros [|(c & Hc & _)]; auto. inversion Hc.
  - destruct (add_cell _ _ _ _ _ _ _ _) as [paths1|] eqn:H1; simpl in H;
      [|discriminate].
    apply add_cell_spec in H1 as (L1 & S1).
    apply IH in H as (L2 & S2).
    split; [congruence|].
    intros i p' Hi.
    destruct (S2 _ _ Hi) as (p1 & Hp1 & E2).
    destruct (S1 _ _ Hp1) as (p & Hp & E1).
    exists p. split; auto. rewrite E2, E1. split.
    + intros [[|]|(c & Hc & Hs)]; auto.
      * right. exists (x, y). split; auto. apply elem_of_cons. auto.
      * right. exists c. split; auto. apply elem_of_cons. auto.
    + intros [|(c & Hc & Hs)]; auto.
      apply elem_of_cons in Hc as [->|Hc]; eauto.
Qed.

Lemma elem_of_cell_order numX numY x y :
  (x, y) ∈ cell_order numX numY <-> 0 <= x < numX /\ 0 <= y < numY.
Proof.
  unfold cell_order. rewrite list_elem_of_bind. split.
  - intros (x' & Hy & Hx). apply elem_of_seqZ in Hx.
    apply list_elem_of_bind in Hy as (y' & Hxy & Hy).
    apply elem_of_seqZ in Hy. apply list_elem_of_singleton in Hxy.
    injection Hxy as -> ->. lia.
  - intros [Hx Hy]. exists x. split; [|apply elem_of_seqZ; lia].
    apply list_elem_of_bind. exists y. split; [|apply elem_of_seqZ; lia].
    apply list_elem_of_singleton. reflexivity.
Qed.

Lemma add_cells_succeeds hm dims xs ys numX cells :
  drawable hm numX ->
  Forall (fun c => 0 <= fst c < numX /\ 0 <= snd c < numYBuckets hm) cells ->
  forall paths, length paths = 256%nat ->
    is_Some (add_cells hm dims xs ys (active_saturations hm) cells paths).
Proof.
  intros (HnX & HnY & Hfit & Hsat & Hu8) Hcells.
  induction Hcells as [|[x y] cells [Hx Hy] Hcells IH]; intros paths Hl; simpl.
  - eauto.
  - simpl in Hx, Hy. unfold add_cell.
    assert (Hidx : int_add (int_mul x (numYBuckets hm)) y
                   = x * numYBuckets hm + y).
    { unfold int_add, int_mul.
      rewrite (wrap_small (x * numYBuckets hm))
        by (unfold is_int, min_int, max_int in *; nia).
      apply wrap_small. unfold is_int, min_int, max_int in *. nia. }
    rewrite Hidx.
    assert (Hin : 0 <= x * numYBuckets hm + y < len (data hm)) by nia.
    destruct (index_is_Some (data hm) _ Hin) as [v ->]. simpl.
    destruct (v =? 0); [apply IH; auto|].
    destruct (index_is_Some (active_saturations hm) (x * numYBuckets hm + y))
      as [s Hs]; [lia|]. rewrite Hs. simpl.
    assert (Hsr : 0 <= s <= 255).
    { apply index_Some in Hs as [_ Hs]. rewrite Forall_forall in Hu8.
      apply Hu8. apply list_elem_of_lookup. eauto. }
    assert (Hsl : 0 <= s < len paths) by (unfold len; lia).
    destruct (index_is_Some paths s Hsl) as [p ->]. simpl.
    rewrite (store_is_Some paths s _ Hsl). simpl.
    apply IH. rewrite length_insert. auto.
Qed.

Lemma count_fills_imap (paths : list (list path_cmd)) :
  forall k, count_fills (imap (fun i p => fill_of (Z.of_nat (k + i)) p) paths)
            = length paths.
Proof.
  unfold count_fills.
  induction paths as [|p paths IH]; intros k; simpl; auto.
  f_equal. rewrite <- (IH (S k)). f_equal. f_equal.
  apply imap_ext. intros i x _. simpl. do 2 f_equal. lia.
Qed.

Lemma rebuild_succeeds hm dims numX xs ys :
  drawable hm numX -> is_Some (rebuild hm dims numX xs ys).
Proof.
  intros Hd. unfold rebuild. cbv zeta.
  destruct (add_cells_succeeds hm dims xs ys numX
              (cell_order numX (numYBuckets hm)) Hd) with
    (paths := replicate 256 ([] : list path_cmd)) as [paths ->].
  - apply Forall_forall. intros [x y] Hc. simpl.
    apply elem_of_cell_order in Hc. lia.
  - apply length_replicate.
  - simpl. eauto.
Qed.

(** C7, as the code has it.  A rebuild that returns has recorded exactly
    256 fill operations, one for each possible saturation 0..255 and in
    that order, whatever the grid; the fill of saturation [s] has a
    non-empty path exactly when a cell of nonzero count uses [s].  So the
    fills never exceed 256, and the rebuild returns on every state whose
    tables cover the grid. *)
Theorem rebuild_fills_every_saturation hm dims numX xs ys :
  (forall ops, rebuild hm dims numX xs ys = Some ops ->
     count_fills ops = 256%nat
     /\ forall s, 0 <= s <= 255 ->
          exists p, ops !! (3 + Z.to_nat s)%nat = Some (fill_of s p)
                    /\ (p <> [] <-> s ∈ used_saturations hm numX))
  /\ (drawable hm numX -> is_Some (rebuild hm dims numX xs ys)).
Proof.
  split.
  - intros ops H. unfold rebuild in H. cbv zeta in H.
    destruct (add_cells _ _ _ _ _ _ _) as [paths|] eqn:Ha; simpl in H;
      [|discriminate].
    injection H as <-.
    apply add_cells_spec in Ha as (Hl & Hs).
    rewrite length_replicate in Hl.
    split.
    + unfold count_fills. simpl. rewrite List.filter_app, length_app. simpl.
      pose proof (count_fills_imap paths 0) as Hc. unfold count_fills in Hc.
      simpl in Hc. rewrite Hc. lia.
    + intros s Hsr.
      assert (Hlt : (Z.to_nat s < length paths)%nat) by lia.
      apply lookup_lt_is_Some in Hlt as [p Hp].
      exists p. split.
      * simpl. rewrite lookup_app_l by (rewrite length_imap; lia).
        rewrite list_lookup_imap, Hp. simpl. do 2 f_equal. lia.
      * destruct (Hs _ _ Hp) as (p0 & Hp0 & E).
        rewrite Z2Nat.id in E by lia.
        apply lookup_replicate in Hp0 as [-> _].
        etransitivity; [exact E|]. unfold used_saturations.
        rewrite elem_of_remove_dups, list_elem_of_omap. split.
        -- intros [|(c & Hc & Hcs)]; [contradiction|]. eauto.
        -- intros (c & Hc & Hcs). right. eauto.
  - apply rebuild_succeeds.
Qed.

(** * Floating point *)

(** ** Binary digits *)
Lemma digits2_pos_bounds (p : positive) :
  2 ^ (Z.pos (digits2_pos p) - 1) <= Z.pos p < 2 ^ Z.pos (digits2_pos p).
Proof.
  induction p as [p IH|p IH|]; simpl digits2_pos.
  - rewrite Pos2Z.inj_succ.
    replace (Z.succ (Z.pos (digits2_pos p)) - 1) with (Z.succ (Z.pos (digits2_pos p) - 1)) by lia.
    rewrite !Z.pow_succ_r by lia. lia.
  - rewrite Pos2Z.inj_succ.
    replace (Z.succ (Z.pos (digits2_pos p)) - 1) with (Z.succ (Z.pos (digits2_pos p) - 1)) by lia.
    rewrite !Z.pow_succ_r by lia. lia.
  - simpl. lia.
Qed.

Lemma Zdigits2_bounds z : 0 < z -> 2 ^ (Zdigits2 z - 1) <= z < 2 ^ Zdigits2 z.
Proof.
  destruct z as [|p|p]; try lia. intros _. apply digits2_pos_bounds.
Qed.

Lemma Zdigits2_pos z : 0 < z -> 0 < Zdigits2 z.
Proof. destruct z; simpl; lia. Qed.

Lemma Zdigits2_unique z d :
  0 < z -> 2 ^ (d - 1) <= z < 2 ^ d -> Zdigits2 z = d.
Proof.
  intros Hz [Hl Hu]. pose proof (Zdigits2_bounds z Hz) as [Bl Bu].
  pose proof (Zdigits2_pos z Hz).
  assert (0 < d).
  { destruct (Z.lt_ge_cases 0 d); auto.
    assert (2 ^ d <= 2 ^ 0) by (destruct (Z.lt_ge_cases d 0);
      [rewrite Z.pow_neg_r by lia; simpl; lia | apply Z.pow_le_mono_r; lia]).
    simpl in *. lia. }
  destruct (Z.lt_trichotomy (Zdigits2 z) d) as [Hlt|[Heq|Hgt]]; auto.
  - assert (2 ^ Zdigits2 z <= 2 ^ (d - 1)) by (apply Z.pow_le_mono_r; lia). lia.
  - assert (2 ^ d <= 2 ^ (Zdigits2 z - 1)) by (apply Z.pow_le_mono_r; lia). lia.
Qed.

Lemma Zdigits2_mono a b : 0 < a <= b -> Zdigits2 a <= Zdigits2 b.
Proof.
  intros [Ha Hab].
  pose proof (Zdigits2_bounds a Ha) as [Al Au].
  pose proof (Zdigits2_bounds b ltac:(lia)) as [Bl Bu].
  destruct (Z.le_gt_cases (Zdigits2 a) (Zdigits2 b)) as [|Hgt]; auto.
  assert (2 ^ Zdigits2 b <= 2 ^ (Zdigits2 a - 1)).
  { apply Z.pow_le_mono_r; lia. }
  lia.
Qed.

(** ** Rounding a fraction to the nearest integer, ties to even *)
Lemma loc_of_unique N D q r :
  0 <= r < D -> N = q * D + r ->
  N / D = q /\ loc_of N D = (if r =? 0 then loc_Exact else loc_Inexact (2 * r ?= D)).
Proof.
  intros Hr HN.
  assert (Hq : N / D = q).
  { symmetry. apply (Z.div_unique N D q r); lia. }
  assert (Hm : N mod D = r).
  { symmetry. apply (Z.mod_unique N D q r); lia. }
  unfold loc_of. rewrite Hm. auto.
Qed.

Lemma rne_bounds N D : 0 < D -> N / D <= rne N D <= N / D + 1.
Proof.
  intros HD. unfold rne, loc_of, round_nearest_even.
  destruct (N mod D =? 0); [lia|].
  destruct (2 * (N mod D) ?= D); try lia.
  destruct (Z.even (N / D)); lia.
Qed.

Lemma rne_exact N D : 0 < D -> N mod D = 0 -> rne N D = N / D.
Proof.
  intros HD H. unfold rne, loc_of. rewrite H. reflexivity.
Qed.

Lemma rne_mono N N' D : 0 < D -> N <= N' -> rne N D <= rne N' D.
Proof.
  intros HD HN.
  assert (Hq : N / D <= N' / D) by (apply Z.div_le_mono; lia).
  destruct (Z.eq_dec (N / D) (N' / D)) as [Heq|Hne].
  - pose proof (Z.div_mod N D ltac:(lia)) as E1.
    pose proof (Z.div_mod N' D ltac:(lia)) as E2.
    pose proof (Z.mod_pos_bound N D HD).
    pose proof (Z.mod_pos_bound N' D HD).
    assert (Hr : N mod D <= N' mod D) by nia.
    unfold rne, loc_of, round_nearest_even. rewrite <- Heq.
    destruct (Z.eqb_spec (N mod D) 0), (Z.eqb_spec (N' mod D) 0); try lia;
    repeat match goal with
    | |- context [?a ?= ?b] => destruct (Z.compare_spec a b)
    end; try lia; destruct (Z.even (N / D)); lia.
  - pose proof (rne_bounds N D HD). pose proof (rne_bounds N' D HD). lia.
Qed.

Lemma rne_scale k N D : 0 < k -> 0 < D -> rne (k * N) (k * D) = rne N D.
Proof.
  intros Hk HD. unfold rne, loc_of.
  rewrite Z.div_mul_cancel_l by lia.
  rewrite Z.mul_mod_distr_l by lia.
  destruct (Z.eqb_spec (N mod D) 0) as [->|Hne].
  - rewrite Z.mul_0_r. reflexivity.
  - destruct (Z.eqb_spec (k * (N mod D)) 0) as [H0|_]; [nia|].
    destruct (Z.compare_spec (2 * (k * (N mod D))) (k * D)),
      (Z.compare_spec (2 * (N mod D)) D); auto; nia.
Qed.

(** ** Rounding a fraction to [prec] binary digits *)
Section Rnd.
Variable prec : Z.
Hypothesis prec_pos : 0 < prec.

Lemma pow_prec_pos : 0 < 2 ^ (prec - 1) /\ 2 ^ prec = 2 * 2 ^ (prec - 1).
Proof.
  split; [apply Z.pow_pos_nonneg; lia|].
  replace prec with (Z.succ (prec - 1)) at 1 by lia.
  rewrite Z.pow_succ_r by lia. reflexivity.
Qed.

Lemma rnd_core N D :
  0 < D -> 2 ^ (prec - 1) <= N / D ->
  let n := Z.max 0 (Zdigits2 (N / D) - prec) in
  n = Zdigits2 (N / D) - prec /\ 0 <= n
  /\ 2 ^ (prec - 1) <= N / (D * 2 ^ n) < 2 ^ prec.
Proof.
  intros HD Hq n. destruct pow_prec_pos as [Hp Hp2].
  assert (Hq0 : 0 < N / D) by lia.
  pose proof (Zdigits2_bounds _ Hq0) as [Bl Bu].
  assert (Hd : prec <= Zdigits2 (N / D)).
  { destruct (Z.le_gt_cases prec (Zdigits2 (N / D))); auto.
    assert (2 ^ Zdigits2 (N / D) <= 2 ^ (prec - 1))
      by (apply Z.pow_le_mono_r; lia). lia. }
  assert (Hn : n = Zdigits2 (N / D) - prec) by (unfold n; lia).
  split; auto. split; [lia|].
  assert (H2n : 0 < 2 ^ n) by (apply Z.pow_pos_nonneg; lia).
  rewrite <- Z.div_div by lia.
  assert (E1 : 2 ^ (Zdigits2 (N / D) - 1) = 2 ^ (prec - 1) * 2 ^ n).
  { rewrite <- Z.pow_add_r by lia. f_equal. lia. }
  assert (E2 : 2 ^ Zdigits2 (N / D) = 2 ^ prec * 2 ^ n).
  { rewrite <- Z.pow_add_r by lia. f_equal. lia. }
  split.
  - apply Z.div_le_lower_bound; lia.
  - apply Z.div_lt_upper_bound; lia.
Qed.

Lemma rnd_canonical N D e :
  0 < D -> 2 ^ (prec - 1) <= N / D ->
  2 ^ (prec - 1) <= fst (rnd prec N D e) < 2 ^ prec.
Proof.
  intros HD Hq. destruct pow_prec_pos as [Hp Hp2].
  destruct (rnd_core N D HD Hq) as (Hn & Hn0 & Hb).
  unfold rnd.
  set (n := Z.max 0 (Zdigits2 (N / D) - prec)) in *.
  assert (H2n : 0 < 2 ^ n) by (apply Z.pow_pos_nonneg; lia).
  pose proof (rne_bounds N (D * 2 ^ n) ltac:(nia)).
  destruct (Z.eqb_spec (rne N (D * 2 ^ n)) (2 ^ prec)); simpl; lia.
Qed.

Lemma rnd_double N D e :
  0 < D -> 2 ^ (prec - 1) <= N / D ->
  rnd prec (2 * N) D (e - 1) = rnd prec N D e.
Proof.
  intros HD Hq. destruct pow_prec_pos as [Hp Hp2].
  destruct (rnd_core N D HD Hq) as (Hn & Hn0 & Hb).
  assert (Hq0 : 0 < N / D) by lia.
  pose proof (Zdigits2_bounds _ Hq0) as [Bl Bu].
  assert (Hq2 : 2 * (N / D) <= 2 * N / D <= 2 * (N / D) + 1).
  { pose proof (Z.div_mod N D ltac:(lia)).
    pose proof (Z.mod_pos_bound N D HD).
    split.
    - apply Z.div_le_lower_bound; nia.
    - assert (2 * N / D < 2 * (N / D) + 2); [|lia].
      apply Z.div_lt_upper_bound; nia. }
  assert (Hd2 : Zdigits2 (2 * N / D) = Zdigits2 (N / D) + 1).
  { apply Zdigits2_unique; [lia|].
    pose proof (Zdigits2_pos _ Hq0).
    assert (E1 : 2 ^ (Zdigits2 (N / D) + 1 - 1) = 2 * 2 ^ (Zdigits2 (N / D) - 1)).
    { rewrite <- Z.pow_succ_r by lia. f_equal. lia. }
    assert (E2 : 2 ^ (Zdigits2 (N / D) + 1) = 2 * 2 ^ Zdigits2 (N / D)).
    { rewrite <- Z.pow_succ_r by lia. f_equal. }
    rewrite E1, E2. lia. }
  unfold rnd. rewrite Hd2.
  set (n := Z.max 0 (Zdigits2 (N / D) - prec)) in *.
  replace (Z.max 0 (Zdigits2 (N / D) + 1 - prec)) with (Z.succ n) by lia.
  rewrite Z.pow_succ_r by lia.
  replace (D * (2 * 2 ^ n)) with (2 * (D * 2 ^ n)) by lia.
  assert (H2n : 0 < 2 ^ n) by (apply Z.pow_pos_nonneg; lia).
  rewrite rne_scale by nia.
  replace (e - 1 + Z.succ n + 1) with (e + n + 1) by lia.
  replace (e - 1 + Z.succ n) with (e + n) by lia.
  reflexivity.
Qed.

Lemma rnd_scale k N D e :
  0 <= k -> 0 < D -> 2 ^ (prec - 1) <= N / D ->
  rnd prec (N * 2 ^ k) D (e - k) = rnd prec N D e.
Proof.
  intros Hk HD Hq. revert e. pattern k. apply natlike_ind; auto.
  - intros e. rewrite Z.mul_1_r, Z.sub_0_r. reflexivity.
  - intros x Hx IH e. rewrite Z.pow_succ_r by lia.
    replace (N * (2 * 2 ^ x)) with (2 * (N * 2 ^ x)) by lia.
    replace (e - Z.succ x) with ((e - x) - 1) by lia.
    rewrite rnd_double; auto.
    assert (0 < 2 ^ x) by (apply Z.pow_pos_nonneg; lia).
    assert (N / D <= N * 2 ^ x / D).
    { apply Z.div_le_mono; [lia|]. 
      assert (0 <= N); [|nia].
      destruct (Z.lt_ge_cases N 0); auto.
      assert (N / D < 0) by (apply Z.div_lt_upper_bound; lia).
      destruct pow_prec_pos. lia. }
    lia.
Qed.

Lemma rnd_mono N N' D e :
  0 < D -> 2 ^ (prec - 1) <= N / D -> N <= N' ->
  pair_le (rnd prec N D e) (rnd prec N' D e).
Proof.
  intros HD Hq HN. destruct pow_prec_pos as [Hp Hp2].
  assert (Hqq : N / D <= N' / D) by (apply Z.div_le_mono; lia).
  assert (Hq' : 2 ^ (prec - 1) <= N' / D) by lia.
  destruct (rnd_core N D HD Hq) as (Hn & Hn0 & Hb).
  destruct (rnd_core N' D HD Hq') as (Hn' & Hn0' & Hb').
  pose proof (Zdigits2_mono (N / D) (N' / D) ltac:(lia)) as Hdm.
  pose proof (rnd_canonical N' D e HD Hq') as Hc'.
  unfold rnd in *.
  set (n := Z.max 0 (Zdigits2 (N / D) - prec)) in *.
  set (n' := Z.max 0 (Zdigits2 (N' / D) - prec)) in *.
  assert (H2n : 0 < 2 ^ n) by (apply Z.pow_pos_nonneg; lia).
  assert (H2n' : 0 < 2 ^ n') by (apply Z.pow_pos_nonneg; lia).
  pose proof (rne_bounds N (D * 2 ^ n) ltac:(nia)) as R.
  pose proof (rne_bounds N' (D * 2 ^ n') ltac:(nia)) as R'.
  unfold pair_le.
  destruct (Z.eq_dec n n') as [Hnn|Hnn].
  - rewrite <- Hnn in *.
    pose proof (rne_mono N N' (D * 2 ^ n) ltac:(nia) HN) as Hm.
    destruct (Z.eqb_spec (rne N (D * 2 ^ n)) (2 ^ prec)),
             (Z.eqb_spec (rne N' (D * 2 ^ n)) (2 ^ prec)); simpl; lia.
  - assert (n < n') by lia.
    destruct (Z.eqb_spec (rne N (D * 2 ^ n)) (2 ^ prec)),
             (Z.eqb_spec (rne N' (D * 2 ^ n')) (2 ^ prec)); simpl in *; lia.
Qed.

(** Two values at different exponents. *)
Lemma rnd_mono_exp N N' D e e' :
  0 < D -> 2 ^ (prec - 1) <= N / D -> 2 ^ (prec - 1) <= N' / D ->
  e <= e' -> N <= N' * 2 ^ (e' - e) ->
  pair_le (rnd prec N D e) (rnd prec N' D e').
Proof.
  intros HD Hq Hq' He HN.
  replace e with (e' - (e' - e)) at 1 by lia.
  rewrite <- (rnd_scale (e' - e) N' D e') by (auto; lia).
  replace (e' - (e' - e)) with e by lia.
  replace (e' - (e' - e)) with e by lia.
  apply rnd_mono; auto.
Qed.

End Rnd.

Lemma rec_of_unique N D q r :
  0 <= r < D -> N = q * D + r ->
  rec_of N D = shr_record_of_loc q
                 (if r =? 0 then loc_Exact else loc_Inexact (2 * r ?= D)).
Proof.
  intros Hr HN. unfold rec_of.
  destruct (loc_of_unique N D q r Hr HN) as [-> ->]. reflexivity.
Qed.

Lemma shr_1_rec N D : 0 <= N -> 0 < D -> shr_1 (rec_of N D) = rec_of N (2 * D).
Proof.
  intros HN HD.
  pose proof (Z.div_mod N D ltac:(lia)) as E.
  pose proof (Z.mod_pos_bound N D HD) as Hr.
  assert (Hq0 : 0 <= N / D) by (apply Z.div_pos; lia).
  rewrite (rec_of_unique N D (N / D) (N mod D)) by lia.
  set (r := N mod D) in *.
  destruct (N / D) as [|p|p] eqn:Eq; [| |lia].
  - rewrite (rec_of_unique N (2 * D) 0 r) by lia.
    destruct (Z.eqb_spec r 0); [reflexivity|].
    destruct (Z.compare_spec (2 * r) (2 * D)); try lia.
    destruct (2 * r ?= D); reflexivity.
  - destruct p as [p|p|].
    + rewrite (rec_of_unique N (2 * D) (Z.pos p) (D + r)) by lia.
      destruct (Z.eqb_spec (D + r) 0); [lia|].
      destruct (Z.eqb_spec r 0).
      * destruct (Z.compare_spec (2 * (D + r)) (2 * D)); try lia. reflexivity.
      * destruct (Z.compare_spec (2 * (D + r)) (2 * D)); try lia.
        destruct (2 * r ?= D); reflexivity.
    + rewrite (rec_of_unique N (2 * D) (Z.pos p) r) by lia.
      destruct (Z.eqb_spec r 0); [reflexivity|].
      destruct (Z.compare_spec (2 * r) (2 * D)); try lia.
      destruct (2 * r ?= D); reflexivity.
    + rewrite (rec_of_unique N (2 * D) 0 (D + r)) by lia.
      destruct (Z.eqb_spec (D + r) 0); [lia|].
      destruct (Z.eqb_spec r 0).
      * destruct (Z.compare_spec (2 * (D + r)) (2 * D)); try lia. reflexivity.
      * destruct (Z.compare_spec (2 * (D + r)) (2 * D)); try lia.
        destruct (2 * r ?= D); reflexivity.
Qed.

Lemma pow2_xO p : 2 ^ Z.pos p~0 = 2 ^ Z.pos p * 2 ^ Z.pos p.
Proof. rewrite <- Z.pow_add_r by lia. f_equal. lia. Qed.

Lemma pow2_xI p : 2 ^ Z.pos p~1 = 2 * (2 ^ Z.pos p * 2 ^ Z.pos p).
Proof.
  rewrite <- Z.pow_add_r by lia. rewrite <- Z.pow_succ_r by lia. f_equal. lia.
Qed.

Lemma iter_pos_shr_1 N (p : positive) :
  0 <= N -> forall D, 0 < D ->
  SpecFloat.iter_pos shr_1 p (rec_of N D) = rec_of N (D * 2 ^ Z.pos p).
Proof.
  intros HN. induction p as [p IH|p IH|]; intros D HD; simpl SpecFloat.iter_pos.
  - rewrite shr_1_rec by auto.
    assert (0 < 2 ^ Z.pos p) by (apply Z.pow_pos_nonneg; lia).
    rewrite IH by lia. rewrite IH by nia. rewrite pow2_xI. f_equal. lia.
  - assert (0 < 2 ^ Z.pos p) by (apply Z.pow_pos_nonneg; lia).
    rewrite IH by lia. rewrite IH by nia. rewrite pow2_xO. f_equal. lia.
  - rewrite shr_1_rec by auto. f_equal. simpl. lia.
Qed.

Lemma shr_rec N D e n :
  0 <= N -> 0 < D -> 0 <= n ->
  shr (rec_of N D) e n = (rec_of N (D * 2 ^ n), e + n).
Proof.
  intros HN HD Hn. unfold shr. destruct n as [|p|p]; [| |lia].
  - simpl. rewrite Z.mul_1_r, Z.add_0_r. reflexivity.
  - rewrite iter_pos_shr_1 by auto. reflexivity.
Qed.

Lemma loc_of_rec N D : loc_of_shr_record (rec_of N D) = loc_of N D.
Proof.
  unfold rec_of. destruct (loc_of N D) as [|[| |]]; reflexivity.
Qed.

Lemma shr_m_rec N D : shr_m (rec_of N D) = N / D.
Proof.
  unfold rec_of. destruct (loc_of N D) as [|[| |]]; reflexivity.
Qed.

Lemma rec_of_exact m : shr_record_of_loc m loc_Exact = rec_of m 1.
Proof.
  unfold rec_of, loc_of. rewrite Z.mod_1_r, Z.div_1_r. reflexivity.
Qed.

Section Round.
Variables prec emax : Z.
Hypothesis prec_pos : 0 < prec.

(** binary_round_aux on a quotient with at least [prec] digits. *)
Lemma binary_round_aux_rnd sx N D e :
  0 < D -> 2 ^ (prec - 1) <= N / D ->
  emin prec emax <= e ->
  snd (rnd prec N D e) <= emax - prec ->
  binary_round_aux prec emax sx (N / D) e (loc_of N D)
  = S754_finite sx (Z.to_pos (fst (rnd prec N D e))) (snd (rnd prec N D e)).
Proof.
  intros HD Hq He Hmax.
  destruct (pow_prec_pos prec prec_pos) as [Hp Hp2].
  destruct (rnd_core prec prec_pos N D HD Hq) as (Hn & Hn0 & Hb).
  pose proof (rnd_canonical prec prec_pos N D e HD Hq) as Hcan.
  assert (HN : 0 <= N).
  { destruct (Z.lt_ge_cases N 0); auto.
    assert (N / D < 0) by (apply Z.div_lt_upper_bound; lia). lia. }
  unfold rnd in *.
  set (n := Z.max 0 (Zdigits2 (N / D) - prec)) in *.
  assert (H2n : 0 < 2 ^ n) by (apply Z.pow_pos_nonneg; lia).
  pose proof (rne_bounds N (D * 2 ^ n) ltac:(nia)) as R.
  set (m := rne N (D * 2 ^ n)) in *.
  unfold binary_round_aux.
  assert (S1 : shr_fexp prec emax (N / D) e (loc_of N D)
               = (rec_of N (D * 2 ^ n), e + n)).
  { unfold shr_fexp. fold (rec_of N D).
    assert (Hf : fexp prec emax (Zdigits2 (N / D) + e) - e = n).
    { unfold fexp. lia. }
    rewrite Hf. apply shr_rec; auto. }
  rewrite S1. rewrite shr_m_rec, loc_of_rec. fold (rne N (D * 2 ^ n)). fold m.
  assert (Hm0 : 0 < m) by lia.
  unfold shr_fexp. rewrite rec_of_exact.
  destruct (Z.eqb_spec m (2 ^ prec)) as [Hm|Hm]; simpl fst in *; simpl snd in *.
  - assert (Hd : Zdigits2 m = prec + 1).
    { apply Zdigits2_unique; [lia|].
      replace (prec + 1 - 1) with prec by lia.
      rewrite Z.pow_add_r by lia. simpl (2 ^ 1). lia. }
    assert (Hf : fexp prec emax (Zdigits2 m + (e + n)) - (e + n) = 1).
    { unfold fexp. lia. }
    rewrite Hf. rewrite shr_rec by lia. rewrite shr_m_rec.
    assert (Hh : m / (1 * 2 ^ 1) = 2 ^ (prec - 1)).
    { change (1 * 2 ^ 1) with 2. rewrite Hm, Hp2.
      symmetry. apply Z.div_unique_exact; lia. }
    rewrite Hh.
    destruct (2 ^ (prec - 1)) as [|pp|pp] eqn:Epp; try lia.
    replace (e + n + 1 <=? emax - prec) with true by (symmetry; apply Z.leb_le; lia).
    reflexivity.
  - assert (Hd : Zdigits2 m = prec).
    { apply Zdigits2_unique; lia. }
    assert (Hf : fexp prec emax (Zdigits2 m + (e + n)) - (e + n) = 0).
    { unfold fexp. lia. }
    rewrite Hf. rewrite shr_rec by lia. rewrite shr_m_rec.
    rewrite Z.mul_1_l, Z.pow_0_r, Z.div_1_r, Z.add_0_r.
    destruct m as [|pp|pp] eqn:Epp; try lia.
    replace (e + n <=? emax - prec) with true by (symmetry; apply Z.leb_le; lia).
    reflexivity.
Qed.

End Round.

(** ** The operations of SpecFloat on canonical floats *)
Lemma Zdigits2_le z d : 0 < z -> z < 2 ^ d -> Zdigits2 z <= d.
Proof.
  intros Hz Hu. pose proof (Zdigits2_bounds z Hz) as [Bl _].
  destruct (Z.le_gt_cases (Zdigits2 z) d); auto.
  assert (2 ^ d <= 2 ^ (Zdigits2 z - 1)).
  { destruct (Z.lt_ge_cases d 0).
    - rewrite (Z.pow_neg_r 2 d) by lia. apply Z.pow_nonneg. lia.
    - apply Z.pow_le_mono_r; lia. }
  lia.
Qed.

Lemma Zdigits2_ge z d : 0 < z -> 2 ^ (d - 1) <= z -> d <= Zdigits2 z.
Proof.
  intros Hz Hl. pose proof (Zdigits2_bounds z Hz) as [_ Bu].
  pose proof (Zdigits2_pos z Hz).
  destruct (Z.le_gt_cases d (Zdigits2 z)); auto.
  assert (2 ^ Zdigits2 z <= 2 ^ (d - 1)) by (apply Z.pow_le_mono_r; lia).
  lia.
Qed.

Lemma new_location_loc N D : 0 < D -> new_location D (N mod D) = loc_of N D.
Proof.
  intros HD. unfold new_location, new_location_even, new_location_odd, loc_of.
  destruct (Z.even D) eqn:Ev; [reflexivity|].
  destruct (N mod D =? 0); [reflexivity|]. f_equal.
  assert (Hodd : Z.odd D = true) by (rewrite <- Z.negb_even, Ev; reflexivity).
  apply Z.odd_spec in Hodd as [j Hj].
  destruct (Z.compare_spec (2 * (N mod D) + 1) D),
           (Z.compare_spec (2 * (N mod D)) D); auto; lia.
Qed.

Section Ops.
Variables prec emax : Z.
Hypothesis prec_pos : 0 < prec.

Lemma canon_pos m : canon prec m -> 0 < m.
Proof. destruct (pow_prec_pos prec prec_pos). unfold canon. lia. Qed.

Lemma canon_digits m : canon prec m -> Zdigits2 m = prec.
Proof.
  intros H. apply Zdigits2_unique; auto. apply canon_pos; auto.
Qed.

Lemma rnd_exp N D e :
  0 < D -> 2 ^ (prec - 1) <= N / D ->
  let n := Zdigits2 (N / D) - prec in
  e + n <= snd (rnd prec N D e) <= e + n + 1.
Proof.
  intros HD Hq n. destruct (rnd_core prec prec_pos N D HD Hq) as (Hn & _ & _).
  unfold rnd. subst n. rewrite Hn.
  destruct (_ =? _); simpl; lia.
Qed.

(** Division of canonical floats. *)
Lemma SFdiv_canon m1 e1 m2 e2 :
  canon prec m1 -> canon prec m2 ->
  emin prec emax <= e1 - e2 - prec -> e1 - e2 + 2 <= emax ->
  SFdiv prec emax (fin m1 e1) (fin m2 e2)
  = fin_of (rnd prec (m1 * 2 ^ prec) m2 (e1 - e2 - prec)).
Proof.
  intros C1 C2 Hlo Hhi.
  destruct (pow_prec_pos prec prec_pos) as [Hp Hp2].
  pose proof (canon_pos _ C1) as P1. pose proof (canon_pos _ C2) as P2.
  pose proof (canon_digits _ C1) as D1. pose proof (canon_digits _ C2) as D2.
  unfold fin, SFdiv, SFdiv_core_binary.
  rewrite !Z2Pos.id by lia. rewrite D1, D2.
  assert (Hf : Z.min (fexp prec emax (prec + e1 - (prec + e2))) (e1 - e2)
               = e1 - e2 - prec) by (unfold fexp; lia).
  rewrite Hf.
  replace (e1 - e2 - (e1 - e2 - prec)) with prec by lia.
  assert (Hsh : match prec with
                | Z.pos _ => Z.shiftl m1 prec
                | 0 => m1
                | Z.neg _ => 0
                end = m1 * 2 ^ prec).
  { destruct prec eqn:E; try lia. apply Z.shiftl_mul_pow2. lia. }
  rewrite Hsh.
  set (N := m1 * 2 ^ prec).
  assert (Hq : 2 ^ (prec - 1) <= N / m2).
  { apply Z.div_le_lower_bound; [lia|]. unfold N, canon in *. nia. }
  destruct (Z.div_eucl N m2) as [q r] eqn:E.
  assert (Eq : q = N / m2) by (unfold Z.div; rewrite E; reflexivity).
  assert (Er : r = N mod m2) by (unfold Z.modulo; rewrite E; reflexivity).
  rewrite Eq, Er, new_location_loc by lia.
  simpl xorb.
  pose proof (rnd_exp N m2 (e1 - e2 - prec) P2 Hq) as Hexp. cbv zeta in Hexp.
  assert (Hd : Zdigits2 (N / m2) <= prec + 1).
  { apply Zdigits2_le; [lia|]. apply Z.div_lt_upper_bound; [lia|].
    unfold N, canon in *. rewrite Z.pow_add_r by lia. simpl (2 ^ 1). nia. }
  rewrite binary_round_aux_rnd by (auto; lia). reflexivity.
Qed.

(** Multiplication of canonical floats. *)
Lemma SFmul_canon m1 e1 m2 e2 :
  canon prec m1 -> canon prec m2 ->
  emin prec emax <= e1 + e2 -> e1 + e2 + 2 * prec + 1 <= emax ->
  SFmul prec emax (fin m1 e1) (fin m2 e2)
  = fin_of (rnd prec (m1 * m2) 1 (e1 + e2)).
Proof.
  intros C1 C2 Hlo Hhi.
  destruct (pow_prec_pos prec prec_pos) as [Hp Hp2].
  pose proof (canon_pos _ C1) as P1. pose proof (canon_pos _ C2) as P2.
  unfold fin, SFmul. simpl xorb.
  rewrite Pos2Z.inj_mul, !Z2Pos.id by lia.
  set (N := m1 * m2).
  assert (HN : 2 ^ (prec - 1) <= N / 1).
  { rewrite Z.div_1_r. unfold N, canon in *. nia. }
  replace (binary_round_aux prec emax false N (e1 + e2) loc_Exact)
    with (binary_round_aux prec emax false (N / 1) (e1 + e2) (loc_of N 1)).
  2: { unfold loc_of. rewrite Z.mod_1_r, Z.div_1_r. reflexivity. }
  pose proof (rnd_exp N 1 (e1 + e2) ltac:(lia) HN) as Hexp. cbv zeta in Hexp.
  assert (Hd : Zdigits2 (N / 1) <= 2 * prec).
  { apply Zdigits2_le; [lia|]. rewrite Z.div_1_r.
    replace (2 * prec) with (prec + prec) by lia.
    rewrite Z.pow_add_r by lia. unfold N, canon in *. nia. }
  rewrite binary_round_aux_rnd by (auto; lia). reflexivity.
Qed.

(** The conversion of a positive integer. *)
Lemma of_int_canon z :
  0 < z -> Zdigits2 z + 1 <= emax -> 2 <= emax ->
  binary_normalize prec emax z 0 false
  = fin_of (rnd prec (z * 2 ^ prec) 1 (- prec)).
Proof.
  intros Hz Hd Hemax.
  destruct (pow_prec_pos prec prec_pos) as [Hp Hp2].
  pose proof (Zdigits2_bounds z Hz) as [Bl Bu].
  pose proof (Zdigits2_pos z Hz) as Hdp.
  destruct z as [|p|p]; try lia.
  unfold binary_normalize, binary_round.
  change (Z.pos (digits2_pos p)) with (Zdigits2 (Z.pos p)).
  set (z := Z.pos p) in *.
  assert (Hf : fexp prec emax (Zdigits2 z + 0) = Zdigits2 z - prec).
  { unfold fexp, emin. lia. }
  rewrite Hf.
  assert (H2p : 0 < 2 ^ prec) by lia.
  assert (Hbig : 2 ^ (prec - 1) <= z * 2 ^ prec / 1).
  { rewrite Z.div_1_r. nia. }
  pose proof (rnd_exp (z * 2 ^ prec) 1 (- prec) ltac:(lia) Hbig) as Hexp.
  cbv zeta in Hexp.
  assert (Hdz : Zdigits2 (z * 2 ^ prec / 1) = Zdigits2 z + prec).
  { rewrite Z.div_1_r. apply Zdigits2_unique; [nia|].
    replace (Zdigits2 z + prec - 1) with ((Zdigits2 z - 1) + prec) by lia.
    rewrite !Z.pow_add_r by lia. nia. }
  rewrite Hdz in Hexp.
  unfold shl_align.
  destruct (Zdigits2 z - prec - 0) as [|d|d] eqn:Ed.
  - (* exactly prec digits *)
    replace (binary_round_aux prec emax false (Z.pos p) 0 loc_Exact)
      with (binary_round_aux prec emax false (z / 1) 0 (loc_of z 1)).
    2: { unfold loc_of. rewrite Z.mod_1_r, Z.div_1_r. reflexivity. }
    assert (Hq : 2 ^ (prec - 1) <= z / 1).
    { rewrite Z.div_1_r. replace (prec - 1) with (Zdigits2 z - 1) by lia. auto. }
    assert (Esc : rnd prec (z * 2 ^ prec) 1 (- prec) = rnd prec z 1 0).
    { rewrite <- (Z.sub_0_l prec). apply rnd_scale; auto; lia. }
    rewrite Esc in *.
    rewrite binary_round_aux_rnd by (auto; unfold emin; lia). reflexivity.
  - replace (binary_round_aux prec emax false (Z.pos p) 0 loc_Exact)
      with (binary_round_aux prec emax false (z / 1) 0 (loc_of z 1)).
    2: { unfold loc_of. rewrite Z.mod_1_r, Z.div_1_r. reflexivity. }
    assert (Hq : 2 ^ (prec - 1) <= z / 1).
    { rewrite Z.div_1_r.
      assert (2 ^ (prec - 1) <= 2 ^ (Zdigits2 z - 1))
        by (apply Z.pow_le_mono_r; lia). lia. }
    assert (Esc : rnd prec (z * 2 ^ prec) 1 (- prec) = rnd prec z 1 0).
    { rewrite <- (Z.sub_0_l prec). apply rnd_scale; auto; lia. }
    rewrite Esc in *.
    rewrite binary_round_aux_rnd by (auto; unfold emin; lia). reflexivity.
  - (* fewer digits: the mantissa is shifted left *)
    change (Pos.iter xO p d) with (shift_pos d p).
    rewrite shift_pos_correct.
    change (Z.pow_pos 2 d) with (2 ^ Z.pos d). fold z.
    set (N := 2 ^ Z.pos d * z).
    assert (H2d : 0 < 2 ^ Z.pos d) by (apply Z.pow_pos_nonneg; lia).
    replace (binary_round_aux prec emax false N (Zdigits2 z - prec) loc_Exact)
      with (binary_round_aux prec emax false (N / 1) (Zdigits2 z - prec)
              (loc_of N 1)).
    2: { unfold loc_of. rewrite Z.mod_1_r, Z.div_1_r. reflexivity. }
    assert (HdN : Z.pos d = prec - Zdigits2 z) by lia.
    assert (Hq : 2 ^ (prec - 1) <= N / 1).
    { rewrite Z.div_1_r. unfold N.
      replace (prec - 1) with (Z.pos d + (Zdigits2 z - 1)) by lia.
      rewrite Z.pow_add_r by lia. nia. }
    assert (Esc : rnd prec (z * 2 ^ prec) 1 (- prec)
                  = rnd prec N 1 (Zdigits2 z - prec)).
    { replace (z * 2 ^ prec) with (N * 2 ^ Zdigits2 z).
      2: { assert (E2 : 2 ^ prec = 2 ^ Z.pos d * 2 ^ Zdigits2 z).
           { rewrite <- Z.pow_add_r by lia. f_equal. lia. }
           unfold N. rewrite E2. ring. }
      replace (- prec) with ((Zdigits2 z - prec) - Zdigits2 z) by lia.
      apply rnd_scale; auto; lia. }
    rewrite Esc in *.
    rewrite binary_round_aux_rnd by (auto; unfold emin; lia). reflexivity.
Qed.

End Ops.


Section Order.
Variable prec : Z.
Hypothesis prec_pos : 0 < prec.

Lemma pair_le_refl p : pair_le p p.
Proof. unfold pair_le. lia. Qed.

Lemma pair_le_trans p q r : pair_le p q -> pair_le q r -> pair_le p r.
Proof. unfold pair_le. lia. Qed.

Lemma rnd_self D e : 0 < D -> rnd prec (D * 2 ^ prec) D e = (2 ^ (prec - 1), e + 1).
Proof.
  intros HD. destruct (pow_prec_pos prec prec_pos) as [Hp Hp2].
  assert (Hq : D * 2 ^ prec / D = 2 ^ prec).
  { rewrite Z.mul_comm. apply Z.div_mul. lia. }
  assert (Hd : Zdigits2 (2 ^ prec) = prec + 1).
  { apply Zdigits2_unique; [lia|].
    replace (prec + 1 - 1) with prec by lia.
    rewrite Z.pow_add_r by lia. simpl (2 ^ 1). lia. }
  unfold rnd. rewrite Hq, Hd.
  replace (Z.max 0 (prec + 1 - prec)) with 1 by lia.
  change (2 ^ 1) with 2.
  assert (Hr : rne (D * 2 ^ prec) (D * 2) = 2 ^ (prec - 1)).
  { rewrite Hp2. replace (D * (2 * 2 ^ (prec - 1))) with (2 ^ (prec - 1) * (D * 2)) by ring.
    rewrite rne_exact by (try lia; apply Z.mod_mul; lia).
    apply Z.div_mul. lia. }
  rewrite Hr.
  destruct (Z.eqb_spec (2 ^ (prec - 1)) (2 ^ prec)); [lia|].
  reflexivity.
Qed.

Lemma div_pair_mono m1 e1 m1' e1' m2 e2 :
  canon prec m1 -> canon prec m1' -> canon prec m2 ->
  pair_le (m1, e1) (m1', e1') ->
  pair_le (rnd prec (m1 * 2 ^ prec) m2 (e1 - e2 - prec))
          (rnd prec (m1' * 2 ^ prec) m2 (e1' - e2 - prec)).
Proof.
  intros C1 C1' C2 Hle.
  destruct (pow_prec_pos prec prec_pos) as [Hp Hp2].
  unfold canon in *.
  assert (Hq : forall m, 2 ^ (prec - 1) <= m < 2 ^ prec ->
                         2 ^ (prec - 1) <= m * 2 ^ prec / m2).
  { intros m Hm. apply Z.div_le_lower_bound; [lia|]. nia. }
  unfold pair_le in Hle. cbn [fst snd] in Hle.
  apply rnd_mono_exp; [exact prec_pos | lia | apply Hq; lia | apply Hq; lia
                      | lia | ].
  - destruct Hle as [Hlt|[Heq Hm]].
    + assert (H2 : 2 ^ 1 <= 2 ^ (e1' - e2 - prec - (e1 - e2 - prec)))
        by (apply Z.pow_le_mono_r; lia).
      change (2 ^ 1) with 2 in H2.
      set (X := 2 ^ (e1' - e2 - prec - (e1 - e2 - prec))) in *.
      assert (H1 : m1 <= m1' * X) by nia.
      replace (m1' * 2 ^ prec * X) with (m1' * X * 2 ^ prec) by ring.
      apply Z.mul_le_mono_nonneg_r; lia.
    + replace (e1' - e2 - prec - (e1 - e2 - prec)) with 0 by lia.
      rewrite Z.pow_0_r, Z.mul_1_r.
      apply Z.mul_le_mono_nonneg_r; lia.
Qed.

Lemma mul_pair_mono mc ec m e m' e' :
  canon prec mc -> canon prec m -> canon prec m' ->
  pair_le (m, e) (m', e') ->
  pair_le (rnd prec (mc * m) 1 (ec + e)) (rnd prec (mc * m') 1 (ec + e')).
Proof.
  intros Cc C C' Hle.
  destruct (pow_prec_pos prec prec_pos) as [Hp Hp2].
  unfold canon in *.
  assert (Hq : forall m, 2 ^ (prec - 1) <= m < 2 ^ prec ->
                         2 ^ (prec - 1) <= mc * m / 1).
  { intros x Hx. rewrite Z.div_1_r. nia. }
  unfold pair_le in Hle. cbn [fst snd] in Hle.
  apply rnd_mono_exp; [exact prec_pos | lia | apply Hq; lia | apply Hq; lia
                      | lia | ].
  - destruct Hle as [Hlt|[Heq Hm]].
    + assert (H2 : 2 ^ 1 <= 2 ^ (ec + e' - (ec + e)))
        by (apply Z.pow_le_mono_r; lia).
      change (2 ^ 1) with 2 in H2.
      set (X := 2 ^ (ec + e' - (ec + e))) in *.
      assert (H1 : m <= m' * X) by nia.
      replace (mc * m' * X) with (mc * (m' * X)) by ring.
      apply Z.mul_le_mono_nonneg_l; lia.
    + replace (ec + e' - (ec + e)) with 0 by lia.
      rewrite Z.pow_0_r, Z.mul_1_r.
      apply Z.mul_le_mono_nonneg_l; lia.
Qed.

Lemma trunc_pair_nonneg p : 0 <= fst p -> 0 <= trunc_pair p.
Proof.
  intros H. unfold trunc_pair. destruct (snd p) as [|k|k].
  - simpl. lia.
  - assert (0 < 2 ^ Z.pos k) by (apply Z.pow_pos_nonneg; lia). nia.
  - apply Z.div_pos; [lia|]. apply Z.pow_pos_nonneg; lia.
Qed.

Lemma trunc_pair_mono p q :
  canon prec (fst p) -> canon prec (fst q) -> pair_le p q ->
  trunc_pair p <= trunc_pair q.
Proof.
  destruct p as [m e], q as [m' e']. unfold canon, pair_le. simpl.
  intros C C' Hle. destruct (pow_prec_pos prec prec_pos) as [Hp Hp2].
  unfold trunc_pair. simpl.
  destruct Hle as [Hlt|[<- Hm]].
  - assert (H2 : m < 2 ^ (e' - e) * m').
    { assert (H1 : 2 ^ 1 <= 2 ^ (e' - e)) by (apply Z.pow_le_mono_r; lia).
      change (2 ^ 1) with 2 in H1. nia. }
    destruct e as [|k|k], e' as [|k'|k']; try lia.
    + (* e = 0 < e' *)
      simpl (2 ^ 0). rewrite Z.sub_0_r in H2. lia.
    + (* 0 < e < e' *)
      assert (E : 2 ^ Z.pos k' = 2 ^ (Z.pos k' - Z.pos k) * 2 ^ Z.pos k).
      { rewrite <- Z.pow_add_r by lia. f_equal. lia. }
      assert (0 < 2 ^ Z.pos k) by (apply Z.pow_pos_nonneg; lia).
      rewrite E. nia.
    + (* e < 0 = e' *)
      assert (0 < 2 ^ Z.pos k) by (apply Z.pow_pos_nonneg; lia).
      simpl (2 ^ 0). replace (0 - Z.neg k) with (Z.pos k) in H2 by lia.
      assert (m / 2 ^ Z.pos k < m' + 1); [|lia].
      apply Z.div_lt_upper_bound; nia.
    + (* e < 0 < e' *)
      assert (0 < 2 ^ Z.pos k) by (apply Z.pow_pos_nonneg; lia).
      assert (0 < 2 ^ Z.pos k') by (apply Z.pow_pos_nonneg; lia).
      replace (Z.pos k' - Z.neg k) with (Z.pos k' + Z.pos k) in H2 by lia.
      rewrite Z.pow_add_r in H2 by lia.
      assert (m / 2 ^ Z.pos k < m' * 2 ^ Z.pos k' + 1); [|lia].
      apply Z.div_lt_upper_bound; nia.
    + (* e < e' < 0 *)
      assert (Ha : 0 < 2 ^ Z.pos k') by (apply Z.pow_pos_nonneg; lia).
      assert (Hb : 0 < 2 ^ (Z.pos k - Z.pos k')) by (apply Z.pow_pos_nonneg; lia).
      assert (E : 2 ^ Z.pos k = 2 ^ Z.pos k' * 2 ^ (Z.pos k - Z.pos k')).
      { rewrite <- Z.pow_add_r by lia. f_equal. lia. }
      replace (Z.neg k' - Z.neg k) with (Z.pos k - Z.pos k') in H2 by lia.
      pose proof (Z.div_mod m' (2 ^ Z.pos k') ltac:(lia)) as Hdm.
      pose proof (Z.mod_pos_bound m' (2 ^ Z.pos k') Ha) as Hmb.
      set (a := 2 ^ Z.pos k') in *. set (b := 2 ^ (Z.pos k - Z.pos k')) in *.
      set (t := m' / a) in *.
      assert (m / 2 ^ Z.pos k < t + 1); [|lia].
      apply Z.div_lt_upper_bound; [lia|]. rewrite E.
      assert (m' < (t + 1) * a) by lia.
      assert (b * m' <= b * ((t + 1) * a - 1)) by (apply Z.mul_le_mono_nonneg_l; lia).
      nia.
  - destruct e as [|k|k].
    + lia.
    + assert (0 < 2 ^ Z.pos k) by (apply Z.pow_pos_nonneg; lia). nia.
    + apply Z.div_le_mono; [|lia]. apply Z.pow_pos_nonneg; lia.
Qed.

End Order.

(** ** float32 on positive operands *)

Lemma Zdigits2_shift z k :
  0 < z -> 0 <= k -> Zdigits2 (z * 2 ^ k) = Zdigits2 z + k.
Proof.
  intros Hz Hk. pose proof (Zdigits2_bounds z Hz) as [Bl Bu].
  pose proof (Zdigits2_pos z Hz).
  assert (0 < 2 ^ k) by (apply Z.pow_pos_nonneg; lia).
  apply Zdigits2_unique; [nia|].
  replace (Zdigits2 z + k - 1) with ((Zdigits2 z - 1) + k) by lia.
  rewrite !Z.pow_add_r by lia. nia.
Qed.

Lemma f32_int_range z :
  0 < z <= max_int ->
  canon 24 (fst (f32_int z)) /\ - 23 <= snd (f32_int z) <= 40.
Proof.
  intros [Hz Hmax]. unfold f32_int.
  assert (Hq : 2 ^ (24 - 1) <= z * 2 ^ 24 / 1) by (rewrite Z.div_1_r; lia).
  split; [apply rnd_canonical; lia|].
  pose proof (rnd_exp 24 ltac:(lia) (z * 2 ^ 24) 1 (- 24) ltac:(lia) Hq) as H.
  cbv zeta in H. rewrite Z.div_1_r, Zdigits2_shift in H by lia.
  pose proof (Zdigits2_pos z Hz).
  assert (Zdigits2 z <= 63)
    by (apply Zdigits2_le; unfold max_int in *; lia).
  lia.
Qed.

Lemma F32_of_int_fin z :
  0 < z <= max_int -> F32.of_int z = fin_of (f32_int z).
Proof.
  intros [Hz Hmax]. unfold F32.of_int, f32_int.
  apply (of_int_canon F32.prec F32.emax); unfold F32.prec, F32.emax; try lia.
  assert (Zdigits2 z <= 63)
    by (apply Zdigits2_le; unfold max_int in *; lia).
  lia.
Qed.

Lemma f32_int_mono z z' : 0 < z <= z' -> pair_le (f32_int z) (f32_int z').
Proof.
  intros [Hz Hzz]. unfold f32_int. apply rnd_mono; try lia.
  rewrite Z.div_1_r. lia.
Qed.

Lemma f32_div_range x y :
  canon 24 (fst x) -> canon 24 (fst y) ->
  canon 24 (fst (f32_div x y))
  /\ snd x - snd y - 24 <= snd (f32_div x y) <= snd x - snd y - 22.
Proof.
  intros Cx Cy. unfold f32_div, canon in *.
  assert (Hq : 2 ^ (24 - 1) <= fst x * 2 ^ 24 / fst y).
  { apply Z.div_le_lower_bound; lia. }
  split; [apply rnd_canonical; lia|].
  pose proof (rnd_exp 24 ltac:(lia) (fst x * 2 ^ 24) (fst y)
                (snd x - snd y - 24) ltac:(lia) Hq) as H.
  cbv zeta in H.
  assert (Zdigits2 (fst x * 2 ^ 24 / fst y) <= 25).
  { apply Zdigits2_le; [lia|]. apply Z.div_lt_upper_bound; lia. }
  assert (24 <= Zdigits2 (fst x * 2 ^ 24 / fst y)).
  { apply Zdigits2_ge; lia. }
  lia.
Qed.

Lemma F32_div_fin x y :
  canon 24 (fst x) -> canon 24 (fst y) ->
  - 125 <= snd x - snd y <= 126 ->
  F32.div (fin_of x) (fin_of y) = fin_of (f32_div x y).
Proof.
  intros Cx Cy He. unfold F32.div, fin_of, f32_div.
  apply (SFdiv_canon F32.prec F32.emax); auto;
    unfold F32.prec, F32.emax, emin; lia.
Qed.

Lemma f32_div_mono x x' y :
  canon 24 (fst x) -> canon 24 (fst x') -> canon 24 (fst y) ->
  pair_le x x' -> pair_le (f32_div x y) (f32_div x' y).
Proof.
  intros Cx Cx' Cy Hle. destruct x, x'. apply div_pair_mono; auto. lia.
Qed.

Lemma f32_div_self y : canon 24 (fst y) -> f32_div y y = (2 ^ 23, - 23).
Proof.
  intros Cy. unfold f32_div, canon in *.
  replace (fst y * 2 ^ 24) with (fst y * 2 ^ 24) by reflexivity.
  rewrite (rnd_self 24) by lia. f_equal. lia.
Qed.

Lemma f32_mul_range x y :
  canon 24 (fst x) -> canon 24 (fst y) ->
  canon 24 (fst (f32_mul x y))
  /\ snd x + snd y + 23 <= snd (f32_mul x y) <= snd x + snd y + 25.
Proof.
  intros Cx Cy. unfold f32_mul, canon in *.
  assert (Hq : 2 ^ (24 - 1) <= fst x * fst y / 1) by (rewrite Z.div_1_r; nia).
  split; [apply rnd_canonical; lia|].
  pose proof (rnd_exp 24 ltac:(lia) (fst x * fst y) 1
                (snd x + snd y) ltac:(lia) Hq) as H.
  cbv zeta in H. rewrite Z.div_1_r in H.
  assert (Zdigits2 (fst x * fst y) <= 48) by (apply Zdigits2_le; nia).
  assert (47 <= Zdigits2 (fst x * fst y)) by (apply Zdigits2_ge; nia).
  lia.
Qed.

Lemma F32_mul_fin x y :
  canon 24 (fst x) -> canon 24 (fst y) ->
  - 149 <= snd x + snd y <= 79 ->
  F32.mul (fin_of x) (fin_of y) = fin_of (f32_mul x y).
Proof.
  intros Cx Cy He. unfold F32.mul, fin_of, f32_mul.
  apply (SFmul_canon F32.prec F32.emax); auto;
    unfold F32.prec, F32.emax, emin; lia.
Qed.

Lemma f32_mul_mono c x x' :
  canon 24 (fst c) -> canon 24 (fst x) -> canon 24 (fst x') ->
  pair_le x x' -> pair_le (f32_mul c x) (f32_mul c x').
Proof.
  intros Cc Cx Cx' Hle. destruct x, x'. apply mul_pair_mono; auto. lia.
Qed.

Lemma f32_255_canon : canon 24 (fst f32_255).
Proof. unfold canon, f32_255. simpl. lia. Qed.

Lemma F32_of_int_255 : F32.of_int 255 = fin_of f32_255.
Proof. reflexivity. Qed.

(** [0xFF * (float32(a) / float32(n))] for positive ints. *)
Lemma ranked_float a n :
  0 < a <= max_int -> 0 < n <= max_int ->
  F32.mul (F32.of_int 255) (F32.div (F32.of_int a) (F32.of_int n))
  = fin_of (ranked_pair a n)
  /\ canon 24 (fst (ranked_pair a n)).
Proof.
  intros Ha Hn.
  destruct (f32_int_range a Ha) as [Ca Ea].
  destruct (f32_int_range n Hn) as [Cn En].
  destruct (f32_div_range _ _ Ca Cn) as [Cq Eq].
  rewrite (F32_of_int_fin a Ha), (F32_of_int_fin n Hn), F32_of_int_255.
  rewrite F32_div_fin by (auto; lia).
  unfold ranked_pair.
  rewrite F32_mul_fin; auto using f32_255_canon; [|simpl; lia].
  split; auto. apply f32_mul_range; auto using f32_255_canon.
Qed.

Lemma ranked_pair_mono a a' n :
  0 < a <= a' -> a' <= max_int -> 0 < n <= max_int ->
  pair_le (ranked_pair a n) (ranked_pair a' n).
Proof.
  intros Ha Ha' Hn.
  destruct (f32_int_range a ltac:(lia)) as [Ca _].
  destruct (f32_int_range a' ltac:(lia)) as [Ca' _].
  destruct (f32_int_range n Hn) as [Cn _].
  unfold ranked_pair. apply f32_mul_mono; auto using f32_255_canon.
  - apply f32_div_range; auto.
  - apply f32_div_range; auto.
  - apply f32_div_mono; auto. apply f32_int_mono. lia.
Qed.

Lemma ranked_pair_top n : 0 < n <= max_int -> ranked_pair n n = f32_255.
Proof.
  intros Hn. destruct (f32_int_range n Hn) as [Cn _].
  unfold ranked_pair. rewrite f32_div_self by auto.
  vm_compute. reflexivity.
Qed.

Lemma SFtrunc_fin p : 0 < fst p -> SFtrunc (fin_of p) = Some (trunc_pair p).
Proof.
  intros Hp. destruct p as [m e]. simpl in *.
  unfold fin_of, fin, SFtrunc, trunc_pair. simpl.
  rewrite Z2Pos.id by lia. destruct e; reflexivity.
Qed.

Lemma to_uint8_fin p :
  0 < fst p -> 0 <= trunc_pair p <= 255 -> to_uint8 (fin_of p) = trunc_pair p.
Proof.
  intros Hp Hr. unfold to_uint8. rewrite SFtrunc_fin by auto.
  destruct (Z.leb_spec 0 (trunc_pair p)), (Z.leb_spec (trunc_pair p) 255);
    simpl; lia.
Qed.

(** The conversion to [uint8] of [0xFF * (float32(a) / float32(n))] is the
    integer part of the product, between 0 and 255, and grows with [a]. *)
Lemma ranked_uint8 a n :
  0 < a <= n -> n <= max_int ->
  to_uint8 (F32.mul (F32.of_int 255) (F32.div (F32.of_int a) (F32.of_int n)))
  = trunc_pair (ranked_pair a n)
  /\ 0 <= trunc_pair (ranked_pair a n) <= 255.
Proof.
  intros Ha Hn.
  destruct (ranked_float a n ltac:(lia) ltac:(lia)) as [-> Cr].
  assert (Hr : 0 <= trunc_pair (ranked_pair a n) <= 255).
  { split.
    - apply trunc_pair_nonneg. unfold canon in Cr. lia.
    - change 255 with (trunc_pair f32_255).
      apply (trunc_pair_mono 24); auto using f32_255_canon; try lia.
      rewrite <- (ranked_pair_top n) by lia.
      apply ranked_pair_mono; lia. }
  split; auto. apply to_uint8_fin; auto. unfold canon in Cr. lia.
Qed.

Lemma ranked_uint8_mono a a' n :
  0 < a <= a' -> a' <= n -> n <= max_int ->
  trunc_pair (ranked_pair a n) <= trunc_pair (ranked_pair a' n).
Proof.
  intros Ha Ha' Hn.
  destruct (ranked_float a n ltac:(lia) ltac:(lia)) as [_ Cr].
  destruct (ranked_float a' n ltac:(lia) ltac:(lia)) as [_ Cr'].
  apply (trunc_pair_mono 24); auto; try lia.
  apply ranked_pair_mono; lia.
Qed.

(** ** The ranked saturation *)

Lemma len_unique_le (d : list Z) : len (uniq (-1) (sort_Ints d)) <= len d.
Proof.
  unfold len.
  pose proof (sublist_length _ _ (uniq_sublist (-1) (sort_Ints d))) as H1.
  pose proof (Permutation_length (sort_Ints_perm d)) as H2. lia.
Qed.

(** The ranked saturation of a value that the search finds. *)
Lemma ranked_saturation_value (unique : list Z) (v s : Z) :
  StronglySorted Z.le unique -> len unique <= max_int ->
  ranked_saturation unique v = Some s ->
  let t := trunc_pair (ranked_pair (SearchInts unique v + 1) (len unique)) in
  0 <= SearchInts unique v < len unique /\ 0 <= t <= 255
  /\ s = (if t =? 0 then 1 else t).
Proof.
  intros Hs Hl H. unfold ranked_saturation in H.
  destruct (SearchInts_spec unique v Hs) as [Hr _].
  destruct (Z.eqb_spec (SearchInts unique v) (len unique)); [discriminate|].
  assert (Hadd : int_add (SearchInts unique v) 1 = SearchInts unique v + 1).
  { unfold int_add. apply wrap_small. unfold is_int, min_int, max_int in *. lia. }
  rewrite Hadd in H.
  destruct (ranked_uint8 (SearchInts unique v + 1) (len unique)) as [E Hrange];
    try lia.
  rewrite E in H. cbv zeta.
  assert (Hs' : s = (if trunc_pair (ranked_pair (SearchInts unique v + 1)
                                      (len unique)) =? 0
                     then 1
                     else trunc_pair (ranked_pair (SearchInts unique v + 1)
                                        (len unique)))) by congruence.
  repeat split; auto; lia.
Qed.

(** C8.  After computeSaturations, of two cells of the grid the one with
    the smaller count has the smaller or the same ranked saturation, and
    cells of equal count have equal ranked saturations. *)
Theorem ranked_saturation_monotone hm hm' i j v1 v2 s1 s2 :
  computeSaturations hm = Some hm' ->
  len (data hm) <= max_int ->
  data hm !! i = Some v1 -> data hm !! j = Some v2 ->
  rankedSaturations hm' !! i = Some s1 ->
  rankedSaturations hm' !! j = Some s2 ->
  (v1 < v2 -> s1 <= s2) /\ (v1 = v2 -> s1 = s2).
Proof.
  intros H Hlen Hi Hj Hs1 Hs2.
  assert (Hne : len (data hm) <> 0).
  { apply lookup_lt_Some in Hi. unfold len. lia. }
  destruct (computeSaturations_nonempty hm Hne) as (sorted & _ & _ & E).
  rewrite E in H. clear E.
  set (unique := uniq (-1) (sort_Ints (data hm))) in *.
  destruct (saturation_loop unique sorted (data hm)) as [[ls rs]|] eqn:Hl;
    simpl in H; [|discriminate].
  injection H as <-. simpl in Hs1, Hs2.
  apply saturation_loop_lookup in Hl as (_ & _ & Hl).
  destruct (Hl _ _ Hi) as (r1 & _ & Hr1 & _ & Hrs1 & _).
  destruct (Hl _ _ Hj) as (r2 & _ & Hr2 & _ & Hrs2 & _).
  assert (r1 = s1) by congruence. assert (r2 = s2) by congruence. subst r1 r2.
  split.
  - intros Hv.
    pose proof (unique_sorted (data hm)) as Hsorted. fold unique in Hsorted.
    pose proof (len_unique_le (data hm)) as Hul. fold unique in Hul.
    destruct (ranked_saturation_value unique v1 s1 Hsorted ltac:(lia) Hr1)
      as (Hx1 & Ht1 & ->).
    destruct (ranked_saturation_value unique v2 s2 Hsorted ltac:(lia) Hr2)
      as (Hx2 & Ht2 & ->).
    pose proof (SearchInts_mono unique v1 v2 Hsorted ltac:(lia)) as Hm.
    pose proof (ranked_uint8_mono (SearchInts unique v1 + 1)
                  (SearchInts unique v2 + 1) (len unique)
                  ltac:(lia) ltac:(lia) ltac:(lia)) as Hmono.
    destruct (Z.eqb_spec (trunc_pair (ranked_pair (SearchInts unique v1 + 1)
                                        (len unique))) 0),
             (Z.eqb_spec (trunc_pair (ranked_pair (SearchInts unique v2 + 1)
                                        (len unique))) 0); lia.
  - intros ->. congruence.
Qed.

(** ** The linear saturation *)

Lemma to_uint8_range f : 0 <= to_uint8 f <= 255.
Proof.
  unfold to_uint8.
  pose proof (Z.mod_pos_bound (unrepresentable f) 256 ltac:(lia)).
  destruct (SFtrunc f) as [z|]; [|lia].
  destruct (Z.leb_spec 0 z), (Z.leb_spec z 255); simpl; lia.
Qed.

Lemma linear_saturation_range sorted v s :
  linear_saturation sorted v = Some s -> 1 <= s <= 255.
Proof.
  unfold linear_saturation. destruct (index _ _) as [top|]; simpl;
    [|discriminate].
  intros [= <-].
  match goal with |- context [to_uint8 ?f] => pose proof (to_uint8_range f) end.
  destruct (Z.eqb_spec (to_uint8
    (F32.mul (F32.of_int 255) (F32.div (F32.of_int v) (F32.of_int top)))) 0);
    lia.
Qed.

(** A count of 0 under a positive maximum: the quotient is 0, its product
    with 255 is 0, and the clamp makes the saturation 1. *)
Lemma linear_saturation_zero sorted top :
  0 < top <= max_int ->
  index sorted (int_sub (len sorted) 1) = Some top ->
  linear_saturation sorted 0 = Some 1.
Proof.
  intros Ht Hi. unfold linear_saturation. rewrite Hi. simpl.
  rewrite (F32_of_int_fin top Ht). reflexivity.
Qed.

Lemma sorted_last_ge (l : list Z) x t :
  StronglySorted Z.le l -> x ∈ l -> last l = Some t -> x <= t.
Proof.
  intros Hs Hx Hl. apply list_elem_of_lookup in Hx as [i Hi].
  rewrite last_lookup in Hl.
  apply (sorted_lookup_le l Hs i (pred (length l))); auto.
  apply lookup_lt_Some in Hi. lia.
Qed.

(** C1, as the code has it.  On a non-empty grid of counts with a positive
    count, computeSaturations completes and gives every cell of count 0
    the linear saturation 1: the clamp applies whenever the converted
    value is 0, whatever the count.  No cell has the linear saturation 0. *)
Theorem linear_saturation_of_empty_cell (hm : Heatmap) :
  0 < len (data hm) <= max_int ->
  Forall (fun v => 0 <= v <= max_int) (data hm) ->
  (exists v, v ∈ data hm /\ 0 < v) ->
  exists hm',
    computeSaturations hm = Some hm'
    /\ (forall i, data hm !! i = Some 0 ->
                  linearSaturations hm' !! i = Some 1)
    /\ (forall i s, linearSaturations hm' !! i = Some s -> 1 <= s <= 255).
Proof.
  intros Hlen Hd (vp & Hvp & Hpos).
  assert (Hnn : Forall (fun v => 0 <= v) (data hm)).
  { eapply Forall_impl; [exact Hd|]. simpl. lia. }
  destruct (computeSaturations_succeeds hm Hlen Hnn) as [hm' H].
  exists hm'. split; auto.
  destruct (computeSaturations_nonempty hm ltac:(lia)) as (sorted & Hl & Hlast & E).
  rewrite E in H. clear E.
  destruct (saturation_loop _ sorted (data hm)) as [[ls rs]|] eqn:Hloop;
    simpl in H; [|discriminate].
  injection H as <-. simpl.
  apply saturation_loop_lookup in Hloop as (Hls & _ & Hloop).
  destruct (linear_saturation_top sorted) as (top & Htop & Hidx).
  { unfold len in *. lia. }
  assert (Ht : 0 < top <= max_int).
  { rewrite Hlast in Htop.
    assert (Hin : top ∈ sort_Ints (data hm)).
    { rewrite last_lookup in Htop. apply list_elem_of_lookup. eauto. }
    split.
    - assert (Hvs : vp ∈ sort_Ints (data hm))
        by (rewrite sort_Ints_perm; auto).
      pose proof (sorted_last_ge (sort_Ints (data hm)) vp top
                    (sort_Ints_sorted _) Hvs Htop). lia.
    - rewrite sort_Ints_perm in Hin. rewrite Forall_forall in Hd.
      apply Hd in Hin. lia. }
  split.
  - intros i Hi. destruct (Hloop _ _ Hi) as (r & l & _ & Hlin & _ & Hli).
    rewrite (linear_saturation_zero sorted top Ht Hidx) in Hlin. congruence.
  - intros i s Hs.
    assert (Hlt : (i < length (data hm))%nat).
    { apply lookup_lt_Some in Hs. lia. }
    apply lookup_lt_is_Some in Hlt as [v Hv].
    destruct (Hloop _ _ Hv) as (r & l & _ & Hlin & _ & Hli).
    assert (l = s) by congruence. subst l.
    eapply linear_saturation_range; eauto.
Qed.

(** ** Layout: the pass before the hover returns *)

Lemma ranked_saturation_range unique v s :
  ranked_saturation unique v = Some s -> 1 <= s <= 255.
Proof.
  unfold ranked_saturation. cbv zeta.
  destruct (_ =? len unique); [discriminate|].
  intros [= <-].
  match goal with
  | |- context [to_uint8 ?f] =>
      pose proof (to_uint8_range f); destruct (Z.eqb_spec (to_uint8 f) 0)
  end; lia.
Qed.

Lemma computeSaturations_tables hm hm' :
  len (data hm) <> 0 -> computeSaturations hm = Some hm' ->
  len (linearSaturations hm') = len (data hm)
  /\ len (rankedSaturations hm') = len (data hm)
  /\ uint8_table (linearSaturations hm')
  /\ uint8_table (rankedSaturations hm').
Proof.
  intros Hne H.
  destruct (computeSaturations_nonempty hm Hne) as (sorted & _ & _ & E).
  rewrite E in H.
  destruct (saturation_loop _ sorted (data hm)) as [[ls rs]|] eqn:Hl;
    simpl in H; [|discriminate].
  injection H as <-. simpl.
  apply saturation_loop_lookup in Hl as (L1 & L2 & L3).
  unfold len, uint8_table. repeat split; try lia.
  - apply Forall_lookup. intros i x Hi.
    destruct (lookup_lt_is_Some_2 (data hm) i) as [v Hv].
    { rewrite <- L1. eapply lookup_lt_Some; eauto. }
    destruct (L3 i v Hv) as (r & l & _ & Hll & _ & Hls).
    rewrite Hls in Hi. injection Hi as <-.
    apply linear_saturation_range in Hll. lia.
  - apply Forall_lookup. intros i x Hi.
    destruct (lookup_lt_is_Some_2 (data hm) i) as [v Hv].
    { rewrite <- L2. eapply lookup_lt_Some; eauto. }
    destruct (L3 i v Hv) as (r & l & Hrr & _ & Hrs & _).
    rewrite Hrs in Hi. injection Hi as <-.
    apply ranked_saturation_range in Hrr. lia.
Qed.

Lemma computeSaturations_input hm hm' :
  computeSaturations hm = Some hm' ->
  MaxY hm' = MaxY hm /\ origData hm' = origData hm
  /\ (len (data hm) = 0 -> hm' = hm).
Proof.
  unfold computeSaturations. intros H.
  destruct (Z.eqb_spec (len (data hm)) 0).
  - injection H as <-. repeat split.
  - destruct (deduplicate _) as [sorted unique].
    destruct (saturation_loop _ _ _) as [[ls rs]|]; simpl in H; [|discriminate].
    injection H as <-. simpl. repeat split. contradiction.
Qed.

Lemma computeBuckets_grid hm hm' :
  regular_input hm -> samples (origData hm) <= max_int ->
  computeBuckets hm = Some hm' ->
  numYBuckets hm' = numYBuckets_of (MaxY hm) (YBucketSize hm)
  /\ len (data hm')
     = numXBuckets hm * numYBuckets_of (MaxY hm) (YBucketSize hm)
  /\ Forall (fun v => 0 <= v) (data hm')
  /\ MaxY hm' = MaxY hm /\ origData hm' = origData hm.
Proof.
  intros (Hybs & Hybsi & HnY & HnX & Hfit & Hrows) Hs H.
  unfold computeBuckets in H.
  destruct (make _) as [d0|] eqn:Hm; simpl in H; [|discriminate].
  destruct (bucket_rows _ _ _ d0) as [d|] eqn:Hr; simpl in H; [|discriminate].
  injection H as <-. simpl.
  apply make_Some in Hm as [Hm0 ->].
  assert (Hmul : int_mul (numXBuckets hm)
                   (numYBuckets_of (MaxY hm) (YBucketSize hm))
                 = numXBuckets hm * numYBuckets_of (MaxY hm) (YBucketSize hm)).
  { unfold int_mul. apply wrap_small. unfold is_int, min_int. nia. }
  rewrite Hmul in *.
  apply bucket_rows_total in Hr as (_ & Hnn & Hl).
  - repeat split; auto. rewrite Hl, len_replicate. lia.
  - apply Forall_nonneg_replicate.
  - rewrite total_replicate. lia.
Qed.

Lemma aggregable_ext hm hm' :
  MaxY hm' = MaxY hm -> YBucketSize hm' = YBucketSize hm ->
  origData hm' = origData hm -> aggregable hm -> aggregable hm'.
Proof.
  intros E1 E2 E3 (row0 & H0 & Hreg & Hs).
  exists row0. unfold regular_input in *.
  cbn [MaxY YBucketSize origData numXBuckets with_numXBuckets] in *.
  rewrite E1, E2, E3. auto.
Qed.

(** The re-aggregation of a well-formed state returns, with the grid in
    place. *)
Lemma refresh_returns hm key :
  well_formed hm ->
  xBucketSize key = XBucketSize hm -> yBucketSize key = YBucketSize hm ->
  exists hm1,
    refresh hm key = Some hm1
    /\ aggregated hm1
    /\ uint8_table (linearSaturations hm1)
    /\ uint8_table (rankedSaturations hm1)
    /\ MaxY hm1 = MaxY hm /\ origData hm1 = origData hm.
Proof.
  intros (Hl & Hr & (row0 & H0 & Hreg & Hs) & Hagg) Hx Hy.
  unfold refresh. rewrite Hx, Hy.
  destruct (orb _ _) eqn:Hb.
  - rewrite H0. simpl.
    destruct (computeBuckets_succeeds (with_numXBuckets hm (len row0)) Hs Hreg)
      as [hmb Hb1].
    rewrite Hb1. simpl.
    destruct (computeBuckets_grid _ _ Hreg Hs Hb1) as (G1 & G2 & G3 & G4 & G5).
    apply computeBuckets_fields in Hb1
      as (_ & _ & F0 & _ & _ & _ & _ & _ & F1 & F2).
    destruct Hreg as (_ & _ & HnY & HnX & Hfit & _).
    cbn [MaxY YBucketSize origData numXBuckets with_numXBuckets
         linearSaturations rankedSaturations] in *.
    destruct (Z.eq_dec (len (data hmb)) 0) as [Hz|Hnz].
    + exists hmb. split.
      { unfold computeSaturations. rewrite Hz. reflexivity. }
      unfold aggregated. rewrite G1, Hz, F0, F1, F2, G4.
      pose proof (len_nonneg (linearSaturations hm)).
      pose proof (len_nonneg (rankedSaturations hm)).
      unfold max_int. repeat split; auto; lia.
    + pose proof (len_nonneg (data hmb)).
      destruct (computeSaturations_succeeds hmb) as [hm1 H1]; [lia|auto|].
      exists hm1. split; [exact H1|].
      destruct (computeSaturations_tables _ _ Hnz H1) as (T1 & T2 & T3 & T4).
      destruct (computeSaturations_fields _ _ H1)
        as (_ & _ & S0 & _ & _ & _ & _ & _ & D & N).
      destruct (computeSaturations_input _ _ H1) as (I1 & I2 & _).
      unfold aggregated. rewrite D, N, T1, T2, G1, I1, I2, S0, F0, G4.
      repeat split; auto; lia.
  - exists hm. apply orb_false_iff in Hb as [Hb1 Hb2].
    apply negb_false_iff, Z.eqb_eq in Hb1, Hb2.
    split; [reflexivity|]. split; [apply Hagg; auto|]. auto.
Qed.

Lemma handle_moves_well_formed hm dims evs :
  well_formed hm -> well_formed (handle_moves hm dims evs).
Proof.
  intros (Hl & Hr & Ha & Hagg).
  destruct (handle_moves_fields hm dims evs)
    as (_ & M2 & M3 & M4 & _ & _ & M7 & M8 & M9 & M10 & M11 & M12).
  unfold well_formed, aggregated. rewrite M2, M3, M4, M7, M8, M9, M10, M12.
  split; [auto|]. split; [auto|].
  split; [apply (aggregable_ext hm); auto|]. exact Hagg.
Qed.

(** On a well-formed state the pass before the hover returns, and the state
    that it leaves is well formed with the grid in place. *)
Lemma layout_cache_returns hm gtx :
  well_formed hm ->
  exists hm' xs ys rb,
    layout_cache hm gtx = Some (hm', xs, ys, rb)
    /\ well_formed hm' /\ aggregated hm'.
Proof.
  intros Hwf. unfold layout_cache. cbv zeta.
  set (dims := ConstraintsMax gtx).
  rewrite (key_of_handle_moves hm dims (moves gtx)).
  pose proof (handle_moves_well_formed hm dims (moves gtx) Hwf) as Hwf0.
  destruct (handle_moves_fields hm dims (moves gtx))
    as (_ & M2 & M3 & _ & _ & _ & _ & _ & _ & _ & M11 & M12).
  set (hm0 := handle_moves hm dims (moves gtx)) in *.
  destruct (refresh_returns hm0 (key_of hm dims) Hwf0)
    as (hm1 & Hr & Hagg & Hl1 & Hr1 & I1 & I2); [simpl; auto..|].
  rewrite Hr. simpl.
  pose proof (refresh_fields _ _ _ Hr) as (_ & R2 & R3 & _).
  pose proof Hagg as Hagg1.
  destruct Hagg as (HnY & HnYe & Hlen & Hnn & Hcl & Hcr).
  unfold int_div. destruct (Z.eqb_spec (numYBuckets hm1) 0); [lia|]. simpl.
  pose proof (len_nonneg (data hm1)) as Hl0.
  assert (Hq : wrap (len (data hm1) ÷ numYBuckets hm1)
               = len (data hm1) / numYBuckets hm1).
  { rewrite Z.quot_div_nonneg by lia. apply wrap_small.
    assert (0 <= len (data hm1) / numYBuckets hm1) by (apply Z.div_pos; lia).
    assert (len (data hm1) / numYBuckets hm1 <= len (data hm1))
      by (apply Z.div_le_upper_bound; nia).
    unfold is_int, min_int. lia. }
  rewrite Hq. set (numX := len (data hm1) / numYBuckets hm1).
  assert (Hd : drawable hm1 numX).
  { unfold drawable, active_saturations. repeat split.
    - apply Z.div_pos; lia.
    - lia.
    - unfold numX. rewrite Z.mul_comm. apply Z.mul_div_le. lia.
    - lia.
    - destruct (UseLinearColors hm1); lia.
    - destruct (UseLinearColors hm1); auto. }
  assert (Ha : aggregable hm1).
  { destruct Hwf0 as (_ & _ & Ha & _).
    apply (aggregable_ext hm0); auto. }
  unfold geometry. case_bool_decide as Hk.
  - simpl. exists hm1. do 3 eexists. split; [reflexivity|].
    unfold well_formed. auto 10.
  - destruct (rebuild_succeeds hm1 dims numX
                (F32.div (F32.of_int (pX dims)) (F32.of_int numX))
                (F32.div (F32.of_int (pY dims))
                         (F32.of_int (numYBuckets hm1))) Hd) as [ops ->].
    simpl. eexists. do 3 eexists. split; [reflexivity|].
    unfold well_formed. split; [|exact Hagg1].
    split; [simpl; auto|]. split; [simpl; auto|].
    split; [apply (aggregable_ext hm1); auto|]. intros _ _. exact Hagg1.
Qed.

(** X9.  On a well-formed state, Layout returns whenever the guard of the
    hover rejects the pointer, and the state that it leaves is well formed:
    any sequence of such layout passes returns. *)
Theorem Layout_returns hm gtx :
  well_formed hm ->
  hover_valid (handle_moves hm (ConstraintsMax gtx) (moves gtx))
    (ConstraintsMax gtx) = false ->
  exists hm' ops rb, Layout hm gtx = Some (hm', ops, rb) /\ well_formed hm'.
Proof.
  intros Hwf Hh.
  destruct (layout_cache_returns hm gtx Hwf)
    as (hm2 & xs & ys & rb & Hc & Hwf2 & _).
  unfold Layout. rewrite Hc. simpl.
  assert (Hv : hover_valid hm2 (ConstraintsMax gtx) = false).
  { rewrite <- Hh.
    apply layout_cache_inv in Hc as (hm1 & numX & Hr & _ & _ & _ & Hg).
    apply refresh_fields in Hr as (_ & _ & _ & _ & _ & _ & P1 & P2).
    unfold hover_valid.
    apply geometry_inv in Hg as [(_ & -> & _)|(_ & _ & ops & _ & ->)];
      simpl; rewrite P1, P2; reflexivity. }
  unfold hover. rewrite Hv. simpl.
  do 3 eexists. split; [reflexivity|].
  destruct Hwf2 as (H1 & H2 & H3 & H4).
  unfold well_formed.
  split; [simpl; auto|]. split; [simpl; auto|].
  split; [apply (aggregable_ext hm2); auto|]. exact H4.
Qed.

(** The state that SetData leaves is well formed when the new series can
    be aggregated: the key is reset, so the next Layout re-aggregates. *)
Lemma SetData_well_formed hm d hm' :
  SetData hm d = Some hm' ->
  uint8_table (linearSaturations hm) -> uint8_table (rankedSaturations hm) ->
  aggregable hm' -> well_formed hm'.
Proof.
  unfold SetData. intros H Hl Hr Ha.
  destruct (d !! 0%nat) as [row0|]; simpl in H; [|discriminate].
  injection H as <-.
  unfold well_formed.
  split; [simpl; auto|]. split; [simpl; auto|]. split; [exact Ha|].
  destruct Ha as (r0 & _ & (Hy & _) & _). simpl in *. lia.
Qed.

(** ** float64 and the number of Y buckets *)

Lemma rne_lower N D : 0 < D -> 2 * N - D <= 2 * (D * rne N D).
Proof.
  intros HD. pose proof (Z.div_mod N D ltac:(lia)) as E.
  pose proof (Z.mod_pos_bound N D HD) as Hr.
  unfold rne, loc_of, round_nearest_even.
  destruct (Z.eqb_spec (N mod D) 0); [nia|].
  destruct (Z.compare_spec (2 * (N mod D)) D); [|nia|nia].
  destruct (Z.even (N / D)); nia.
Qed.

(** An integer below [2 ^ prec] converts without rounding. *)
Lemma rnd_int_exact prec z :
  0 < prec -> 0 < z < 2 ^ prec ->
  rnd prec (z * 2 ^ prec) 1 (- prec)
  = (z * 2 ^ (prec - Zdigits2 z), Zdigits2 z - prec).
Proof.
  intros Hp [Hz Hzp].
  pose proof (Zdigits2_bounds z Hz) as [Bl Bu].
  pose proof (Zdigits2_pos z Hz) as Hd0.
  assert (Hd : Zdigits2 z <= prec) by (apply Zdigits2_le; auto).
  unfold rnd. rewrite Z.div_1_r, Zdigits2_shift by lia.
  replace (Z.max 0 (Zdigits2 z + prec - prec)) with (Zdigits2 z) by lia.
  rewrite Z.mul_1_l.
  assert (E : z * 2 ^ prec = z * 2 ^ (prec - Zdigits2 z) * 2 ^ Zdigits2 z).
  { rewrite <- Z.mul_assoc, <- Z.pow_add_r by lia. do 2 f_equal. lia. }
  assert (H2d : 0 < 2 ^ Zdigits2 z) by (apply Z.pow_pos_nonneg; lia).
  assert (Hr : rne (z * 2 ^ prec) (2 ^ Zdigits2 z)
               = z * 2 ^ (prec - Zdigits2 z)).
  { rewrite E. rewrite rne_exact by (try lia; apply Z.mod_mul; lia).
    apply Z.div_mul. lia. }
  rewrite Hr.
  assert (Hlt : z * 2 ^ (prec - Zdigits2 z) < 2 ^ prec).
  { assert (E2 : 2 ^ prec = 2 ^ Zdigits2 z * 2 ^ (prec - Zdigits2 z)).
    { rewrite <- Z.pow_add_r by lia. f_equal. lia. }
    assert (0 < 2 ^ (prec - Zdigits2 z)) by (apply Z.pow_pos_nonneg; lia).
    rewrite E2. nia. }
  destruct (Z.eqb_spec (z * 2 ^ (prec - Zdigits2 z)) (2 ^ prec)); [lia|].
  f_equal. lia.
Qed.

Lemma ceil_neg_div m P C : 0 < P -> (C - 1) * P < m <= C * P -> - (- m / P) = C.
Proof.
  intros HP [Hl Hu].
  assert (- m / P = - C); [|lia].
  symmetry. apply (Z.div_unique (- m) P (- C) (C * P - m)); lia.
Qed.

(** The ceiling of a rounded quotient [a / b]: the rounding error is too
    small to cross an integer when [a] has at most [prec] digits. *)
Lemma rnd_ceil prec N D e a b C :
  0 < prec -> 0 < D -> 2 ^ (prec - 1) <= N / D ->
  let n := Zdigits2 (N / D) - prec in
  let s := - (e + n) in
  0 <= s -> 0 < b -> 0 < a < 2 ^ prec ->
  N * b = a * (D * 2 ^ n) * 2 ^ s ->
  (C - 1) * b < a <= C * b ->
  let p := rnd prec N D e in
  SFceilZ false (Z.to_pos (fst p)) (snd p) = C.
Proof.
  intros Hp HD Hq n s Hs Hb Ha Hval HC.
  destruct (pow_prec_pos prec Hp) as [Hpp Hp2].
  destruct (rnd_core prec Hp N D HD Hq) as (Hn & Hn0 & Hb').
  cbv zeta. unfold rnd. rewrite Hn in Hn0, Hb' |- *. fold n in Hn0, Hb' |- *.
  assert (H2n : 0 < 2 ^ n) by (apply Z.pow_pos_nonneg; lia).
  assert (H2s : 0 < 2 ^ s) by (apply Z.pow_pos_nonneg; lia).
  set (D' := D * 2 ^ n) in *.
  assert (HD' : 0 < D') by (unfold D'; nia).
  set (m0 := rne N D').
  pose proof (rne_bounds N D' HD') as Rb. fold m0 in Rb.
  pose proof (rne_lower N D' HD') as Rl. fold m0 in Rl.
  assert (HN : 0 < N).
  { destruct (Z.lt_ge_cases 0 N); auto.
    assert (N / D <= 0) by (apply Z.div_le_upper_bound; nia). lia. }
  (* the upper bound *)
  assert (Hup : m0 <= C * 2 ^ s).
  { assert (HNle : N <= C * 2 ^ s * D').
    { assert (N * b <= C * 2 ^ s * D' * b); [|nia].
      rewrite Hval.
      replace (C * 2 ^ s * D' * b) with ((C * b) * (D' * 2 ^ s)) by ring.
      replace (a * D' * 2 ^ s) with (a * (D' * 2 ^ s)) by ring.
      apply Z.mul_le_mono_nonneg_r; nia. }
    pose proof (rne_mono N (C * 2 ^ s * D') D' HD' HNle) as Hm.
    rewrite (rne_exact (C * 2 ^ s * D')) in Hm
      by (try lia; apply Z.mod_mul; lia).
    rewrite Z.div_mul in Hm by lia. exact Hm. }
  (* the lower bound *)
  assert (Hlow : (C - 1) * 2 ^ s < m0).
  { assert (HDN : D' * 2 ^ (prec - 1) <= N).
    { apply Z.le_trans with (D' * (N / D'));
        [apply Z.mul_le_mono_nonneg_l; lia | apply Z.mul_div_le; lia]. }
    assert (H1 : N * (2 ^ prec - 1) <= m0 * D' * 2 ^ prec).
    { assert (2 ^ (prec - 1) * (2 * N - D')
              <= 2 ^ (prec - 1) * (2 * (D' * m0)))
        by (apply Z.mul_le_mono_nonneg_l; lia).
      rewrite Hp2. lia. }
    assert (H2 : a * 2 ^ s * (2 ^ prec - 1) <= m0 * b * 2 ^ prec).
    { assert (D' * (a * 2 ^ s * (2 ^ prec - 1)) <= D' * (m0 * b * 2 ^ prec));
        [|apply Z.mul_le_mono_pos_l in H; auto].
      replace (D' * (a * 2 ^ s * (2 ^ prec - 1)))
        with ((a * D' * 2 ^ s) * (2 ^ prec - 1)) by ring.
      rewrite <- Hval.
      replace (D' * (m0 * b * 2 ^ prec)) with ((m0 * D' * 2 ^ prec) * b) by ring.
      replace (N * b * (2 ^ prec - 1)) with ((N * (2 ^ prec - 1)) * b) by ring.
      apply Z.mul_le_mono_nonneg_r; lia. }
    assert (H3 : (C - 1) * b * 2 ^ s * 2 ^ prec < m0 * b * 2 ^ prec).
    { assert ((C - 1) * b * 2 ^ s * 2 ^ prec
              <= (a - 1) * 2 ^ s * 2 ^ prec).
      { apply Z.mul_le_mono_nonneg_r; [lia|].
        apply Z.mul_le_mono_nonneg_r; lia. }
      assert ((a - 1) * 2 ^ s * 2 ^ prec < a * 2 ^ s * (2 ^ prec - 1)); [|lia].
      assert (a * 2 ^ s < 2 ^ prec * 2 ^ s)
        by (apply Z.mul_lt_mono_pos_r; lia).
      nia. }
    assert (H4 : (C - 1) * 2 ^ s * (b * 2 ^ prec) < m0 * (b * 2 ^ prec))
      by (replace ((C - 1) * 2 ^ s * (b * 2 ^ prec))
            with ((C - 1) * b * 2 ^ s * 2 ^ prec) by ring;
          replace (m0 * (b * 2 ^ prec)) with (m0 * b * 2 ^ prec) by ring;
          exact H3).
    apply Z.mul_lt_mono_pos_r in H4; auto. nia. }
  assert (HCa : C <= a) by nia.
  assert (Hm0 : 0 < m0) by lia.
  assert (He : e + n = - s) by (unfold s; lia).
  destruct (Z.eqb_spec m0 (2 ^ prec)) as [Hc|Hc]; cbn [fst snd].
  - (* the mantissa was rounded up to the next power of two *)
    destruct (Z.eq_dec s 0) as [Hs0|Hs0].
    { rewrite Hs0, Z.pow_0_r in Hup. lia. }
    assert (Hs1 : 2 ^ s = 2 * 2 ^ (s - 1)).
    { rewrite <- Z.pow_succ_r by lia. f_equal. lia. }
    assert (0 < 2 ^ (s - 1)) by (apply Z.pow_pos_nonneg; lia).
    unfold SFceilZ.
    destruct (e + n + 1) as [|k|k] eqn:Ek; try lia;
      rewrite Z2Pos.id by lia.
    + assert (Hs1' : s - 1 = 0) by lia. rewrite Hs1' in *.
      rewrite ?Z.pow_0_r in *. simpl cond_Zopp. lia.
    + assert (Hk : Z.pos k = s - 1) by lia. rewrite Hk.
      apply ceil_neg_div; lia.
  - unfold SFceilZ.
    destruct (e + n) as [|k|k] eqn:Ek; try lia;
      rewrite Z2Pos.id by lia.
    + assert (Hs0 : s = 0) by lia. rewrite Hs0 in *.
      rewrite ?Z.pow_0_r in *. simpl cond_Zopp. lia.
    + assert (Hk : Z.pos k = s) by lia. rewrite Hk.
      apply ceil_neg_div; lia.
Qed.

Lemma canon_shift prec z :
  0 < prec -> 0 < z < 2 ^ prec -> canon prec (z * 2 ^ (prec - Zdigits2 z)).
Proof.
  intros Hp [Hz Hzp].
  pose proof (Zdigits2_bounds z Hz) as [Bl Bu].
  pose proof (Zdigits2_pos z Hz) as Hd0.
  assert (Hd : Zdigits2 z <= prec) by (apply Zdigits2_le; auto).
  assert (H2 : 0 < 2 ^ (prec - Zdigits2 z)) by (apply Z.pow_pos_nonneg; lia).
  assert (E1 : 2 ^ (prec - 1) = 2 ^ (Zdigits2 z - 1) * 2 ^ (prec - Zdigits2 z)).
  { rewrite <- Z.pow_add_r by lia. f_equal. lia. }
  assert (E2 : 2 ^ prec = 2 ^ Zdigits2 z * 2 ^ (prec - Zdigits2 z)).
  { rewrite <- Z.pow_add_r by lia. f_equal. lia. }
  unfold canon. rewrite E1, E2. nia.
Qed.

Lemma F64_of_int_exact z :
  0 < z < 2 ^ 53 ->
  F64.of_int z = fin (z * 2 ^ (53 - Zdigits2 z)) (Zdigits2 z - 53).
Proof.
  intros Hz. unfold F64.of_int.
  assert (Hd : Zdigits2 z <= 53) by (apply Zdigits2_le; lia).
  rewrite (of_int_canon F64.prec F64.emax) by (unfold F64.prec, F64.emax; lia).
  unfold F64.prec. rewrite rnd_int_exact by lia. reflexivity.
Qed.

Lemma to_int_of_exact z :
  0 < z < 2 ^ 53 ->
  to_int (fin (z * 2 ^ (53 - Zdigits2 z)) (Zdigits2 z - 53)) = z.
Proof.
  intros Hz.
  pose proof (Zdigits2_pos z ltac:(lia)) as Hd0.
  assert (Hd : Zdigits2 z <= 53) by (apply Zdigits2_le; lia).
  assert (H2 : 0 < 2 ^ (53 - Zdigits2 z)) by (apply Z.pow_pos_nonneg; lia).
  unfold to_int.
  change (fin (z * 2 ^ (53 - Zdigits2 z)) (Zdigits2 z - 53))
    with (fin_of (z * 2 ^ (53 - Zdigits2 z), Zdigits2 z - 53)).
  rewrite SFtrunc_fin by (simpl; nia).
  assert (Ht : trunc_pair (z * 2 ^ (53 - Zdigits2 z), Zdigits2 z - 53) = z).
  { unfold trunc_pair. cbn [fst snd].
    destruct (Zdigits2 z - 53) as [|k|k] eqn:Ek; try lia.
    - replace (53 - Zdigits2 z) with 0 by lia. rewrite !Z.pow_0_r. lia.
    - replace (53 - Zdigits2 z) with (Z.pos k) by lia.
      apply Z.div_mul. apply Z.pow_nonzero; lia. }
  rewrite Ht.
  destruct (Z.leb_spec min_int z), (Z.leb_spec z max_int); simpl;
    unfold min_int, max_int in *; lia.
Qed.

(** Below [2 ^ 53] the float64 computation of the number of Y buckets is
    the exact ceiling of [MaxY / YBucketSize]. *)
Lemma numYBuckets_of_exact a b :
  0 < a < 2 ^ 53 -> 0 < b < 2 ^ 53 ->
  numYBuckets_of a b = (a + b - 1) / b.
Proof.
  intros Ha Hb. unfold numYBuckets_of.
  rewrite (F64_of_int_exact a Ha), (F64_of_int_exact b Hb).
  pose proof (canon_shift 53 a ltac:(lia) Ha) as Ca.
  pose proof (canon_shift 53 b ltac:(lia) Hb) as Cb.
  pose proof (Zdigits2_pos a ltac:(lia)) as Hda0.
  pose proof (Zdigits2_pos b ltac:(lia)) as Hdb0.
  assert (Hda : Zdigits2 a <= 53) by (apply Zdigits2_le; lia).
  assert (Hdb : Zdigits2 b <= 53) by (apply Zdigits2_le; lia).
  set (ma := a * 2 ^ (53 - Zdigits2 a)) in *.
  set (mb := b * 2 ^ (53 - Zdigits2 b)) in *.
  unfold F64.div.
  rewrite (SFdiv_canon F64.prec F64.emax)
    by (auto; unfold F64.prec, F64.emax, emin; lia).
  unfold F64.prec.
  set (e := Zdigits2 a - 53 - (Zdigits2 b - 53) - 53).
  set (C := (a + b - 1) / b).
  assert (HC : (C - 1) * b < a <= C * b).
  { pose proof (Z.div_mod (a + b - 1) b ltac:(lia)) as E.
    pose proof (Z.mod_pos_bound (a + b - 1) b ltac:(lia)) as Hr.
    fold C in E. nia. }
  assert (HC1 : 0 < C < 2 ^ 53) by nia.
  unfold canon in Ca, Cb.
  assert (Hq : 2 ^ (53 - 1) <= ma * 2 ^ 53 / mb).
  { apply Z.div_le_lower_bound; lia. }
  assert (Hdq1 : Zdigits2 (ma * 2 ^ 53 / mb) <= 54).
  { apply Zdigits2_le; [lia|]. apply Z.div_lt_upper_bound; lia. }
  assert (Hdq2 : 53 <= Zdigits2 (ma * 2 ^ 53 / mb)).
  { apply Zdigits2_ge; lia. }
  pose proof (rnd_ceil 53 (ma * 2 ^ 53) mb e a b C ltac:(lia) ltac:(lia) Hq)
    as Hceil.
  cbv zeta in Hceil.
  set (n := Zdigits2 (ma * 2 ^ 53 / mb) - 53) in *.
  assert (Hs : 0 <= - (e + n)) by (unfold e; lia).
  assert (Hval : ma * 2 ^ 53 * b = a * (mb * 2 ^ n) * 2 ^ (- (e + n))).
  { unfold ma, mb.
    assert (E : 2 ^ (53 - Zdigits2 b) * 2 ^ n * 2 ^ (- (e + n))
                = 2 ^ (53 - Zdigits2 a) * 2 ^ 53).
    { rewrite <- !Z.pow_add_r by lia. f_equal. unfold e. lia. }
    replace (a * (b * 2 ^ (53 - Zdigits2 b) * 2 ^ n) * 2 ^ (- (e + n)))
      with (a * b * (2 ^ (53 - Zdigits2 b) * 2 ^ n * 2 ^ (- (e + n)))) by ring.
    rewrite E. ring. }
  specialize (Hceil Hs ltac:(lia) Ha Hval HC).
  unfold fin_of, fin, Ceil. rewrite Hceil.
  fold (F64.of_int C). rewrite (F64_of_int_exact C HC1).
  apply to_int_of_exact; auto.
Qed.

(** C4, as the code has it.  The bin of a sample [v >= 0] under a positive
    bucket size and at least one Y bucket is in [0, numYBuckets - 1].
    When MaxY and the bucket size are below [2 ^ 53], where float64
    computes the number of Y buckets without error, a sample equal to MaxY
    or above it is assigned the last bin, [numYBuckets - 1]. *)
Theorem bin_of_sample maxY ybs v :
  0 <= v <= max_int -> 0 < ybs -> 1 <= numYBuckets_of maxY ybs ->
  exists bin,
    bin_of ybs (numYBuckets_of maxY ybs) v = Some bin
    /\ 0 <= bin <= numYBuckets_of maxY ybs - 1
    /\ (0 < maxY < 2 ^ 53 -> ybs < 2 ^ 53 -> maxY <= v ->
        bin = numYBuckets_of maxY ybs - 1).
Proof.
  intros Hv Hybs HnY.
  rewrite bin_of_spec by (auto using numYBuckets_of_is_int).
  eexists. split; [reflexivity|].
  assert (0 <= v / ybs) by (apply Z.div_pos; lia).
  split; [lia|].
  intros HmaxY Hyb Hge.
  rewrite numYBuckets_of_exact by lia.
  assert (Hq : maxY / ybs <= v / ybs) by (apply Z.div_le_mono; lia).
  assert (Hc : (maxY + ybs - 1) / ybs - 1 <= maxY / ybs).
  { replace (maxY + ybs - 1) with (maxY - 1 + 1 * ybs) by lia.
    rewrite Z.div_add by lia.
    assert ((maxY - 1) / ybs <= maxY / ybs) by (apply Z.div_le_mono; lia).
    lia. }
  lia.
Qed.

(** * Further properties *)

(** ** computeBuckets: the count of each cell *)

Lemma sample_hits_nil ybs numY i0 i b : sample_hits ybs numY [] i0 i b = false.
Proof. unfold sample_hits. rewrite lookup_nil. reflexivity. Qed.

Lemma sample_hits_before ybs numY xs i0 i b :
  i < i0 -> sample_hits ybs numY xs i0 i b = false.
Proof.
  intros H. unfold sample_hits. destruct (xs !! _); [|reflexivity].
  destruct (Z.leb_spec i0 i); [lia|reflexivity].
Qed.

Lemma sample_hits_cons ybs numY y xs i0 i b :
  sample_hits ybs numY (y :: xs) i0 i b
  = if i =? i0 then bin_index ybs numY y =? b
    else sample_hits ybs numY xs (i0 + 1) i b.
Proof.
  destruct (Z.eqb_spec i i0) as [->|Hne].
  - unfold sample_hits. rewrite Z.sub_diag. simpl. rewrite Z.leb_refl.
    reflexivity.
  - destruct (Z.leb_spec i0 i) as [Hle|Hlt].
    + unfold sample_hits.
      replace (Z.to_nat (i - i0)) with (S (Z.to_nat (i - (i0 + 1)))) by lia.
      simpl. destruct (xs !! _); [|reflexivity].
      destruct (Z.leb_spec i0 i), (Z.leb_spec (i0 + 1) i);
        try lia; reflexivity.
    + rewrite (sample_hits_before _ _ xs (i0 + 1)) by lia.
      apply sample_hits_before. lia.
Qed.

Lemma bucket_row_cells ybs numY numX xs :
  0 < ybs -> 1 <= numY -> is_int numY -> numX * numY <= max_int ->
  forall i0 d d',
    Forall (fun y => 0 <= y <= max_int) xs ->
    0 <= i0 -> i0 + len xs <= numX -> len d = numX * numY ->
    Forall (fun x => 0 <= x) d -> total d + len xs <= max_int ->
    bucket_row ybs numY i0 xs d = Some d' ->
    forall i b c, 0 <= i < numX -> 0 <= b < numY ->
      d !! Z.to_nat (i * numY + b) = Some c ->
      d' !! Z.to_nat (i * numY + b)
      = Some (c + Z.b2z (sample_hits ybs numY xs i0 i b)).
Proof.
  intros Hybs HnY HnYi Hfit.
  induction xs as [|y xs IH]; intros i0 d d' Hxs Hi0 Hlen Hd Hnn Hsum H
    i b c Hi Hb Hc; simpl in H.
  - injection H as <-. rewrite sample_hits_nil. simpl.
    rewrite Z.add_0_r. exact Hc.
  - rewrite len_cons in *. pose proof (len_nonneg xs).
    apply Forall_cons in Hxs as [Hy Hxs].
    rewrite bin_of_spec in H by auto. simpl in H.
    fold (bin_index ybs numY y) in H.
    set (bin := bin_index ybs numY y) in *.
    assert (Hbin : 0 <= bin <= numY - 1).
    { unfold bin, bin_index.
      assert (0 <= y / ybs) by (apply Z.div_pos; lia). lia. }
    assert (Hidx : int_add (int_mul i0 numY) bin = i0 * numY + bin).
    { unfold int_add, int_mul.
      rewrite (wrap_small (i0 * numY))
        by (unfold is_int, min_int, max_int in *; nia).
      apply wrap_small. unfold is_int, min_int, max_int in *. nia. }
    rewrite Hidx in H.
    destruct (index d _) as [c0|] eqn:Hc0; simpl in H; [|discriminate].
    destruct (store d _ _) as [d1|] eqn:Hs; simpl in H; [|discriminate].
    apply store_Some in Hs as [Hin ->].
    apply index_Some in Hc0 as [_ Hc0].
    pose proof (total_lookup_le _ _ _ Hnn Hc0) as Hcb.
    assert (Hadd : int_add c0 1 = c0 + 1).
    { unfold int_add. apply wrap_small. unfold is_int, min_int. lia. }
    rewrite Hadd in H.
    assert (IH' : forall c1,
               <[Z.to_nat (i0 * numY + bin) := c0 + 1]> d
                 !! Z.to_nat (i * numY + b) = Some c1 ->
               d' !! Z.to_nat (i * numY + b)
               = Some (c1 + Z.b2z (sample_hits ybs numY xs (i0 + 1) i b))).
    { intros c1 Hc1.
      apply (IH (i0 + 1) (<[Z.to_nat (i0 * numY + bin) := c0 + 1]> d) d');
        auto; try lia.
      - rewrite len_insert. auto.
      - apply Forall_nonneg_insert; auto; lia.
      - rewrite (total_insert _ _ _ _ Hc0). lia. }
    rewrite sample_hits_cons. fold bin.
    destruct (Z.eqb_spec i i0) as [->|Hne].
    + rewrite (sample_hits_before _ _ xs (i0 + 1) i0 b) in IH' by lia.
      destruct (Z.eqb_spec bin b) as [<-|Hnb]; simpl.
      * rewrite Hc0 in Hc. injection Hc as <-.
        rewrite (IH' (c0 + 1)); [f_equal; simpl; lia|].
        apply list_lookup_insert_eq. apply lookup_lt_Some in Hc0. lia.
      * rewrite (IH' c); [f_equal; simpl; lia|].
        rewrite list_lookup_insert_ne by lia. exact Hc.
    + apply IH'. rewrite list_lookup_insert_ne by nia. exact Hc.
Qed.

Lemma bucket_rows_cells ybs numY numX rows :
  0 < ybs -> 1 <= numY -> is_int numY -> numX * numY <= max_int ->
  forall d d',
    Forall (fun row => len row <= numX
                       /\ Forall (fun y => 0 <= y <= max_int) row) rows ->
    len d = numX * numY ->
    Forall (fun x => 0 <= x) d -> total d + samples rows <= max_int ->
    bucket_rows ybs numY rows d = Some d' ->
    forall i b c, 0 <= i < numX -> 0 <= b < numY ->
      d !! Z.to_nat (i * numY + b) = Some c ->
      d' !! Z.to_nat (i * numY + b)
      = Some (c + cell_samples ybs numY rows i b).
Proof.
  intros Hybs HnY HnYi Hfit.
  induction rows as [|r rows IH]; intros d d' Hrows Hlen Hnn Hsum H
    i b c Hi Hb Hc; simpl in H.
  - injection H as <-. unfold cell_samples, len. simpl.
    rewrite Z.add_0_r. exact Hc.
  - apply Forall_cons in Hrows as [[Hr1 Hr2] Hrows].
    assert (Hs : samples (r :: rows) = len r + samples rows).
    { unfold samples, len. simpl. rewrite length_app. lia. }
    rewrite Hs in *.
    assert (0 <= samples rows) by apply len_nonneg.
    destruct (bucket_row ybs numY 0 r d) as [d1|] eqn:Hd1; simpl in H;
      [|discriminate].
    pose proof (bucket_row_cells ybs numY numX r Hybs HnY HnYi Hfit 0 d d1
                  Hr2 ltac:(lia) ltac:(lia) Hlen Hnn ltac:(lia) Hd1
                  i b c Hi Hb Hc) as Hcell.
    apply bucket_row_total in Hd1 as (Ht & Hf & Hl); auto; [|lia].
    rewrite (IH d1 d' Hrows ltac:(lia) Hf ltac:(lia) H i b _ Hi Hb Hcell).
    f_equal. unfold cell_samples, len. simpl.
    destruct (sample_hits ybs numY r 0 i b); simpl; lia.
Qed.

(** X1.  On a well-formed input computeBuckets leaves a grid of
    [numXBuckets * numYBuckets] cells, laid out column by column, in which
    the cell of X bucket [i] and bin [b] holds the number of series whose
    sample of X bucket [i] falls in bin [b]. *)
Theorem computeBuckets_cells (hm hm' : Heatmap) :
  regular_input hm -> samples (origData hm) <= max_int ->
  computeBuckets hm = Some hm' ->
  let numY := numYBuckets_of (MaxY hm) (YBucketSize hm) in
  numYBuckets hm' = numY
  /\ len (data hm') = numXBuckets hm * numY
  /\ forall i b, 0 <= i < numXBuckets hm -> 0 <= b < numY ->
       index (data hm') (i * numY + b)
       = Some (cell_samples (YBucketSize hm) numY (origData hm) i b).
Proof.
  intros Hreg Hs H numY.
  destruct (computeBuckets_grid hm hm' Hreg Hs H) as (G1 & G2 & _).
  split; [exact G1|]. split; [exact G2|].
  destruct Hreg as (Hybs & Hybsi & HnY & HnX & Hfit & Hrows).
  fold numY in HnY, Hfit.
  unfold computeBuckets in H. fold numY in H.
  assert (Hmul : int_mul (numXBuckets hm) numY = numXBuckets hm * numY).
  { unfold int_mul. apply wrap_small. unfold is_int, min_int. nia. }
  rewrite Hmul in H.
  destruct (make _) as [d0|] eqn:Hm; simpl in H; [|discriminate].
  destruct (bucket_rows _ _ _ d0) as [d|] eqn:Hr; simpl in H; [|discriminate].
  injection H as <-. simpl.
  apply make_Some in Hm as [Hm0 ->].
  intros i b Hi Hb.
  assert (Hk : 0 <= i * numY + b < numXBuckets hm * numY) by nia.
  apply index_Some. split; [lia|].
  assert (Hl0 : len (replicate (Z.to_nat (numXBuckets hm * numY)) 0)
                = numXBuckets hm * numY) by (rewrite len_replicate; lia).
  assert (Ht0 : total (replicate (Z.to_nat (numXBuckets hm * numY)) 0)
                + samples (origData hm) <= max_int)
    by (rewrite total_replicate; lia).
  rewrite (bucket_rows_cells (YBucketSize hm) numY (numXBuckets hm)
             (origData hm) Hybs HnY (numYBuckets_of_is_int _ _) Hfit
             _ d Hrows Hl0 (Forall_nonneg_replicate _) Ht0 Hr i b 0 Hi Hb).
  - reflexivity.
  - apply lookup_replicate_2. lia.
Qed.

(** ** computeBuckets: the inputs on which it panics *)

Lemma bucket_rows_zero_size numY rows :
  forall d, 0 < samples rows -> bucket_rows 0 numY rows d = None.
Proof.
  induction rows as [|r rows IH]; intros d Hs.
  - unfold samples, len in Hs. simpl in Hs. lia.
  - simpl. destruct r as [|y r]; simpl.
    + apply IH. exact Hs.
    + reflexivity.
Qed.

(** X2.  With a Y bucket size of 0, computeBuckets panics as soon as the
    raw series hold one sample (the integer division of line 70). *)
Theorem computeBuckets_zero_bucket_size (hm : Heatmap) :
  YBucketSize hm = 0 -> 0 < samples (origData hm) ->
  computeBuckets hm = None.
Proof.
  intros Hy Hs. unfold computeBuckets. rewrite Hy.
  destruct (make _) as [d0|]; simpl; [|reflexivity].
  rewrite bucket_rows_zero_size by exact Hs. reflexivity.
Qed.

Lemma wrap_cases z : 0 <= z < 2 ^ 64 -> wrap z = z \/ wrap z < 0.
Proof.
  intros Hz. unfold wrap.
  destruct (Z_lt_le_dec (z + 2 ^ 63) (2 ^ 64)) as [Hlt|Hge].
  - left. rewrite Z.mod_small by lia. lia.
  - right.
    replace ((z + 2 ^ 63) mod 2 ^ 64) with (z + 2 ^ 63 - 2 ^ 64); [lia|].
    apply (Z.mod_unique _ _ 1); lia.
Qed.

Lemma bucket_row_fits ybs numY numX xs :
  0 < ybs -> 1 <= numY -> is_int numY -> numX * numY <= max_int ->
  forall i0 d d',
    Forall (fun y => 0 <= y <= max_int) xs ->
    0 <= i0 <= numX -> len d = numX * numY ->
    bucket_row ybs numY i0 xs d = Some d' ->
    i0 + len xs <= numX /\ len d' = len d.
Proof.
  intros Hybs HnY HnYi Hfit.
  induction xs as [|y xs IH]; intros i0 d d' Hxs Hi0 Hlen H; simpl in H.
  - injection H as <-. unfold len at 1. simpl. lia.
  - rewrite len_cons. pose proof (len_nonneg xs).
    apply Forall_cons in Hxs as [Hy Hxs].
    rewrite bin_of_spec in H by auto. simpl in H.
    set (bin := Z.min (y / ybs) (numY - 1)) in *.
    assert (Hbin : 0 <= bin <= numY - 1).
    { unfold bin. assert (0 <= y / ybs) by (apply Z.div_pos; lia). lia. }
    destruct (index d _) as [c0|] eqn:Hc0; simpl in H; [|discriminate].
    destruct (store d _ _) as [d1|] eqn:Hs; simpl in H; [|discriminate].
    apply store_Some in Hs as [_ ->].
    apply index_bound in Hc0.
    assert (Hlt : i0 < numX).
    { unfold int_add, int_mul in Hc0.
      rewrite (wrap_small (i0 * numY)) in Hc0
        by (unfold is_int, min_int, max_int in *; nia).
      destruct (wrap_cases (i0 * numY + bin)) as [E|E].
      - unfold is_int, min_int, max_int in *. nia.
      - rewrite E in Hc0. nia.
      - lia. }
    apply IH in H; auto; [|lia|rewrite len_insert; auto].
    rewrite len_insert in H. lia.
Qed.

Lemma bucket_rows_fit ybs numY numX rows :
  0 < ybs -> 1 <= numY -> is_int numY -> 0 <= numX ->
  numX * numY <= max_int ->
  forall d d',
    Forall (Forall (fun y => 0 <= y <= max_int)) rows ->
    len d = numX * numY ->
    bucket_rows ybs numY rows d = Some d' ->
    Forall (fun row => len row <= numX) rows.
Proof.
  intros Hybs HnY HnYi HnX Hfit.
  induction rows as [|r rows IH]; intros d d' Hrows Hlen H; simpl in H.
  - constructor.
  - apply Forall_cons in Hrows as [Hr Hrows].
    destruct (bucket_row ybs numY 0 r d) as [d1|] eqn:Hd1; simpl in H;
      [|discriminate].
    apply (bucket_row_fits ybs numY numX r Hybs HnY HnYi Hfit 0 d d1 Hr
             ltac:(lia) Hlen) in Hd1 as [Hr1 Hl1].
    constructor; [lia|]. apply (IH d1 d'); auto. lia.
Qed.

(** X3.  A series that is longer than the number of X buckets makes
    computeBuckets panic with an index out of range: the grid is sized by
    numXBuckets, which Layout and SetData take from the first series. *)
Theorem computeBuckets_long_series (hm : Heatmap) (row : list Z) :
  0 < YBucketSize hm ->
  1 <= numYBuckets_of (MaxY hm) (YBucketSize hm) ->
  0 <= numXBuckets hm ->
  numXBuckets hm * numYBuckets_of (MaxY hm) (YBucketSize hm) <= max_int ->
  Forall (Forall (fun y => 0 <= y <= max_int)) (origData hm) ->
  row ∈ origData hm -> numXBuckets hm < len row ->
  computeBuckets hm = None.
Proof.
  intros Hybs HnY HnX Hfit Hrows Hrow Hlong.
  destruct (computeBuckets hm) as [hm'|] eqn:H; [|reflexivity].
  exfalso. unfold computeBuckets in H.
  set (numY := numYBuckets_of (MaxY hm) (YBucketSize hm)) in *.
  assert (Hmul : int_mul (numXBuckets hm) numY = numXBuckets hm * numY).
  { unfold int_mul. apply wrap_small. unfold is_int, min_int. nia. }
  rewrite Hmul in H.
  destruct (make _) as [d0|] eqn:Hm; simpl in H; [|discriminate].
  destruct (bucket_rows _ _ _ d0) as [d|] eqn:Hr; simpl in H; [|discriminate].
  apply make_Some in Hm as [Hm0 ->].
  apply (bucket_rows_fit (YBucketSize hm) numY (numXBuckets hm) (origData hm)
           Hybs HnY (numYBuckets_of_is_int _ _) HnX Hfit) in Hr; auto.
  - rewrite Forall_forall in Hr. apply Hr in Hrow. lia.
  - rewrite len_replicate. lia.
Qed.

(** ** computeSaturations: the deduplication in place *)

Lemma uniq_strict l :
  StronglySorted Z.le l ->
  forall prev, Forall (fun x => prev <= x) l ->
    StronglySorted Z.lt (uniq prev l) /\ Forall (fun x => prev < x) (uniq prev l).
Proof.
  induction 1 as [|v l Hs IH Hv]; intros prev Hp; simpl.
  - split; constructor.
  - apply Forall_cons in Hp as [Hpv Hp].
    destruct (Z.eqb_spec v prev) as [->|Hne].
    + apply IH. exact Hv.
    + destruct (IH v Hv) as [IH1 IH2]. split.
      * constructor; auto.
      * constructor; [lia|]. eapply Forall_impl; [exact IH2|]. simpl. lia.
Qed.

Lemma sorted_lookup_lt (l : list Z) :
  StronglySorted Z.lt l ->
  forall i j x y, (i < j)%nat -> l !! i = Some x -> l !! j = Some y -> x < y.
Proof.
  induction 1 as [|v l Hs IH Hv]; intros i j x y Hij Hi Hj.
  - inversion Hi.
  - destruct i as [|i], j as [|j]; simpl in *; try lia.
    + injection Hi as <-. rewrite Forall_forall in Hv. apply Hv.
      apply list_elem_of_lookup. eauto.
    + apply (IH i j x y); auto. lia.
Qed.

Lemma unique_strict (d : list Z) :
  Forall (fun v => 0 <= v) d -> StronglySorted Z.lt (uniq (-1) (sort_Ints d)).
Proof.
  intros Hnn. apply uniq_strict; [apply sort_Ints_sorted|].
  rewrite sort_Ints_perm. eapply Forall_impl; [exact Hnn|]. simpl. lia.
Qed.

Lemma unique_elem_of (d : list Z) v :
  Forall (fun v => 0 <= v) d -> (v ∈ uniq (-1) (sort_Ints d) <-> v ∈ d).
Proof.
  intros Hnn. split.
  - intros Hv. rewrite <- (sort_Ints_perm d).
    eapply elem_of_sublist; [exact Hv | apply uniq_sublist].
  - intros Hv. apply unique_contains; auto.
    rewrite Forall_forall in Hnn. apply Hnn in Hv. lia.
Qed.

Lemma sort_Ints_last (d : list Z) top :
  last (sort_Ints d) = Some top -> top ∈ d /\ forall v, v ∈ d -> v <= top.
Proof.
  intros Hl. split.
  - rewrite <- (sort_Ints_perm d). rewrite last_lookup in Hl.
    apply list_elem_of_lookup. eauto.
  - intros v Hv. apply (sorted_last_ge (sort_Ints d)); auto.
    + apply sort_Ints_sorted.
    + rewrite sort_Ints_perm. exact Hv.
Qed.

(** X4.  The deduplication loop, which appends to [sorted[:0]] and so
    writes into the array that it reads, leaves in [unique] the distinct
    counts of the grid in strictly increasing order, and leaves the last
    element of [sorted], the largest count, in place. *)
Theorem deduplicate_in_place (d : list Z) :
  Forall (fun v => 0 <= v) d ->
  let '(sorted, unique) := deduplicate (sort_Ints d) in
  StronglySorted Z.lt unique
  /\ (forall v, v ∈ unique <-> v ∈ d)
  /\ length sorted = length d
  /\ forall top, last sorted = Some top ->
       top ∈ d /\ forall v, v ∈ d -> v <= top.
Proof.
  intros Hnn.
  pose proof (deduplicate_spec (sort_Ints d)) as H.
  destruct (deduplicate (sort_Ints d)) as [sorted unique].
  destruct H as (-> & Hl & Hlast).
  split; [apply unique_strict; auto|].
  split; [intros v; apply unique_elem_of; auto|].
  split.
  - rewrite Hl. apply Permutation_length, sort_Ints_perm.
  - intros top Ht. rewrite Hlast in Ht. apply sort_Ints_last. exact Ht.
Qed.

(** ** computeSaturations: the two tables *)

Lemma computeSaturations_entries (hm hm' : Heatmap) :
  0 < len (data hm) <= max_int ->
  computeSaturations hm = Some hm' ->
  exists sorted top,
    index sorted (int_sub (len sorted) 1) = Some top
    /\ last (sort_Ints (data hm)) = Some top
    /\ length (linearSaturations hm') = length (data hm)
    /\ length (rankedSaturations hm') = length (data hm)
    /\ forall i v, data hm !! i = Some v ->
         exists r l,
           ranked_saturation (uniq (-1) (sort_Ints (data hm))) v = Some r
           /\ linear_saturation sorted v = Some l
           /\ rankedSaturations hm' !! i = Some r
           /\ linearSaturations hm' !! i = Some l.
Proof.
  intros Hlen H.
  destruct (computeSaturations_nonempty hm ltac:(lia))
    as (sorted & Hl & Hlast & E).
  rewrite E in H. clear E.
  destruct (saturation_loop _ sorted (data hm)) as [[ls rs]|] eqn:Hloop;
    simpl in H; [|discriminate].
  injection H as <-. simpl.
  apply saturation_loop_lookup in Hloop as (L1 & L2 & L3).
  destruct (linear_saturation_top sorted) as (top & Htop & Hidx).
  { unfold len in *. lia. }
  exists sorted, top. rewrite <- Hlast. auto.
Qed.

Lemma table_entries (d t : list Z) (P : Z -> Prop) :
  length t = length d ->
  (forall i v, d !! i = Some v -> exists s, t !! i = Some s /\ P s) ->
  Forall P t.
Proof.
  intros Hl H. apply Forall_lookup. intros i x Hi.
  destruct (lookup_lt_is_Some_2 d i) as [v Hv].
  { rewrite <- Hl. eapply lookup_lt_Some; eauto. }
  destruct (H i v Hv) as (s & Hs & HP). congruence.
Qed.

(** X5.  On a non-empty grid of counts computeSaturations completes and
    leaves the grid as it is; each of the two tables has one entry per
    cell, and no entry is 0: every saturation is between 1 and 255. *)
Theorem computeSaturations_tables_cover (hm : Heatmap) :
  0 < len (data hm) <= max_int ->
  Forall (fun v => 0 <= v) (data hm) ->
  exists hm',
    computeSaturations hm = Some hm'
    /\ data hm' = data hm
    /\ len (linearSaturations hm') = len (data hm)
    /\ len (rankedSaturations hm') = len (data hm)
    /\ Forall (fun s => 1 <= s <= 255) (linearSaturations hm')
    /\ Forall (fun s => 1 <= s <= 255) (rankedSaturations hm').
Proof.
  intros Hlen Hnn.
  destruct (computeSaturations_succeeds hm Hlen Hnn) as [hm' H].
  exists hm'. split; [exact H|].
  destruct (computeSaturations_fields _ _ H)
    as (_ & _ & _ & _ & _ & _ & _ & _ & D & _).
  destruct (computeSaturations_entries hm hm' Hlen H)
    as (sorted & top & _ & _ & L1 & L2 & L3).
  split; [exact D|]. unfold len. split; [lia|]. split; [lia|]. split.
  - apply (table_entries (data hm)); auto.
    intros i v Hv. destruct (L3 i v Hv) as (r & l & _ & Hl & _ & Hls).
    exists l. split; auto. eapply linear_saturation_range; eauto.
  - apply (table_entries (data hm)); auto.
    intros i v Hv. destruct (L3 i v Hv) as (r & l & Hr & _ & Hrs & _).
    exists r. split; auto. eapply ranked_saturation_range; eauto.
Qed.

Lemma linear_saturation_value sorted top v s :
  index sorted (int_sub (len sorted) 1) = Some top ->
  0 < v <= top -> top <= max_int ->
  linear_saturation sorted v = Some s ->
  let t := trunc_pair (ranked_pair v top) in
  0 <= t <= 255 /\ s = (if t =? 0 then 1 else t).
Proof.
  intros Hidx Hv Ht H. unfold linear_saturation in H. rewrite Hidx in H.
  simpl in H. destruct (ranked_uint8 v top Hv Ht) as [E R].
  rewrite E in H. injection H as <-. auto.
Qed.

Lemma search_last (a : list Z) v :
  StronglySorted Z.le a -> StronglySorted Z.lt a -> last a = Some v ->
  SearchInts a v = len a - 1.
Proof.
  intros Hle Hlt Hl.
  destruct (SearchInts_spec a v Hle) as [Hr Hs].
  rewrite last_lookup in Hl.
  assert (Hn : (0 < length a)%nat).
  { apply lookup_lt_Some in Hl. lia. }
  pose proof (proj1 (Hs _ _ Hl)) as H1.
  assert (Hub : SearchInts a v <= len a - 1).
  { destruct (Z_lt_le_dec (Z.of_nat (pred (length a))) (SearchInts a v));
      [apply H1 in l; lia | unfold len; lia]. }
  destruct (Z.eq_dec (SearchInts a v) (len a - 1)) as [|Hne]; [auto|].
  exfalso.
  destruct (lookup_lt_is_Some_2 a (Z.to_nat (SearchInts a v))) as [y Hy].
  { unfold len in *. lia. }
  assert (Hij : (Z.to_nat (SearchInts a v) < pred (length a))%nat)
    by (unfold len in *; lia).
  pose proof (sorted_lookup_lt a Hlt _ _ _ _ Hij Hy Hl).
  pose proof (proj2 (Hs _ _ Hy)). lia.
Qed.

Lemma trunc_pair_255 : trunc_pair f32_255 = 255.
Proof. vm_compute. reflexivity. Qed.

(** X6.  A cell that holds the largest count of the grid gets the ranked
    saturation 255, and the linear saturation 255 when that count is not
    0: the largest count is always drawn in pure red. *)
Theorem largest_count_is_saturated (hm hm' : Heatmap) (i : nat) (v : Z) :
  computeSaturations hm = Some hm' ->
  len (data hm) <= max_int ->
  Forall (fun v => 0 <= v <= max_int) (data hm) ->
  data hm !! i = Some v ->
  (forall w, w ∈ data hm -> w <= v) ->
  rankedSaturations hm' !! i = Some 255
  /\ (0 < v -> linearSaturations hm' !! i = Some 255).
Proof.
  intros H Hlen Hd Hi Hmax.
  assert (Hpos : 0 < len (data hm) <= max_int).
  { apply lookup_lt_Some in Hi. unfold len in *. lia. }
  assert (Hnn : Forall (fun v => 0 <= v) (data hm)).
  { eapply Forall_impl; [exact Hd|]. simpl. lia. }
  assert (Hvd : v ∈ data hm) by (apply list_elem_of_lookup; eauto).
  destruct (computeSaturations_entries hm hm' Hpos H)
    as (sorted & top & Hidx & Hlast & _ & _ & L3).
  destruct (L3 i v Hi) as (r & l & Hr & Hl & Hrs & Hls).
  destruct (sort_Ints_last _ _ Hlast) as [Htd Htop].
  assert (top = v) by (apply Htop in Hvd; apply Hmax in Htd; lia). subst top.
  set (unique := uniq (-1) (sort_Ints (data hm))) in *.
  pose proof (unique_sorted (data hm)) as Hsorted. fold unique in Hsorted.
  pose proof (unique_strict (data hm) Hnn) as Hstrict. fold unique in Hstrict.
  pose proof (len_unique_le (data hm)) as Hul. fold unique in Hul.
  assert (Hvu : v ∈ unique) by (apply unique_elem_of; auto).
  assert (Hlastu : last unique = Some v).
  { destruct (last unique) as [t|] eqn:Ht.
    - f_equal.
      pose proof (sorted_last_ge unique v t Hsorted Hvu Ht).
      assert (t ∈ data hm).
      { apply unique_elem_of; auto. rewrite last_lookup in Ht.
        apply list_elem_of_lookup. eauto. }
      apply Hmax in H1. lia.
    - apply last_None in Ht. rewrite Ht in Hvu. inversion Hvu. }
  split.
  - destruct (ranked_saturation_value unique v r Hsorted ltac:(lia) Hr)
      as (Hx & Ht & ->).
    rewrite (search_last unique v Hsorted Hstrict Hlastu) in *.
    replace (len unique - 1 + 1) with (len unique) in * by lia.
    rewrite ranked_pair_top in Hrs by lia. rewrite trunc_pair_255 in Hrs.
    exact Hrs.
  - intros Hv. rewrite Forall_forall in Hd. pose proof (Hd _ Hvd).
    destruct (linear_saturation_value sorted v v l Hidx ltac:(lia) ltac:(lia)
                Hl) as (_ & ->).
    rewrite ranked_pair_top in Hls by lia. rewrite trunc_pair_255 in Hls.
    exact Hls.
Qed.

(** X7.  The linear saturation grows with the count: a cell whose count is
    not larger than that of another cell has a linear saturation that is
    not larger. *)
Theorem linear_saturation_monotone
    (hm hm' : Heatmap) (i j : nat) (v1 v2 s1 s2 : Z) :
  computeSaturations hm = Some hm' ->
  len (data hm) <= max_int ->
  Forall (fun v => 0 <= v <= max_int) (data hm) ->
  data hm !! i = Some v1 -> data hm !! j = Some v2 ->
  linearSaturations hm' !! i = Some s1 ->
  linearSaturations hm' !! j = Some s2 ->
  v1 <= v2 -> s1 <= s2.
Proof.
  intros H Hlen Hd Hi Hj Hs1 Hs2 Hv.
  assert (Hpos : 0 < len (data hm) <= max_int).
  { apply lookup_lt_Some in Hi. unfold len in *. lia. }
  destruct (computeSaturations_entries hm hm' Hpos H)
    as (sorted & top & Hidx & Hlast & _ & _ & L3).
  destruct (L3 i v1 Hi) as (r1 & l1 & _ & Hl1 & _ & Hls1).
  destruct (L3 j v2 Hj) as (r2 & l2 & _ & Hl2 & _ & Hls2).
  assert (l1 = s1) by congruence. assert (l2 = s2) by congruence.
  subst l1 l2.
  destruct (sort_Ints_last _ _ Hlast) as [Htd Htop].
  rewrite Forall_forall in Hd.
  assert (H1 : 0 <= v1 <= top).
  { pose proof (Hd v1 ltac:(apply list_elem_of_lookup; eauto)).
    pose proof (Htop v1 ltac:(apply list_elem_of_lookup; eauto)). lia. }
  assert (H2 : 0 <= v2 <= top).
  { pose proof (Hd v2 ltac:(apply list_elem_of_lookup; eauto)).
    pose proof (Htop v2 ltac:(apply list_elem_of_lookup; eauto)). lia. }
  pose proof (Hd top Htd) as Ht.
  destruct (Z.eq_dec v1 v2) as [->|Hne]; [assert (s1 = s2) by congruence; lia|].
  pose proof (linear_saturation_range _ _ _ Hl2) as R2.
  destruct (Z.eq_dec v1 0) as [->|Hv1].
  - rewrite (linear_saturation_zero sorted top ltac:(lia) Hidx) in Hl1.
    injection Hl1 as <-. lia.
  - destruct (linear_saturation_value sorted top v1 s1 Hidx ltac:(lia)
                ltac:(lia) Hl1) as (T1 & ->).
    destruct (linear_saturation_value sorted top v2 s2 Hidx ltac:(lia)
                ltac:(lia) Hl2) as (T2 & ->).
    pose proof (ranked_uint8_mono v1 v2 top ltac:(lia) ltac:(lia) ltac:(lia)).
    destruct (Z.eqb_spec (trunc_pair (ranked_pair v1 top)) 0),
             (Z.eqb_spec (trunc_pair (ranked_pair v2 top)) 0); lia.
Qed.

(** ** Layout: the paths of a rebuild *)

Lemma add_cell_path hm dims xs ys paths x y paths' :
  add_cell hm dims xs ys (active_saturations hm) paths x y = Some paths' ->
  forall i p, paths !! i = Some p ->
    paths' !! i
    = Some (p ++ match cell_saturation hm (x, y) with
                 | Some s' =>
                     if s' =? Z.of_nat i then cell_path dims xs ys x y else []
                 | None => []
                 end).
Proof.
  unfold add_cell, cell_saturation. simpl. intros H i p Hp.
  destruct (index (data hm) _) as [v|]; simpl in *; [|discriminate].
  destruct (v =? 0).
  - injection H as <-. rewrite app_nil_r. exact Hp.
  - destruct (index (active_saturations hm) _) as [s|]; simpl in *;
      [|discriminate].
    destruct (index paths s) as [p0|] eqn:Hp0; simpl in H; [|discriminate].
    apply store_Some in H as [Hs ->].
    apply index_Some in Hp0 as [_ Hp0].
    destruct (Z.eqb_spec s (Z.of_nat i)) as [->|Hne].
    + rewrite Nat2Z.id in *. rewrite list_lookup_insert_eq
        by (eapply lookup_lt_Some; eauto).
      congruence.
    + rewrite list_lookup_insert_ne by lia. rewrite app_nil_r. exact Hp.
Qed.

Lemma add_cells_path hm dims xs ys cells :
  forall paths paths',
    add_cells hm dims xs ys (active_saturations hm) cells paths = Some paths' ->
    forall i p, paths !! i = Some p ->
      paths' !! i
      = Some (p ++ concat (map (fun c =>
                 match cell_saturation hm c with
                 | Some s' =>
                     if s' =? Z.of_nat i
                     then cell_path dims xs ys (fst c) (snd c) else []
                 | None => []
                 end) cells)).
Proof.
  induction cells as [|[x y] cells IH]; intros paths paths' H i p Hp;
    simpl in H.
  - injection H as <-. simpl. rewrite app_nil_r. exact Hp.
  - destruct (add_cell _ _ _ _ _ _ _ _) as [paths1|] eqn:Ha; simpl in H;
      [|discriminate].
    pose proof (add_cell_path _ _ _ _ _ _ _ _ Ha i p Hp) as H1.
    rewrite (IH _ _ H i _ H1). simpl. rewrite <- app_assoc. reflexivity.
Qed.

(** ** Layout: the cache, hit and miss *)


(** X8.  The cached operations of a rebuild are the clip of the frame, the
    white background and the event area, then one fill for each
    saturation 0..255 in this order, then the end of the clip.  The fill of
    saturation [s] is red with [255 - s] of green and blue (white at 0,
    pure red at 255) and its path holds the rectangle of each nonzero cell
    of saturation [s], once, column by column; a cell of count 0 is in no
    path. *)
Theorem rebuild_paths hm dims numX xs ys ops :
  rebuild hm dims numX xs ys = Some ops ->
  length ops = 260%nat
  /\ take 3 ops = [ClipRectPush dims; BackgroundFill; EventOp]
  /\ ops !! 259%nat = Some ClipPop
  /\ forall s, 0 <= s <= 255 ->
       ops !! (3 + Z.to_nat s)%nat
       = Some (FillShape {| cR := 255; cG := 255 - s; cB := 255 - s;
                            cA := 255 |}
                 (saturation_path hm dims xs ys numX s)).
Proof.
  intros H. unfold rebuild in H. cbv zeta in H.
  destruct (add_cells _ _ _ _ _ _ _) as [paths|] eqn:Ha; simpl in H;
    [|discriminate].
  injection H as <-.
  pose proof (add_cells_spec _ _ _ _ _ _ _ Ha) as [Hl _].
  rewrite length_replicate in Hl.
  split; [simpl; rewrite length_app, length_imap; simpl; lia|].
  split; [reflexivity|]. split.
  - simpl. rewrite lookup_app_r by (rewrite length_imap; lia).
    rewrite length_imap, Hl. reflexivity.
  - intros s Hs. simpl.
    rewrite lookup_app_l by (rewrite length_imap; lia).
    rewrite list_lookup_imap.
    rewrite (add_cells_path _ _ _ _ _ _ _ Ha (Z.to_nat s) [])
      by (apply lookup_replicate_2; lia).
    simpl. rewrite Z2Nat.id by lia. unfold fill_of, saturation_path.
    rewrite Z.mod_small by lia. reflexivity.
Qed.

(** ** Layout: the hovered bucket, repeated frames, new data *)

Lemma SetData_fields hm d hm' :
  SetData hm d = Some hm' ->
  exists row0 rest,
    d = row0 :: rest /\ hm' = with_origData hm d (len row0) zero_key.
Proof.
  unfold SetData. destruct d as [|row0 rest]; simpl; [discriminate|].
  intros [= <-]. eauto.
Qed.

Lemma refresh_MaxY hm key hm' :
  refresh hm key = Some hm' ->
  MaxY hm' = MaxY hm /\ origData hm' = origData hm.
Proof.
  unfold refresh. intros H. destruct (orb _ _).
  - destruct (origData hm !! 0%nat) as [row0|]; simpl in H; [|discriminate].
    destruct (computeBuckets _) as [hmb|] eqn:Hb; simpl in H; [|discriminate].
    apply computeSaturations_input in H as (-> & -> & _).
    unfold computeBuckets in Hb.
    destruct (make _) as [d0|]; simpl in Hb; [|discriminate].
    destruct (bucket_rows _ _ _ _) as [d|]; simpl in Hb; [|discriminate].
    injection Hb as <-. split; reflexivity.
  - injection H as <-. split; reflexivity.
Qed.

Lemma layout_cache_sizes hm gtx hm1 xs ys rb :
  layout_cache hm gtx = Some (hm1, xs, ys, rb) ->
  MaxY hm1 = MaxY hm /\ YBucketSize hm1 = YBucketSize hm
  /\ origData hm1 = origData hm.
Proof.
  intros Hc.
  apply layout_cache_inv in Hc as (hmr & numX & Hr & _ & _ & _ & Hg).
  pose proof (refresh_MaxY _ _ _ Hr) as [R1 R2].
  apply refresh_fields in Hr as (_ & _ & R3 & _).
  destruct (handle_moves_fields hm (ConstraintsMax gtx) (moves gtx))
    as (_ & _ & M3 & _ & _ & _ & _ & _ & _ & _ & M11 & M12).
  apply geometry_inv in Hg as [(_ & -> & _)|(_ & _ & ops & _ & ->)];
    simpl; repeat split; congruence.
Qed.

Lemma layout_cache_pointer hm gtx hm2 xs ys rb :
  layout_cache hm gtx = Some (hm2, xs, ys, rb) ->
  let hm0 := handle_moves hm (ConstraintsMax gtx) (moves gtx) in
  pointer hm2 = pointer hm0 /\ pointerConstraint hm2 = pointerConstraint hm0.
Proof.
  intros Hc. cbv zeta.
  apply layout_cache_inv in Hc as (hm1 & numX & Hr & _ & _ & _ & Hg).
  apply refresh_fields in Hr as (_ & _ & _ & _ & _ & _ & P1 & P2).
  apply geometry_inv in Hg as [(_ & -> & _)|(_ & _ & ops & _ & ->)];
    simpl; auto.
Qed.

Lemma hover_valid_ext hm hm' dims :
  pointer hm' = pointer hm -> pointerConstraint hm' = pointerConstraint hm ->
  hover_valid hm' dims = hover_valid hm dims.
Proof. intros P1 P2. unfold hover_valid. rewrite P1, P2. reflexivity. Qed.

(** ** Layout: the hovered bucket *)

(** *** Whole pixels in float32

    Integers below [2 ^ 24] are float32 numbers: their difference is exact,
    an exact quotient is exact, and the integer part of the float32
    quotient of two of them is their integer quotient. *)

Lemma rne_upper N D : 0 < D -> 2 * (D * rne N D) <= 2 * N + D.
Proof.
  intros HD. pose proof (Z.div_mod N D ltac:(lia)) as E.
  pose proof (Z.mod_pos_bound N D HD) as Hr.
  unfold rne, loc_of, round_nearest_even.
  destruct (Z.eqb_spec (N mod D) 0); [nia|].
  destruct (Z.compare_spec (2 * (N mod D)) D); [|nia|nia].
  destruct (Z.even (N / D)); nia.
Qed.

Lemma f32_int_small z :
  0 < z < 2 ^ 24 ->
  f32_int z = (z * 2 ^ (24 - Zdigits2 z), Zdigits2 z - 24).
Proof. intros Hz. unfold f32_int. apply rnd_int_exact; lia. Qed.

Lemma small_digits z :
  0 < z < 2 ^ 24 ->
  1 <= Zdigits2 z <= 24
  /\ canon 24 (z * 2 ^ (24 - Zdigits2 z))
  /\ z < 2 ^ Zdigits2 z.
Proof.
  intros [Hz Hu].
  pose proof (Zdigits2_bounds z Hz) as [Bl Bu].
  pose proof (Zdigits2_pos z Hz) as Hd0.
  assert (Hd : Zdigits2 z <= 24) by (apply Zdigits2_le; auto).
  split; [lia|]. split; [|exact Bu].
  unfold canon.
  assert (E1 : 2 ^ (24 - 1) = 2 ^ (Zdigits2 z - 1) * 2 ^ (24 - Zdigits2 z)).
  { rewrite <- Z.pow_add_r by lia. f_equal. lia. }
  assert (E2 : 2 ^ 24 = 2 ^ Zdigits2 z * 2 ^ (24 - Zdigits2 z)).
  { rewrite <- Z.pow_add_r by lia. f_equal. lia. }
  assert (0 < 2 ^ (24 - Zdigits2 z)) by (apply Z.pow_pos_nonneg; lia).
  rewrite E1, E2. nia.
Qed.

Lemma f32_div_small a s :
  0 < a < 2 ^ 24 -> 0 < s < 2 ^ 24 ->
  exists k,
    0 <= k /\ s < 2 ^ (k + 1)
    /\ 2 ^ 23 <= rne (a * 2 ^ k) s <= 2 ^ 24
    /\ f32_div (f32_int a) (f32_int s)
       = if rne (a * 2 ^ k) s =? 2 ^ 24 then (2 ^ 23, 1 - k)
         else (rne (a * 2 ^ k) s, - k).
Proof.
  intros Ha Hs.
  destruct (small_digits a Ha) as (Da & Ca & Ua).
  destruct (small_digits s Hs) as (Ds & Cs & Us).
  rewrite (f32_int_small a Ha), (f32_int_small s Hs).
  unfold f32_div. simpl fst. simpl snd.
  set (da := Zdigits2 a) in *. set (ds := Zdigits2 s) in *.
  set (ma := a * 2 ^ (24 - da)) in *. set (ms := s * 2 ^ (24 - ds)) in *.
  assert (Pa : 0 < 2 ^ (24 - da)) by (apply Z.pow_pos_nonneg; lia).
  assert (Ps : 0 < 2 ^ (24 - ds)) by (apply Z.pow_pos_nonneg; lia).
  unfold canon in Ca, Cs. change (2 ^ (24 - 1)) with (2 ^ 23) in *.
  assert (Hms : 0 < ms) by lia.
  assert (Hq : 2 ^ (24 - 1) <= ma * 2 ^ 24 / ms).
  { apply Z.div_le_lower_bound; [lia|]. change (2 ^ (24 - 1)) with (2 ^ 23). nia. }
  assert (Hq2 : ma * 2 ^ 24 / ms < 2 ^ 25).
  { apply Z.div_lt_upper_bound; [lia|]. nia. }
  destruct (rnd_core 24 ltac:(lia) (ma * 2 ^ 24) ms Hms Hq) as (Hn & Hn0 & Hb).
  unfold rnd.
  set (n := Z.max 0 (Zdigits2 (ma * 2 ^ 24 / ms) - 24)) in *.
  assert (Hn1 : n <= 1).
  { assert (Zdigits2 (ma * 2 ^ 24 / ms) <= 25); [|lia].
    apply Zdigits2_le; [|exact Hq2].
    change (2 ^ (24 - 1)) with (2 ^ 23) in Hq. lia. }
  exists (24 + ds - da - n).
  set (k := 24 + ds - da - n).
  assert (Hk : 0 <= k) by (unfold k; lia).
  assert (Pk : 0 < 2 ^ k) by (apply Z.pow_pos_nonneg; lia).
  assert (Pn : 0 < 2 ^ n) by (apply Z.pow_pos_nonneg; lia).
  set (j := 24 - ds + n).
  assert (Pj : 0 < 2 ^ j) by (apply Z.pow_pos_nonneg; unfold j; lia).
  assert (EN : ma * 2 ^ 24 = 2 ^ j * (a * 2 ^ k)).
  { unfold ma.
    assert (E : 2 ^ (24 - da) * 2 ^ 24 = 2 ^ j * 2 ^ k).
    { rewrite <- !Z.pow_add_r by (unfold j, k; lia). f_equal. unfold j, k. lia. }
    nia. }
  assert (ED : ms * 2 ^ n = 2 ^ j * s).
  { unfold ms, j. rewrite Z.pow_add_r by lia. ring. }
  assert (Er : rne (ma * 2 ^ 24) (ms * 2 ^ n) = rne (a * 2 ^ k) s).
  { rewrite EN, ED. apply rne_scale; lia. }
  rewrite Er.
  pose proof (rne_bounds (ma * 2 ^ 24) (ms * 2 ^ n) ltac:(nia)) as Rb.
  rewrite Er in Rb.
  change (2 ^ (24 - 1)) with (2 ^ 23) in *.
  split; [exact Hk|]. split.
  - assert (2 ^ ds <= 2 ^ (k + 1)) by (apply Z.pow_le_mono_r; unfold k; lia).
    lia.
  - split; [lia|].
    replace (da - 24 - (ds - 24) - 24 + n) with (- k) by (unfold k; lia).
    replace (- k + 1) with (1 - k) by lia.
    reflexivity.
Qed.

Lemma trunc_div_small a s :
  0 < a < 2 ^ 24 -> 0 < s < 2 ^ 24 ->
  trunc_pair (f32_div (f32_int a) (f32_int s)) = a / s.
Proof.
  intros Ha Hs.
  destruct (f32_div_small a s Ha Hs) as (k & Hk & Hsk & Hm & E).
  rewrite E. clear E.
  set (m := rne (a * 2 ^ k) s) in *.
  assert (Pk : 0 < 2 ^ k) by (apply Z.pow_pos_nonneg; lia).
  pose proof (rne_bounds (a * 2 ^ k) s ltac:(lia)) as [Rl _].
  pose proof (rne_upper (a * 2 ^ k) s ltac:(lia)) as Ru.
  fold m in Rl, Ru.
  pose proof (Z.div_mod a s ltac:(lia)) as Ea.
  pose proof (Z.mod_pos_bound a s ltac:(lia)) as Hr.
  set (c := a / s) in *.
  assert (H2k : 2 ^ (k + 1) = 2 * 2 ^ k).
  { rewrite Z.pow_add_r by lia. simpl (2 ^ 1). lia. }
  assert (Hlo : c * 2 ^ k <= m).
  { assert (c * 2 ^ k <= a * 2 ^ k / s); [|lia].
    apply Z.div_le_lower_bound; [lia|]. nia. }
  assert (Hhi : m < (c + 1) * 2 ^ k) by nia.
  assert (Hc0 : 0 <= c) by (apply Z.div_pos; lia).
  assert (Hca : c <= a).
  { unfold c. apply Z.div_le_upper_bound; [lia|]. nia. }
  destruct (Z.eqb_spec m (2 ^ 24)) as [Hm24|Hm24]; unfold trunc_pair; simpl fst; simpl snd.
  - destruct k as [|kp|kp]; [|simpl snd|lia].
    + change (2 ^ 0) with 1 in *. lia.
    + destruct (1 - Z.pos kp) as [|p|p] eqn:Ek.
      * assert (Z.pos kp = 1) by lia. rewrite H in *.
        change (2 ^ 1) with 2 in *. change (2 ^ 0) with 1. lia.
      * lia.
      * assert (Ep : Z.pos p = Z.pos kp - 1) by lia.
        rewrite Ep.
        assert (Pk1 : 0 < 2 ^ (Z.pos kp - 1)) by (apply Z.pow_pos_nonneg; lia).
        assert (E2 : 2 ^ Z.pos kp = 2 * 2 ^ (Z.pos kp - 1)).
        { replace (Z.pos kp) with (1 + (Z.pos kp - 1)) at 1 by lia.
          rewrite Z.pow_add_r by lia. reflexivity. }
        symmetry. apply (Z.div_unique _ _ c (2 ^ 23 - c * 2 ^ (Z.pos kp - 1))).
        -- change (2 ^ 24) with (2 * 2 ^ 23) in Hm24. nia.
        -- ring.
  - destruct k as [|kp|kp]; [| |lia].
    + simpl. change (2 ^ 0) with 1 in *. lia.
    + simpl Z.opp. cbv iota.
      symmetry. apply (Z.div_unique _ _ c (m - c * 2 ^ Z.pos kp)); [lia|ring].
Qed.

(** An exact quotient of two small integers is not rounded. *)
Lemma f32_div_exact W N s :
  0 < N -> 0 < s -> W = s * N -> W < 2 ^ 24 ->
  f32_div (f32_int W) (f32_int N) = f32_int s.
Proof.
  intros HN Hs HW Hu.
  assert (Ha : 0 < W < 2 ^ 24) by nia.
  assert (Hn : 0 < N < 2 ^ 24) by nia.
  assert (Hs' : 0 < s < 2 ^ 24) by nia.
  destruct (f32_div_small W N Ha Hn) as (k & Hk & _ & Hm & E).
  rewrite E. clear E.
  assert (Pk : 0 < 2 ^ k) by (apply Z.pow_pos_nonneg; lia).
  assert (Er : rne (W * 2 ^ k) N = s * 2 ^ k).
  { rewrite rne_exact; [|lia|].
    - subst W. replace (s * N * 2 ^ k) with (s * 2 ^ k * N) by ring.
      apply Z.div_mul. lia.
    - subst W. replace (s * N * 2 ^ k) with (s * 2 ^ k * N) by ring.
      apply Z.mod_mul. lia. }
  rewrite Er in *.
  rewrite (f32_int_small s Hs').
  assert (Hk24 : k <= 24).
  { destruct (Z.le_gt_cases k 24); auto.
    assert (2 ^ 25 <= 2 ^ k) by (apply Z.pow_le_mono_r; lia).
    change (2 ^ 25) with (2 * 2 ^ 24) in *. nia. }
  destruct (Z.eqb_spec (s * 2 ^ k) (2 ^ 24)) as [H24|H24].
  - assert (Hd : Zdigits2 s = 25 - k).
    { apply Zdigits2_unique; [lia|].
      replace (25 - k - 1) with (24 - k) by lia.
      assert (E1 : 2 ^ 24 = 2 ^ (24 - k) * 2 ^ k).
      { rewrite <- Z.pow_add_r by lia. f_equal. lia. }
      assert (E2 : 2 ^ (25 - k) = 2 * 2 ^ (24 - k)).
      { replace (25 - k) with (1 + (24 - k)) by lia.
        rewrite Z.pow_add_r by lia. reflexivity. }
      assert (0 < 2 ^ (24 - k)) by (apply Z.pow_pos_nonneg; lia).
      rewrite E2. nia. }
    rewrite Hd. replace (24 - (25 - k)) with (k - 1) by lia.
    assert (Hk1 : 1 <= k).
    { destruct (Z.eq_dec k 0) as [->|]; [|lia].
      change (2 ^ 0) with 1 in H24. lia. }
    assert (E3 : 2 ^ k = 2 * 2 ^ (k - 1)).
    { replace k with (1 + (k - 1)) at 1 by lia.
      rewrite Z.pow_add_r by lia. reflexivity. }
    f_equal; [|lia].
    change (2 ^ 24) with (2 * 2 ^ 23) in H24. nia.
  - assert (Hd : Zdigits2 s = 24 - k).
    { apply Zdigits2_unique; [lia|].
      assert (E1 : 2 ^ 24 = 2 ^ (24 - k) * 2 ^ k).
      { rewrite <- Z.pow_add_r by lia. f_equal. lia. }
      destruct (Z.eq_dec k 24) as [->|Hne].
      { exfalso. change (2 ^ 24) with 16777216 in *. nia. }
      assert (E0 : 2 ^ 23 = 2 ^ (24 - k - 1) * 2 ^ k).
      { rewrite <- Z.pow_add_r by lia. f_equal. lia. }
      assert (0 < 2 ^ (24 - k - 1)) by (apply Z.pow_pos_nonneg; lia).
      assert (0 < 2 ^ (24 - k)) by (apply Z.pow_pos_nonneg; lia).
      split; nia. }
    rewrite Hd. replace (24 - (24 - k)) with k by lia.
    f_equal. lia.
Qed.

Section Normalize.
Variables prec emax : Z.
Hypothesis prec_pos : 0 < prec.

(** The normalisation of a positive integer mantissa at any exponent. *)
Lemma binary_normalize_fin M e :
  0 < M -> emin prec emax <= e ->
  emin prec emax <= Zdigits2 M + e - prec ->
  Zdigits2 M + e + 1 <= emax ->
  binary_normalize prec emax M e false
  = fin_of (rnd prec (M * 2 ^ prec) 1 (e - prec)).
Proof.
  intros Hz He Hlo Hhi.
  destruct (pow_prec_pos prec prec_pos) as [Hp Hp2].
  pose proof (Zdigits2_bounds M Hz) as [Bl Bu].
  pose proof (Zdigits2_pos M Hz) as Hdp.
  destruct M as [|p|p]; try lia.
  unfold binary_normalize, binary_round.
  change (Z.pos (digits2_pos p)) with (Zdigits2 (Z.pos p)).
  set (z := Z.pos p) in *.
  assert (Hf : fexp prec emax (Zdigits2 z + e) = Zdigits2 z + e - prec).
  { unfold fexp. lia. }
  rewrite Hf.
  assert (H2p : 0 < 2 ^ prec) by lia.
  assert (Hbig : 2 ^ (prec - 1) <= z * 2 ^ prec / 1).
  { rewrite Z.div_1_r. nia. }
  pose proof (rnd_exp prec prec_pos (z * 2 ^ prec) 1 (e - prec) ltac:(lia) Hbig)
    as Hexp.
  cbv zeta in Hexp.
  assert (Hdz : Zdigits2 (z * 2 ^ prec / 1) = Zdigits2 z + prec).
  { rewrite Z.div_1_r. apply Zdigits2_unique; [nia|].
    replace (Zdigits2 z + prec - 1) with ((Zdigits2 z - 1) + prec) by lia.
    rewrite !Z.pow_add_r by lia. nia. }
  rewrite Hdz in Hexp.
  unfold shl_align.
  destruct (Zdigits2 z + e - prec - e) as [|d|d] eqn:Ed.
  - replace (binary_round_aux prec emax false (Z.pos p) e loc_Exact)
      with (binary_round_aux prec emax false (z / 1) e (loc_of z 1)).
    2: { unfold loc_of. rewrite Z.mod_1_r, Z.div_1_r. reflexivity. }
    assert (Hq : 2 ^ (prec - 1) <= z / 1).
    { rewrite Z.div_1_r. replace (prec - 1) with (Zdigits2 z - 1) by lia. auto. }
    assert (Esc : rnd prec (z * 2 ^ prec) 1 (e - prec) = rnd prec z 1 e).
    { apply rnd_scale; auto; lia. }
    rewrite Esc in *.
    rewrite binary_round_aux_rnd by (auto; lia). reflexivity.
  - replace (binary_round_aux prec emax false (Z.pos p) e loc_Exact)
      with (binary_round_aux prec emax false (z / 1) e (loc_of z 1)).
    2: { unfold loc_of. rewrite Z.mod_1_r, Z.div_1_r. reflexivity. }
    assert (Hq : 2 ^ (prec - 1) <= z / 1).
    { rewrite Z.div_1_r.
      assert (2 ^ (prec - 1) <= 2 ^ (Zdigits2 z - 1))
        by (apply Z.pow_le_mono_r; lia). lia. }
    assert (Esc : rnd prec (z * 2 ^ prec) 1 (e - prec) = rnd prec z 1 e).
    { apply rnd_scale; auto; lia. }
    rewrite Esc in *.
    rewrite binary_round_aux_rnd by (auto; lia). reflexivity.
  - change (Pos.iter xO p d) with (shift_pos d p).
    rewrite shift_pos_correct.
    change (Z.pow_pos 2 d) with (2 ^ Z.pos d). fold z.
    set (N := 2 ^ Z.pos d * z).
    assert (H2d : 0 < 2 ^ Z.pos d) by (apply Z.pow_pos_nonneg; lia).
    replace (binary_round_aux prec emax false N (Zdigits2 z + e - prec) loc_Exact)
      with (binary_round_aux prec emax false (N / 1) (Zdigits2 z + e - prec)
              (loc_of N 1)).
    2: { unfold loc_of. rewrite Z.mod_1_r, Z.div_1_r. reflexivity. }
    assert (HdN : Z.pos d = prec - Zdigits2 z) by lia.
    assert (Hq : 2 ^ (prec - 1) <= N / 1).
    { rewrite Z.div_1_r. unfold N.
      replace (prec - 1) with (Z.pos d + (Zdigits2 z - 1)) by lia.
      rewrite Z.pow_add_r by lia. nia. }
    assert (Esc : rnd prec (z * 2 ^ prec) 1 (e - prec)
                  = rnd prec N 1 (Zdigits2 z + e - prec)).
    { replace (z * 2 ^ prec) with (N * 2 ^ Zdigits2 z).
      2: { assert (E2 : 2 ^ prec = 2 ^ Z.pos d * 2 ^ Zdigits2 z).
           { rewrite <- Z.pow_add_r by lia. f_equal. lia. }
           unfold N. rewrite E2. ring. }
      replace (e - prec) with ((Zdigits2 z + e - prec) - Zdigits2 z) by lia.
      apply rnd_scale; auto; lia. }
    rewrite Esc in *.
    rewrite binary_round_aux_rnd by (auto; lia). reflexivity.
Qed.

End Normalize.

(** *** Conversion, division, subtraction and order of whole pixels *)

Lemma F32_of_int_small z :
  0 < z < 2 ^ 24 ->
  F32.of_int z = fin (z * 2 ^ (24 - Zdigits2 z)) (Zdigits2 z - 24).
Proof.
  intros Hz. rewrite F32_of_int_fin by (unfold max_int; lia).
  rewrite f32_int_small by auto. reflexivity.
Qed.

Lemma F32_div_exact W N s :
  0 < N -> 0 < s -> W = s * N -> W < 2 ^ 24 ->
  F32.div (F32.of_int W) (F32.of_int N) = F32.of_int s.
Proof.
  intros HN Hs HW Hu.
  assert (Ha : 0 < W <= max_int) by (unfold max_int; nia).
  assert (Hn : 0 < N <= max_int) by (unfold max_int; nia).
  assert (Hs' : 0 < s <= max_int) by (unfold max_int; nia).
  rewrite !F32_of_int_fin by auto.
  destruct (f32_int_range W Ha) as [C1 E1].
  destruct (f32_int_range N Hn) as [C2 E2].
  rewrite F32_div_fin by (auto; lia).
  rewrite (f32_div_exact W N s) by auto. reflexivity.
Qed.

Lemma to_int_div_small a s :
  0 <= a < 2 ^ 24 -> 0 < s < 2 ^ 24 ->
  to_int (F32.div (F32.of_int a) (F32.of_int s)) = a / s.
Proof.
  intros Ha Hs.
  assert (Hs' : 0 < s <= max_int) by (unfold max_int; lia).
  destruct (f32_int_range s Hs') as [C2 E2].
  destruct (Z.eq_dec a 0) as [->|Ha0].
  - rewrite (F32_of_int_fin s) by auto. rewrite Z.div_0_l by lia.
    reflexivity.
  - assert (Ha' : 0 < a <= max_int) by (unfold max_int; lia).
    destruct (f32_int_range a Ha') as [C1 E1].
    rewrite !F32_of_int_fin by auto.
    rewrite F32_div_fin by (auto; lia).
    destruct (f32_div_range _ _ C1 C2) as [C3 _].
    unfold to_int. rewrite SFtrunc_fin by (unfold canon in C3; lia).
    rewrite trunc_div_small by lia.
    assert (H0 : 0 <= a / s) by (apply Z.div_pos; lia).
    assert (H1 : a / s <= a).
    { apply Z.div_le_upper_bound; [lia|]. nia. }
    replace ((min_int <=? a / s) && (a / s <=? max_int)) with true; auto.
    symmetry. apply andb_true_iff. unfold min_int, max_int.
    split; [apply Z.leb_le|apply Z.leb_le]; lia.
Qed.

Lemma F32_sub_small H b :
  0 < b <= H -> H < 2 ^ 24 ->
  F32.sub (F32.of_int H) (F32.of_int b) = F32.of_int (H - b).
Proof.
  intros Hb Hu.
  assert (HH : 0 < H < 2 ^ 24) by lia.
  assert (Hb' : 0 < b < 2 ^ 24) by lia.
  destruct (small_digits H HH) as (DH & CH & UH).
  destruct (small_digits b Hb') as (Db & Cb & Ub).
  pose proof (Zdigits2_mono b H ltac:(lia)) as Hmono.
  rewrite (F32_of_int_small H HH), (F32_of_int_small b Hb').
  set (dH := Zdigits2 H) in *. set (db := Zdigits2 b) in *.
  unfold canon in CH, Cb. change (2 ^ (24 - 1)) with (2 ^ 23) in *.
  unfold F32.sub, SFsub, fin. cbv zeta.
  rewrite Z.min_r by lia.
  unfold shl_align.
  replace (db - 24 - (db - 24)) with 0 by lia. simpl fst.
  assert (EH : Z.pos (fst (match db - 24 - (dH - 24) with
                           | Z.neg d =>
                               (Pos.iter xO (Z.to_pos (H * 2 ^ (24 - dH))) d,
                                db - 24)
                           | _ => (Z.to_pos (H * 2 ^ (24 - dH)), dH - 24)
                           end))
               = H * 2 ^ (24 - db)).
  { destruct (db - 24 - (dH - 24)) as [|d|d] eqn:Ed; try lia.
    - simpl fst. rewrite Z2Pos.id by lia. do 2 f_equal. lia.
    - simpl fst. change (Pos.iter xO (Z.to_pos (H * 2 ^ (24 - dH))) d)
        with (shift_pos d (Z.to_pos (H * 2 ^ (24 - dH)))).
      rewrite shift_pos_correct, Z2Pos.id by lia.
      change (Z.pow_pos 2 d) with (2 ^ Z.pos d).
      assert (E : 2 ^ (24 - db) = 2 ^ Z.pos d * 2 ^ (24 - dH)).
      { rewrite <- Z.pow_add_r by lia. f_equal. lia. }
      rewrite E. ring. }
  simpl cond_Zopp. rewrite EH, Z2Pos.id by lia.
  replace (H * 2 ^ (24 - db) - b * 2 ^ (24 - db))
    with ((H - b) * 2 ^ (24 - db)) by ring.
  assert (Pb : 0 < 2 ^ (24 - db)) by (apply Z.pow_pos_nonneg; lia).
  destruct (Z.eq_dec H b) as [->|Hne].
  - rewrite Z.sub_diag. reflexivity.
  - assert (Hd : 0 < H - b < 2 ^ 24) by lia.
    destruct (small_digits (H - b) Hd) as (Dd & _ & _).
    rewrite binary_normalize_fin.
    + rewrite F32_of_int_fin by (unfold max_int; lia).
      f_equal. unfold f32_int.
      assert (Hq : 2 ^ (24 - 1) <= (H - b) * 2 ^ 24 / 1).
      { rewrite Z.div_1_r. change (2 ^ (24 - 1)) with (2 ^ 23).
        change (2 ^ 24) with (2 * 2 ^ 23). lia. }
      rewrite <- (rnd_scale 24 ltac:(lia) (24 - db) ((H - b) * 2 ^ 24) 1
                    (- 24) ltac:(lia) ltac:(lia) Hq).
      change F32.prec with 24. f_equal; [ring|lia].
    + unfold F32.prec. lia.
    + nia.
    + unfold emin, F32.prec, F32.emax. lia.
    + rewrite Zdigits2_shift by lia. unfold emin, F32.prec, F32.emax. lia.
    + rewrite Zdigits2_shift by lia. unfold F32.emax. lia.
Qed.

Lemma fgt_of_int_zero a :
  0 < a <= max_int -> fgt (F32.of_int a) F32.zero = true.
Proof.
  intros Ha. rewrite F32_of_int_fin by auto. reflexivity.
Qed.

Lemma fle_of_int a W :
  0 < a <= W -> W <= max_int ->
  fle (F32.of_int a) (F32.of_int W) = true.
Proof.
  intros Ha HW.
  rewrite !F32_of_int_fin by lia.
  destruct (f32_int_range a ltac:(lia)) as [C1 _].
  destruct (f32_int_range W ltac:(lia)) as [C2 _].
  pose proof (f32_int_mono a W Ha) as Hle.
  destruct (f32_int a) as [m1 e1], (f32_int W) as [m2 e2].
  unfold canon in *. simpl in C1, C2. change (2 ^ (24 - 1)) with (2 ^ 23) in *.
  unfold pair_le in Hle. simpl in Hle.
  unfold fle, SFleb, SFcompare, fin_of, fin. simpl fst. simpl snd.
  destruct Hle as [Hlt|[-> Hm]].
  - apply Z.compare_lt_iff in Hlt. rewrite Hlt. reflexivity.
  - rewrite Z.compare_refl.
    change (Pos.compare_cont Eq (Z.to_pos m1) (Z.to_pos m2))
      with (Pos.compare (Z.to_pos m1) (Z.to_pos m2)).
    rewrite <- Z2Pos.inj_compare by lia.
    destruct (Z.compare_spec m1 m2); auto; lia.
Qed.

(** *** The hit test *)

(** C2, as the code has it.  A layout pass on a well-formed heatmap reaches
    the hit test, and the hovered bucket is the sentinel of count -1
    exactly when the viewport recorded with the pointer differs from the
    current one or the pointer is not in (0, width] x (0, height]: a
    pointer on the left or the top edge (X = 0 or Y = 0) gives the sentinel
    as well.  Otherwise, with [x = int(X / xStepPx)] and
    [y = int((height - Y) / yStepPx)], the pass reports the bucket that
    starts at [x * XBucketSize] and [y * YBucketSize], is one bucket size
    long on each axis and has the count of the cell [data[x*numYBuckets+y]],
    which is never negative; it panics when that index is beyond the grid.
    When the cells are a whole number [s] x [t] of pixels and the last move
    of the frame goes to the pixel [(a, b)] left of the right edge, [x] and
    [y] are exactly the column and the row of the cell that contains the
    pixel, and the pass does not panic. *)
Theorem hover_reports hm gtx :
  well_formed hm ->
  let dims := ConstraintsMax gtx in
  let p := pointer (handle_moves hm dims (moves gtx)) in
  let inside :=
    pointerConstraint (handle_moves hm dims (moves gtx)) = dims
    /\ fgt (fX p) F32.zero = true
    /\ fgt (fY p) F32.zero = true
    /\ fle (fX p) (F32.of_int (pX dims)) = true
    /\ fle (fY p) (F32.of_int (pY dims)) = true in
  let bucket x y c :=
    {| XStart := int_mul x (XBucketSize hm);
       XEnd := int_add (int_mul x (XBucketSize hm)) (XBucketSize hm);
       YStart := int_mul y (YBucketSize hm);
       YEnd := int_add (int_mul y (YBucketSize hm)) (YBucketSize hm);
       Count := c |} in
  exists hm1 xs ys rb numX,
    layout_cache hm gtx = Some (hm1, xs, ys, rb)
    /\ numX = len (data hm1) / numYBuckets hm1
    /\ xs = F32.div (F32.of_int (pX dims)) (F32.of_int numX)
    /\ ys = F32.div (F32.of_int (pY dims)) (F32.of_int (numYBuckets hm1))
    /\ (~ inside ->
        Layout hm gtx
        = Some (with_hovered hm1 no_hover, [CallMacro (cachedMacro hm1)], rb)
        /\ HoveredBucket (with_hovered hm1 no_hover) = (no_hover, false))
    /\ (inside ->
        let x := to_int (F32.div (fX p) xs) in
        let y := to_int (F32.div (F32.sub (F32.of_int (pY dims)) (fY p)) ys) in
        match index (data hm1) (int_add (int_mul x (numYBuckets hm1)) y) with
        | Some c =>
            0 <= c
            /\ (exists outline,
                  Layout hm gtx
                  = Some (with_hovered hm1 (bucket x y c),
                          CallMacro (cachedMacro hm1) :: outline, rb))
            /\ HoveredBucket (with_hovered hm1 (bucket x y c))
               = (bucket x y c, true)
        | None => Layout hm gtx = None
        end)
    /\ (forall hm' ops rb',
          Layout hm gtx = Some (hm', ops, rb') ->
          (Count (hovered hm') = -1 <-> ~ inside)
          /\ (snd (HoveredBucket hm') = false <-> ~ inside))
    /\ (forall a b s t,
          last (moves gtx) = Some {| fX := F32.of_int a; fY := F32.of_int b |} ->
          0 < a < pX dims -> 0 < b <= pY dims ->
          pX dims < 2 ^ 24 -> pY dims < 2 ^ 24 ->
          pX dims = s * numX -> pY dims = t * numYBuckets hm1 ->
          exists x y c outline,
            s * x <= a < s * (x + 1)
            /\ t * y <= pY dims - b < t * (y + 1)
            /\ 0 <= x < numX /\ 0 <= y < numYBuckets hm1
            /\ index (data hm1) (x * numYBuckets hm1 + y) = Some c
            /\ Layout hm gtx
               = Some (with_hovered hm1 (bucket x y c),
                       CallMacro (cachedMacro hm1) :: outline, rb)).
Proof.
  intros Hwf dims p inside bucket.
  destruct (layout_cache_returns hm gtx Hwf)
    as (hm1 & xs & ys & rb & Hc & _ & Hagg).
  destruct Hagg as (HnumY & _ & Hlen & Hnn & _).
  destruct (layout_cache_pointer _ _ _ _ _ _ Hc) as [P1 P2].
  fold dims in P1, P2. fold p in P1.
  pose proof Hc as Hc'.
  apply layout_cache_inv in Hc' as (hmr & numX & Hr & Hd & Exs & Eys & Hg).
  fold dims in Hr, Exs, Eys, Hg.
  assert (Hsame : data hm1 = data hmr /\ numYBuckets hm1 = numYBuckets hmr
                  /\ XBucketSize hm1 = XBucketSize hm
                  /\ YBucketSize hm1 = YBucketSize hm).
  { apply refresh_fields in Hr as (_ & R2 & R3 & _).
    destruct (handle_moves_fields hm dims (moves gtx)) as (_ & M2 & M3 & _).
    apply geometry_inv in Hg as [(_ & -> & _)|(_ & _ & ops & _ & ->)];
      simpl; repeat split; congruence. }
  destruct Hsame as (D1 & D2 & SX & SY).
  rewrite <- D1, <- D2 in Hd. rewrite <- D2 in Eys.
  pose proof (len_nonneg (data hm1)) as Hl0.
  assert (HnumX : numX = len (data hm1) / numYBuckets hm1).
  { unfold int_div in Hd.
    destruct (Z.eqb_spec (numYBuckets hm1) 0); [lia|].
    injection Hd as <-. rewrite Z.quot_div_nonneg by lia.
    apply wrap_small.
    assert (0 <= len (data hm1) / numYBuckets hm1) by (apply Z.div_pos; lia).
    assert (len (data hm1) / numYBuckets hm1 <= len (data hm1)).
    { apply Z.div_le_upper_bound; [lia|]. nia. }
    unfold is_int, min_int, max_int in *. lia. }
  assert (Hin : hover_valid hm1 dims = true <-> inside).
  { rewrite hover_valid_true. unfold inside. rewrite P1, P2. reflexivity. }
  assert (HL : Layout hm gtx
               = '(outline, b) ← hover hm1 dims (Dp1 gtx) xs ys;
                 Some (with_hovered hm1 b,
                       CallMacro (cachedMacro hm1) :: outline, rb)).
  { unfold Layout. rewrite Hc. reflexivity. }
  assert (Hinside : inside ->
            let x := to_int (F32.div (fX p) xs) in
            let y := to_int (F32.div (F32.sub (F32.of_int (pY dims)) (fY p))
                               ys) in
            match index (data hm1) (int_add (int_mul x (numYBuckets hm1)) y)
            with
            | Some c =>
                0 <= c
                /\ (exists outline,
                      Layout hm gtx
                      = Some (with_hovered hm1 (bucket x y c),
                              CallMacro (cachedMacro hm1) :: outline, rb))
                /\ HoveredBucket (with_hovered hm1 (bucket x y c))
                   = (bucket x y c, true)
            | None => Layout hm gtx = None
            end).
  { intros Hi x y. apply Hin in Hi.
    rewrite HL. unfold hover. rewrite Hi.
    unfold hover_x, hover_y. rewrite P1. fold x y.
    destruct (cell_edges _ _ _ _ _) as [[[xStart yStart] xEnd] yEnd].
    destruct (index (data hm1) _) as [c|] eqn:Hidx; simpl; [|reflexivity].
    assert (Hc0 : 0 <= c).
    { apply index_Some in Hidx as [_ Hidx].
      exact (proj1 (Forall_lookup _ _) Hnn _ _ Hidx). }
    split; [exact Hc0|]. split.
    - eexists. unfold bucket. rewrite SX, SY. reflexivity.
    - unfold HoveredBucket. simpl.
      destruct (Z.eqb_spec c (-1)); [lia|]. reflexivity. }
  exists hm1, xs, ys, rb, numX.
  split; [exact Hc|]. split; [exact HnumX|].
  split; [exact Exs|]. split; [exact Eys|].
  split.
  { intros Hout.
    assert (Hv : hover_valid hm1 dims = false).
    { destruct (hover_valid hm1 dims) eqn:Hv; auto.
      exfalso. apply Hout, Hin. reflexivity. }
    rewrite HL. unfold hover. rewrite Hv. simpl. split; reflexivity. }
  split; [exact Hinside|].
  split.
  { intros hm' ops rb' HLay. rewrite HL in HLay. unfold hover in HLay.
    destruct (hover_valid hm1 dims) eqn:Hv.
    - assert (Hi : inside) by (apply Hin; reflexivity).
      destruct (cell_edges _ _ _ _ _) as [[[xStart yStart] xEnd] yEnd].
      destruct (index (data hm1) _) as [c|] eqn:Hidx; simpl in HLay;
        [|discriminate].
      injection HLay as <- _ _.
      assert (Hc0 : 0 <= c).
      { apply index_Some in Hidx as [_ Hidx].
        exact (proj1 (Forall_lookup _ _) Hnn _ _ Hidx). }
      unfold HoveredBucket. simpl.
      destruct (Z.eqb_spec c (-1)); [lia|]. simpl.
      split; split; try (intros; lia); try (intros Hn; contradiction);
        discriminate.
    - simpl in HLay. injection HLay as <- _ _. simpl.
      assert (Hout : ~ inside).
      { intros Hi. apply Hin in Hi. congruence. }
      split; split; auto. }
  intros a b s t Hlast Ha Hb HW HH EW EH.
  assert (Hp : p = {| fX := F32.of_int a; fY := F32.of_int b |}
               /\ pointerConstraint (handle_moves hm dims (moves gtx)) = dims).
  { destruct (handle_moves_pointer hm dims (moves gtx))
      as [(He & _)|(Hl & Hcst)].
    - rewrite He in Hlast. discriminate.
    - rewrite Hl in Hlast. injection Hlast as Hlast. split; auto. }
  destruct Hp as [Hp Hcst].
  assert (Hi : inside).
  { unfold inside. rewrite Hp. simpl. split; [exact Hcst|].
    split; [apply fgt_of_int_zero; unfold max_int; lia|].
    split; [apply fgt_of_int_zero; unfold max_int; lia|].
    split; apply fle_of_int; unfold max_int; lia. }
  assert (HnX : 0 <= numX) by (rewrite HnumX; apply Z.div_pos; lia).
  assert (HnX1 : 0 < numX).
  { destruct (Z.eq_dec numX 0) as [E|]; [|lia].
    rewrite E, Z.mul_0_r in EW. lia. }
  assert (Hs : 0 < s).
  { destruct (Z.le_gt_cases s 0); [|lia]. nia. }
  assert (Ht : 0 < t).
  { destruct (Z.le_gt_cases t 0); [|lia]. nia. }
  assert (Exs' : xs = F32.of_int s).
  { rewrite Exs. apply (F32_div_exact (pX dims) numX s); lia. }
  assert (Eys' : ys = F32.of_int t).
  { rewrite Eys. apply (F32_div_exact (pY dims) (numYBuckets hm1) t); lia. }
  specialize (Hinside Hi). cbv zeta in Hinside.
  rewrite Hp in Hinside. simpl fX in Hinside. simpl fY in Hinside.
  rewrite Exs', Eys' in Hinside.
  rewrite F32_sub_small in Hinside by lia.
  rewrite !to_int_div_small in Hinside by nia.
  set (x := a / s) in *. set (y := (pY dims - b) / t) in *.
  assert (Hx : s * x <= a < s * (x + 1)).
  { pose proof (Z.div_mod a s ltac:(lia)).
    pose proof (Z.mod_pos_bound a s ltac:(lia)). fold x in H. nia. }
  assert (Hy : t * y <= pY dims - b < t * (y + 1)).
  { pose proof (Z.div_mod (pY dims - b) t ltac:(lia)).
    pose proof (Z.mod_pos_bound (pY dims - b) t ltac:(lia)). fold y in H.
    nia. }
  assert (Hx0 : 0 <= x < numX) by nia.
  assert (Hy0 : 0 <= y < numYBuckets hm1) by nia.
  assert (Hgrid : numYBuckets hm1 * numX <= len (data hm1)).
  { rewrite HnumX. apply Z.mul_div_le. lia. }
  assert (Hidx : int_add (int_mul x (numYBuckets hm1)) y
                 = x * numYBuckets hm1 + y).
  { unfold int_add, int_mul.
    rewrite (wrap_small (x * numYBuckets hm1))
      by (unfold is_int, min_int, max_int in *; nia).
    apply wrap_small. unfold is_int, min_int, max_int in *. nia. }
  rewrite Hidx in Hinside.
  destruct (index_is_Some (data hm1) (x * numYBuckets hm1 + y) ltac:(nia))
    as [c Hc1].
  rewrite Hc1 in Hinside. destruct Hinside as (_ & (outline & HLay) & _).
  exists x, y, c, outline.
  split; [exact Hx|]. split; [exact Hy|]. split; [exact Hx0|].
  split; [exact Hy0|]. split; [exact Hc1|]. exact HLay.
Qed.

(** X10.  After a Layout on a well-formed state, HoveredBucket reports a
    bucket exactly when the guard of the hover accepted the pointer: the
    counts of the grid are never negative, so a hovered count is never
    taken for the sentinel -1. *)
Theorem HoveredBucket_after_Layout hm gtx hm' ops rb :
  well_formed hm ->
  Layout hm gtx = Some (hm', ops, rb) ->
  snd (HoveredBucket hm')
  = hover_valid (handle_moves hm (ConstraintsMax gtx) (moves gtx))
      (ConstraintsMax gtx).
Proof.
  intros Hwf H.
  apply Layout_inv in H as (hm2 & xs & ys & outline & b & Hc & Hh & -> & _).
  destruct (layout_cache_returns hm gtx Hwf)
    as (hm2' & xs' & ys' & rb' & Hc' & _ & Hagg).
  rewrite Hc in Hc'. injection Hc' as <- <- <- <-.
  destruct (layout_cache_pointer _ _ _ _ _ _ Hc) as [P1 P2].
  rewrite <- (hover_valid_ext _ hm2 _ P1 P2).
  destruct Hagg as (_ & _ & _ & Hnn & _).
  unfold HoveredBucket. simpl. unfold hover in Hh.
  destruct (hover_valid hm2 (ConstraintsMax gtx)).
  - destruct (cell_edges _ _ _ _ _) as [[[x0 y0] x1] y1].
    destruct (index (data hm2) _) as [c|] eqn:Hi; simpl in Hh; [|discriminate].
    injection Hh as _ <-. simpl.
    apply index_Some in Hi as [_ Hi].
    rewrite Forall_forall in Hnn.
    assert (0 <= c) by (apply Hnn, list_elem_of_lookup; eauto).
    destruct (Z.eqb_spec c (-1)); [lia|reflexivity].
  - injection Hh as _ <-. reflexivity.
Qed.

(** X11.  A second Layout of the same frame without pointer moves changes
    nothing: it returns the state that the first one left and the same
    operations, and it does not rebuild the cached operations. *)
Theorem Layout_again hm gtx hm1 ops rb gtx' :
  Layout hm gtx = Some (hm1, ops, rb) ->
  ConstraintsMax gtx' = ConstraintsMax gtx -> Dp1 gtx' = Dp1 gtx ->
  moves gtx' = [] ->
  Layout hm1 gtx' = Some (hm1, ops, false).
Proof.
  intros H Hd Hp Hm.
  pose proof (Layout_stores_key _ _ _ _ _ H) as (K1 & K2 & K3 & K4).
  apply Layout_inv in H as (hm2 & xs & ys & outline & b & Hc & Hh & -> & ->).
  apply layout_cache_inv in Hc as (hmr & numX & Hr & Hdiv & Hxs & Hys & Hg).
  simpl in K1, K2, K3, K4.
  assert (Hkey : key_of hm2 (ConstraintsMax gtx) = cacheKey hm2).
  { rewrite K1. unfold key_of. rewrite K2, K3, K4. reflexivity. }
  assert (Hgrid : data hm2 = data hmr /\ numYBuckets hm2 = numYBuckets hmr).
  { apply geometry_inv in Hg as [(_ & -> & _)|(_ & _ & ops' & _ & ->)];
      simpl; auto. }
  destruct Hgrid as [G1 G2].
  unfold Layout, layout_cache. rewrite Hd, Hp, Hm. cbv zeta. simpl handle_moves.
  change (key_of (with_hovered hm2 b) (ConstraintsMax gtx))
    with (key_of hm2 (ConstraintsMax gtx)).
  rewrite refresh_same_sizes
    by (simpl; rewrite <- Hkey; reflexivity).
  simpl. rewrite G1, G2, Hdiv. simpl.
  unfold geometry. simpl. rewrite Hkey.
  rewrite bool_decide_eq_true_2 by reflexivity. simpl.
  rewrite <- Hxs, <- Hys.
  change (hover (with_hovered hm2 b) (ConstraintsMax gtx) (Dp1 gtx) xs ys)
    with (hover hm2 (ConstraintsMax gtx) (Dp1 gtx) xs ys).
  rewrite Hh. reflexivity.
Qed.

Lemma bucket_row_length ybs numY xs :
  forall i d d', bucket_row ybs numY i xs d = Some d' -> length d' = length d.
Proof.
  induction xs as [|y xs IH]; intros i d d' H; simpl in H.
  - injection H as <-. reflexivity.
  - destruct (bin_of ybs numY y) as [bin|]; simpl in H; [|discriminate].
    destruct (index d _) as [c|]; simpl in H; [|discriminate].
    destruct (store d _ _) as [d1|] eqn:Hs; simpl in H; [|discriminate].
    apply store_Some in Hs as [_ ->]. apply IH in H.
    rewrite length_insert in H. exact H.
Qed.

Lemma bucket_rows_length ybs numY rows :
  forall d d', bucket_rows ybs numY rows d = Some d' -> length d' = length d.
Proof.
  induction rows as [|r rows IH]; intros d d' H; simpl in H.
  - injection H as <-. reflexivity.
  - destruct (bucket_row ybs numY 0 r d) as [d1|] eqn:Hd1; simpl in H;
      [|discriminate].
    apply bucket_row_length in Hd1. apply IH in H. lia.
Qed.

(** When a bucket size is not the one of the stored key, a Layout that
    returns has aggregated the raw series anew and rebuilt the cached
    operations. *)
Lemma Layout_reaggregates hm gtx hm2 ops rb :
  XBucketSize hm <> xBucketSize (cacheKey hm)
  \/ YBucketSize hm <> yBucketSize (cacheKey hm) ->
  Layout hm gtx = Some (hm2, ops, rb) ->
  rb = true
  /\ origData hm2 = origData hm
  /\ numYBuckets hm2 = numYBuckets_of (MaxY hm) (YBucketSize hm)
  /\ exists row0,
       origData hm !! 0%nat = Some row0
       /\ bucket_rows (YBucketSize hm) (numYBuckets hm2) (origData hm)
            (replicate (Z.to_nat (int_mul (len row0) (numYBuckets hm2))) 0)
          = Some (data hm2).
Proof.
  intros Hsz H.
  apply Layout_inv in H as (hmc & xs & ys & outline & b & Hc & _ & -> & _).
  apply layout_cache_inv in Hc as (hmr & numX & Hr & _ & _ & _ & Hg).
  set (dims := ConstraintsMax gtx) in *.
  destruct (handle_moves_fields hm dims (moves gtx))
    as (_ & M2 & M3 & M4 & _ & _ & _ & _ & _ & _ & M11 & M12).
  set (hm0 := handle_moves hm dims (moves gtx)) in *.
  unfold refresh in Hr. rewrite M4 in Hr.
  assert (Hneg : negb (xBucketSize (key_of hm dims) =? xBucketSize
                         (cacheKey hm))
                 || negb (yBucketSize (key_of hm dims) =? yBucketSize
                            (cacheKey hm)) = true).
  { simpl. apply orb_true_iff.
    destruct Hsz as [Hx|Hy]; [left|right]; apply negb_true_iff, Z.eqb_neq;
      auto. }
  rewrite Hneg in Hr. rewrite M11 in Hr.
  destruct (origData hm !! 0%nat) as [row0|] eqn:Hd0; simpl in Hr;
    [|discriminate].
  destruct (computeBuckets _) as [hmb|] eqn:Hb; simpl in Hr; [|discriminate].
  destruct (computeSaturations_fields _ _ Hr)
    as (_ & _ & _ & C4 & _ & _ & _ & _ & C9 & C10).
  destruct (computeSaturations_input _ _ Hr) as (_ & C12 & _).
  destruct (computeBuckets_fields _ _ Hb) as (_ & _ & _ & B4 & _).
  unfold computeBuckets in Hb. simpl in Hb. rewrite M12, M3, M11 in Hb.
  destruct (make _) as [d0|] eqn:Hm; simpl in Hb; [|discriminate].
  destruct (bucket_rows _ _ _ d0) as [d1|] eqn:Hrows; simpl in Hb;
    [|discriminate].
  injection Hb as <-. simpl in *.
  apply make_Some in Hm as [_ ->].
  assert (Hk : cacheKey hmr <> key_of hm dims).
  { rewrite C4, M4. intros E.
    pose proof (f_equal xBucketSize E) as Ex.
    pose proof (f_equal yBucketSize E) as Ey.
    simpl in Ex, Ey. destruct Hsz; congruence. }
  apply geometry_inv in Hg as [(Hk' & _)|(_ & -> & ops' & _ & ->)];
    [contradiction|].
  simpl. rewrite C9, C10, C12, M11.
  split; [reflexivity|]. split; [reflexivity|]. split; [reflexivity|].
  exists row0. split; [reflexivity|]. exact Hrows.
Qed.

Lemma SetData_then_Layout_aux hm d hm1 gtx hm2 ops rb :
  SetData hm d = Some hm1 ->
  XBucketSize hm <> 0 \/ YBucketSize hm <> 0 ->
  Layout hm1 gtx = Some (hm2, ops, rb) ->
  rb = true
  /\ origData hm2 = d
  /\ numYBuckets hm2 = numYBuckets_of (MaxY hm) (YBucketSize hm)
  /\ exists row0,
       d !! 0%nat = Some row0
       /\ bucket_rows (YBucketSize hm) (numYBuckets hm2) d
            (replicate (Z.to_nat (int_mul (len row0) (numYBuckets hm2))) 0)
          = Some (data hm2).
Proof.
  intros Hset Hsz H.
  apply SetData_fields in Hset as (row0 & rest & -> & ->).
  destruct (Layout_reaggregates
              (with_origData hm (row0 :: rest) (len row0) zero_key)
              gtx hm2 ops rb Hsz H) as (R1 & R2 & R3 & r0 & R4 & R5).
  simpl in R2, R3, R4, R5. injection R4 as <-.
  split; [exact R1|]. split; [exact R2|]. split; [exact R3|].
  exists row0. split; [reflexivity|]. exact R5.
Qed.

(** X12.  SetData panics on an empty list of series.  Otherwise it stores
    the series and resets the cache key, so that the next Layout (with a
    bucket size that is not 0) takes the number of X buckets from the first
    series, aggregates the new series and rebuilds the cached operations. *)
Theorem SetData_then_Layout hm d :
  (d = [] -> SetData hm d = None)
  /\ forall hm1 gtx hm2 ops rb,
       SetData hm d = Some hm1 ->
       XBucketSize hm <> 0 \/ YBucketSize hm <> 0 ->
       Layout hm1 gtx = Some (hm2, ops, rb) ->
       rb = true
       /\ origData hm2 = d
       /\ numYBuckets hm2 = numYBuckets_of (MaxY hm) (YBucketSize hm)
       /\ exists row0,
            d !! 0%nat = Some row0
            /\ bucket_rows (YBucketSize hm) (numYBuckets hm2) d
                 (replicate (Z.to_nat (int_mul (len row0) (numYBuckets hm2))) 0)
               = Some (data hm2).
Proof.
  split; [intros ->; reflexivity|].
  intros hm1 gtx hm2 ops rb. apply SetData_then_Layout_aux.
Qed.

(** X13.  When the first series is empty the grid has no cell, and a
    Layout in which the guard of the hover accepts the pointer panics: the
    lookup [hm.data[idx]] is out of range. *)
Theorem hover_without_columns hm d hm1 gtx :
  SetData hm d = Some hm1 ->
  d !! 0%nat = Some [] ->
  XBucketSize hm <> 0 \/ YBucketSize hm <> 0 ->
  hover_valid (handle_moves hm1 (ConstraintsMax gtx) (moves gtx))
    (ConstraintsMax gtx) = true ->
  Layout hm1 gtx = None.
Proof.
  intros Hset Hd0 Hsz Hv.
  destruct (Layout hm1 gtx) as [[[hm2 ops] rb]|] eqn:H; [|reflexivity].
  exfalso.
  destruct (SetData_then_Layout_aux hm d hm1 gtx hm2 ops rb Hset Hsz H)
    as (_ & _ & _ & row0 & Hr0 & Hrows).
  rewrite Hd0 in Hr0. injection Hr0 as <-.
  apply bucket_rows_length in Hrows.
  change (int_mul (len []) (numYBuckets hm2)) with 0 in Hrows.
  simpl in Hrows. apply nil_length_inv in Hrows.
  apply Layout_inv in H as (hmc & xs & ys & outline & b & Hc & Hh & -> & _).
  destruct (layout_cache_pointer _ _ _ _ _ _ Hc) as [P1 P2].
  rewrite <- (hover_valid_ext _ hmc _ P1 P2) in Hv.
  unfold hover in Hh. rewrite Hv in Hh. simpl in Hrows.
  destruct (cell_edges _ _ _ _ _) as [[[x0 y0] x1] y1].
  rewrite Hrows in Hh. unfold index in Hh.
  destruct (_ <? 0); simpl in Hh; discriminate.
Qed.

(** ** HeatmapComponent *)

Lemma ySteps_divide_100 y s :
  0 <= y <= 8 -> index ySteps y = Some s ->
  0 < s <= 100 /\ numYBuckets_of 100 s * s = 100.
Proof.
  intros Hy H.
  assert (Hc : y = 0 \/ y = 1 \/ y = 2 \/ y = 3 \/ y = 4 \/ y = 5 \/ y = 6
               \/ y = 7 \/ y = 8) by lia.
  destruct Hc as [->|[->|[->|[->|[->|[->|[->|[->| ->]]]]]]]];
    vm_compute in H; injection H as <-;
    (split; [lia|]); rewrite numYBuckets_of_exact by lia; reflexivity.
Qed.

Lemma handle_event_ok hmc ev hmc' :
  component_ok hmc -> handle_event hmc ev = Some hmc' ->
  component_ok hmc' /\ hmc_trace hmc' = hmc_trace hmc.
Proof.
  intros (Hy & Hs & Hm & Hd) H.
  destruct ev as [focus|name [|]]; simpl in H;
    try (injection H as <-; unfold component_ok; auto).
  unfold component_ok.
  destruct name; simpl in H; cbv zeta in H.
  - set (y := if len ySteps <=? int_add (hmc_yStep hmc) 1
              then int_sub (len ySteps) 1 else int_add (hmc_yStep hmc) 1)
      in H.
    assert (Hy' : 0 <= y <= 8).
    { subst y. unfold int_add, int_sub, len. simpl length.
      rewrite (wrap_small (hmc_yStep hmc + 1))
        by (unfold is_int, min_int, max_int; lia).
      destruct (Z.leb_spec (Z.of_nat 9) (hmc_yStep hmc + 1));
        [vm_compute; split; discriminate | lia]. }
    destruct (index ySteps y) as [s|] eqn:Hi; simpl in H; [|discriminate].
    injection H as <-. simpl. auto.
  - set (y := if int_sub (hmc_yStep hmc) 1 <? 0 then 0
              else int_sub (hmc_yStep hmc) 1) in H.
    assert (Hy' : 0 <= y <= 8).
    { subst y. unfold int_sub.
      rewrite (wrap_small (hmc_yStep hmc - 1))
        by (unfold is_int, min_int, max_int; lia).
      destruct (Z.ltb_spec (hmc_yStep hmc - 1) 0); lia. }
    destruct (index ySteps y) as [s|] eqn:Hi; simpl in H; [|discriminate].
    injection H as <-. simpl. auto.
  - set (x := if int_sub (XBucketSize (hmc_hm hmc)) (10 * Millisecond)
                 <? 10 * Millisecond
              then 10 * Millisecond
              else int_sub (XBucketSize (hmc_hm hmc)) (10 * Millisecond))
      in H.
    destruct (bucketByX (hmc_trace hmc) x) as [d|] eqn:Hb; simpl in H;
      [|discriminate].
    destruct (SetData _ d) as [hm'|] eqn:Hsd; simpl in H; [|discriminate].
    injection H as <-. simpl.
    apply SetData_fields in Hsd as (row0 & rest & -> & ->). simpl. auto.
  - set (x := int_add (XBucketSize (hmc_hm hmc)) (10 * Millisecond)) in H.
    destruct (bucketByX (hmc_trace hmc) x) as [d|] eqn:Hb; simpl in H;
      [|discriminate].
    destruct (SetData _ d) as [hm'|] eqn:Hsd; simpl in H; [|discriminate].
    injection H as <-. simpl.
    apply SetData_fields in Hsd as (row0 & rest & -> & ->). simpl. auto.
Qed.

Lemma handle_events_ok hmc evs :
  forall hmc', component_ok hmc -> handle_events hmc evs = Some hmc' ->
    component_ok hmc' /\ hmc_trace hmc' = hmc_trace hmc.
Proof.
  revert hmc. induction evs as [|ev evs IH]; intros hmc hmc' Hok H;
    simpl in H.
  - injection H as <-. auto.
  - destruct (handle_event hmc ev) as [hmc1|] eqn:He; simpl in H;
      [|discriminate].
    destruct (handle_event_ok _ _ _ Hok He) as [Hok1 Ht1].
    destruct (IH _ _ Hok1 H) as [Hok' Ht']. split; [auto|congruence].
Qed.

(** X14.  The event loop of HeatmapComponent.Layout keeps the state of the
    component consistent: the step index stays within [ySteps] and selects
    the Y bucket size, the raw series are those of the X bucket size, and
    the Y bucket size divides the largest value 100, so that the Y buckets
    tile [0, 100] exactly. *)
Theorem handle_events_keeps_component_ok hmc evs hmc' :
  component_ok hmc -> handle_events hmc evs = Some hmc' ->
  component_ok hmc'
  /\ hmc_trace hmc' = hmc_trace hmc
  /\ numYBuckets_of 100 (YBucketSize (hmc_hm hmc'))
     * YBucketSize (hmc_hm hmc') = 100.
Proof.
  intros Hok H. destruct (handle_events_ok _ _ _ Hok H) as [Hok' Ht].
  split; [exact Hok'|]. split; [exact Ht|].
  destruct Hok' as (Hy & Hs & _).
  apply (ySteps_divide_100 _ _ Hy Hs).
Qed.

Lemma processors_busy_total tr xStep ps :
  (forall p, is_Some (ComputeProcessorBusy tr p xStep)) ->
  exists rows, processors_busy tr xStep ps = Some rows
               /\ length rows = length ps.
Proof.
  intros Ht. induction ps as [|p ps IH]; simpl.
  - exists []. auto.
  - destruct (Ht p) as [row ->]. destruct IH as (rows & -> & Hl). simpl.
    exists (row :: rows). simpl. auto.
Qed.

Lemma bucketByX_SetData tr xStep hm :
  Processors tr <> [] ->
  (forall p, is_Some (ComputeProcessorBusy tr p xStep)) ->
  exists d hm', bucketByX tr xStep = Some d /\ SetData hm d = Some hm'.
Proof.
  intros Hne Ht. unfold bucketByX.
  destruct (processors_busy_total tr xStep (Processors tr) Ht)
    as (rows & -> & Hl).
  exists rows. unfold SetData.
  destruct rows as [|row0 rest]; simpl.
  - destruct (Processors tr); [contradiction|discriminate].
  - eauto.
Qed.

Lemma handle_event_returns hmc ev :
  component_ok hmc ->
  Processors (hmc_trace hmc) <> [] ->
  (forall p x, is_Some (ComputeProcessorBusy (hmc_trace hmc) p x)) ->
  is_Some (handle_event hmc ev).
Proof.
  intros (Hy & Hs & Hm & Hd) Hne Ht.
  destruct ev as [focus|name [|]]; simpl; eauto.
  destruct name; simpl; cbv zeta.
  - unfold int_add, int_sub. unfold len. simpl length.
    rewrite (wrap_small (hmc_yStep hmc + 1))
      by (unfold is_int, min_int, max_int; lia).
    destruct (Z.leb_spec (Z.of_nat 9) (hmc_yStep hmc + 1)).
    + vm_compute. eauto.
    + destruct (index_is_Some ySteps (hmc_yStep hmc + 1)) as [s ->];
        [unfold len; simpl; lia | simpl; eauto].
  - unfold int_sub.
    rewrite (wrap_small (hmc_yStep hmc - 1))
      by (unfold is_int, min_int, max_int; lia).
    destruct (Z.ltb_spec (hmc_yStep hmc - 1) 0).
    + vm_compute. eauto.
    + destruct (index_is_Some ySteps (hmc_yStep hmc - 1)) as [s ->];
        [unfold len; simpl; lia | simpl; eauto].
  - match goal with
    | |- context [bucketByX ?tr ?x] =>
        destruct (bucketByX_SetData tr x
                    (with_XBucketSize (hmc_hm hmc) x) Hne (fun p => Ht p x))
          as (d & hm' & -> & Hsd)
    end.
    simpl. rewrite Hsd. simpl. eauto.
  - match goal with
    | |- context [bucketByX ?tr ?x] =>
        destruct (bucketByX_SetData tr x
                    (with_XBucketSize (hmc_hm hmc) x) Hne (fun p => Ht p x))
          as (d & hm' & -> & Hsd)
    end.
    simpl. rewrite Hsd. simpl. eauto.
Qed.

(** X15.  On a trace with at least one processor, and as long as
    ComputeProcessorBusy returns, the event loop of HeatmapComponent.Layout
    does not panic: the index into [ySteps] is always in range and SetData
    always gets a first series. *)
Theorem handle_events_returns hmc evs :
  component_ok hmc ->
  Processors (hmc_trace hmc) <> [] ->
  (forall p x, is_Some (ComputeProcessorBusy (hmc_trace hmc) p x)) ->
  is_Some (handle_events hmc evs).
Proof.
  revert hmc. induction evs as [|ev evs IH]; intros hmc Hok Hne Ht; simpl.
  - eauto.
  - destruct (handle_event_returns hmc ev Hok Hne Ht) as [hmc1 He].
    rewrite He. simpl.
    destruct (handle_event_ok _ _ _ Hok He) as [Hok1 Ht1].
    apply IH; auto; rewrite Ht1; auto.
Qed.

(** X16.  On a trace without processors, NewHeatmapComponent panics, and
    so does a press of the left or of the right arrow: bucketByX returns
    no series and SetData indexes the first one. *)
Theorem no_processors_panics (tr : Trace) :
  Processors tr = [] ->
  NewHeatmapComponent tr = None
  /\ forall hmc, hmc_trace hmc = tr ->
       handle_event hmc (KeyEvent NameLeftArrow Press) = None
       /\ handle_event hmc (KeyEvent NameRightArrow Press) = None.
Proof.
  intros Hp. split.
  - unfold NewHeatmapComponent, bucketByX. rewrite Hp. reflexivity.
  - intros hmc <-. simpl. unfold bucketByX. rewrite Hp. auto.
Qed.

(** X17.  NewHeatmapComponent, when it returns, leaves a consistent
    component: the largest value is 100, the bucket sizes are 100ms and 1,
    the step index is 0, the raw series are those of bucketByX, the number
    of X buckets is the length of the first series and the cache key is
    reset.  It returns on a trace with a processor when
    ComputeProcessorBusy does. *)
Theorem NewHeatmapComponent_state (tr : Trace) :
  (forall hmc, NewHeatmapComponent tr = Some hmc ->
     component_ok hmc
     /\ hmc_trace hmc = tr /\ hmc_yStep hmc = 0
     /\ XBucketSize (hmc_hm hmc) = 100 * Millisecond
     /\ YBucketSize (hmc_hm hmc) = 1
     /\ UseLinearColors (hmc_hm hmc) = false
     /\ cacheKey (hmc_hm hmc) = zero_key
     /\ exists row0 rest,
          origData (hmc_hm hmc) = row0 :: rest
          /\ numXBuckets (hmc_hm hmc) = len row0)
  /\ (Processors tr <> [] ->
      (forall p, is_Some (ComputeProcessorBusy tr p (100 * Millisecond))) ->
      is_Some (NewHeatmapComponent tr)).
Proof.
  split.
  - intros hmc H. unfold NewHeatmapComponent in H. cbv zeta in H.
    destruct (bucketByX tr _) as [d|] eqn:Hb; simpl in H; [|discriminate].
    destruct (SetData _ d) as [hm'|] eqn:Hsd; simpl in H; [|discriminate].
    injection H as <-. simpl.
    apply SetData_fields in Hsd as (row0 & rest & -> & ->).
    unfold component_ok. simpl.
    repeat split; auto; try lia. eauto.
  - intros Hne Ht. unfold NewHeatmapComponent. cbv zeta.
    match goal with
    | |- context [SetData ?hm _] =>
        destruct (bucketByX_SetData tr (100 * Millisecond) hm Hne Ht)
          as (d & hm' & -> & Hsd)
    end.
    simpl. rewrite Hsd. simpl. eauto.
Qed.

Lemma handle_event_XBucketSize hmc ev hmc' :
  10 * Millisecond <= XBucketSize (hmc_hm hmc) ->
  XBucketSize (hmc_hm hmc) + 10 * Millisecond <= max_int ->
  handle_event hmc ev = Some hmc' ->
  XBucketSize (hmc_hm hmc') = XBucketSize_after (XBucketSize (hmc_hm hmc)) ev
  /\ 10 * Millisecond <= XBucketSize (hmc_hm hmc')
     <= XBucketSize (hmc_hm hmc) + 10 * Millisecond.
Proof.
  intros Hlo Hhi H.
  destruct ev as [focus|name [|]]; simpl in H.
  - injection H as <-. simpl. unfold Millisecond in *. lia.
  - destruct name; simpl in H; cbv zeta in H.
    + destruct (index ySteps _) as [s|]; simpl in H; [|discriminate].
      injection H as <-. simpl. unfold Millisecond in *. lia.
    + destruct (index ySteps _) as [s|]; simpl in H; [|discriminate].
      injection H as <-. simpl. unfold Millisecond in *. lia.
    + destruct (bucketByX _ _) as [d|]; simpl in H; [|discriminate].
      destruct (SetData _ d) as [hm'|] eqn:Hsd; simpl in H; [|discriminate].
      injection H as <-. simpl.
      apply SetData_fields in Hsd as (row0 & rest & -> & ->). simpl.
      unfold int_sub, Millisecond, max_int in *.
      rewrite wrap_small by (unfold is_int, min_int, max_int; lia).
      destruct (Z.ltb_spec (XBucketSize (hmc_hm hmc) - 10 * 1000000)
                  (10 * 1000000)); lia.
    + destruct (bucketByX _ _) as [d|]; simpl in H; [|discriminate].
      destruct (SetData _ d) as [hm'|] eqn:Hsd; simpl in H; [|discriminate].
      injection H as <-. simpl.
      apply SetData_fields in Hsd as (row0 & rest & -> & ->). simpl.
      unfold int_add, Millisecond, max_int in *.
      rewrite wrap_small by (unfold is_int, min_int, max_int; lia). lia.
  - injection H as <-. destruct name; simpl; unfold Millisecond in *; lia.
Qed.

(** X18.  The X bucket size after the event loop is the size before it
    with each event applied in turn: a press of the left arrow takes 10ms
    off, but not below 10ms, a press of the right arrow adds 10ms, and any
    other event leaves the size alone.  From a size of at least 10ms it
    therefore never falls below 10ms. *)
Theorem XBucketSize_floor hmc evs hmc' :
  10 * Millisecond <= XBucketSize (hmc_hm hmc) ->
  XBucketSize (hmc_hm hmc) + 10 * Millisecond * len evs <= max_int ->
  handle_events hmc evs = Some hmc' ->
  XBucketSize (hmc_hm hmc')
  = foldl XBucketSize_after (XBucketSize (hmc_hm hmc)) evs
  /\ 10 * Millisecond <= XBucketSize (hmc_hm hmc')
     <= XBucketSize (hmc_hm hmc) + 10 * Millisecond * len evs.
Proof.
  revert hmc. induction evs as [|ev evs IH]; intros hmc Hlo Hhi H;
    simpl in H.
  - injection H as <-. unfold len. simpl. lia.
  - rewrite len_cons in *. pose proof (len_nonneg evs).
    destruct (handle_event hmc ev) as [hmc1|] eqn:He; simpl in H;
      [|discriminate].
    assert (Hm : 0 < 10 * Millisecond) by (unfold Millisecond; lia).
    destruct (handle_event_XBucketSize _ _ _ Hlo ltac:(nia) He)
      as (E1 & H1 & H2).
    destruct (IH hmc1 H1 ltac:(nia) H) as (E2 & H3 & H4).
    split; [|nia].
    rewrite E2, E1. reflexivity.
Qed.

(** ** The label of the hovered bucket *)

(** X19.  The label of the hovered bucket closes its range with a square
    bracket exactly when the hovered bucket is the last Y bucket, the one
    that also holds the largest value, and with a parenthesis for every
    other one. *)
Theorem label_close_last_bucket hm gtx hm1 xs ys rb hm' ops :
  well_formed hm ->
  layout_cache hm gtx = Some (hm1, xs, ys, rb) ->
  Layout hm gtx = Some (hm', ops, rb) ->
  hover_valid hm1 (ConstraintsMax gtx) = true ->
  0 < MaxY hm < 2 ^ 53 -> YBucketSize hm < 2 ^ 53 ->
  let y := hover_y hm1 (ConstraintsMax gtx) ys in
  0 <= y <= numYBuckets hm1 ->
  label_close hm'
  = Some (if numYBuckets hm1 - 1 <=? y then "]"%char else ")"%char).
Proof.
  intros Hwf Hc H Hv HM HY y Hy.
  destruct (layout_cache_returns hm gtx Hwf)
    as (hm2 & xs' & ys' & rb' & Hc' & Hwf1 & Hagg).
  rewrite Hc in Hc'. injection Hc' as <- <- <- <-.
  destruct (layout_cache_sizes _ _ _ _ _ _ Hc) as (S1 & S2 & _).
  destruct Hagg as (HnY & HnYe & _ & Hnn & _).
  destruct Hwf1 as (_ & _ & (row0 & _ & (Hybs & _) & _) & _).
  simpl in Hybs. rewrite S1, S2 in HnYe. rewrite S2 in Hybs.
  rewrite numYBuckets_of_exact in HnYe by lia.
  unfold Layout in H. rewrite Hc in H. simpl in H.
  unfold hover in H. rewrite Hv in H. fold y in H.
  destruct (cell_edges _ _ _ _ _) as [[[x0 y0] x1] y1].
  destruct (index (data hm1) _) as [c|] eqn:Hi; simpl in H; [|discriminate].
  injection H as <- _.
  apply index_Some in Hi as [_ Hi]. rewrite Forall_forall in Hnn.
  assert (Hcn : 0 <= c) by (apply Hnn, list_elem_of_lookup; eauto).
  unfold label_close, HoveredBucket. simpl.
  destruct (Z.eqb_spec c (-1)); [lia|]. simpl. f_equal.
  rewrite S1, S2.
  set (s := YBucketSize hm) in *. set (M := MaxY hm) in *.
  set (N := numYBuckets hm1) in *.
  assert (HN : s * N <= M + s - 1 < s * N + s).
  { rewrite HnYe. pose proof (Z.mul_div_le (M + s - 1) s ltac:(lia)).
    pose proof (Z.mul_succ_div_gt (M + s - 1) s ltac:(lia)). lia. }
  assert (Hpow : 2 ^ 53 = 9007199254740992) by reflexivity.
  assert (Hmul : int_add (int_mul y s) s = y * s + s).
  { unfold int_add, int_mul.
    rewrite (wrap_small (y * s))
      by (unfold is_int, min_int, max_int; nia).
    apply wrap_small. unfold is_int, min_int, max_int. nia. }
  rewrite Hmul.
  destruct (Z.leb_spec (N - 1) y), (Z.leb_spec M (y * s + s));
    try reflexivity; nia.
Qed.

(** ** The saturations as functions of the rank and of the largest count *)

Lemma count_below_search (a : list Z) (x : Z) :
  forall S,
    0 <= S <= len a ->
    (forall i y, a !! i = Some y -> (Z.of_nat i < S <-> y < x)) ->
    count_below a x = S.
Proof.
  unfold count_below.
  induction a as [|y a IH]; intros S HS Hsp.
  - unfold len in *. simpl in *. lia.
  - rewrite len_cons in HS. simpl.
    pose proof (Hsp 0%nat y eq_refl) as H0. simpl in H0.
    destruct (Z.ltb_spec y x) as [Hlt|Hge].
    + rewrite len_cons. rewrite (IH (S - 1)); [lia|lia|].
      intros i y' Hi. specialize (Hsp (Datatypes.S i) y' Hi). lia.
    + assert (S = 0) by lia. subst S.
      apply (IH 0); [pose proof (len_nonneg a); lia|].
      intros i y' Hi. specialize (Hsp (Datatypes.S i) y' Hi). lia.
Qed.

(** X20.  The two tables as functions of the counts.  With [n] distinct
    counts in the grid, of which [k] are below the count [v] of a cell, the
    ranked saturation of the cell is [uint8(255 * ((k+1) / n))]; with the
    largest count [top], its linear saturation is
    [uint8(255 * (v / top))]; both computed in float32, and replaced by 1
    when the conversion gives 0. *)
Theorem saturations_by_rank_and_maximum (hm hm' : Heatmap) :
  computeSaturations hm = Some hm' ->
  0 < len (data hm) <= max_int ->
  Forall (fun v => 0 <= v) (data hm) ->
  let distinct := snd (deduplicate (sort_Ints (data hm))) in
  exists top,
    top ∈ data hm /\ (forall w, w ∈ data hm -> w <= top)
    /\ forall i v, data hm !! i = Some v ->
         rankedSaturations hm' !! i
         = Some (let s := to_uint8
                            (F32.mul (F32.of_int 255)
                               (F32.div
                                  (F32.of_int (count_below distinct v + 1))
                                  (F32.of_int (len distinct)))) in
                 if s =? 0 then 1 else s)
         /\ linearSaturations hm' !! i
            = Some (let s := to_uint8
                               (F32.mul (F32.of_int 255)
                                  (F32.div (F32.of_int v) (F32.of_int top))) in
                    if s =? 0 then 1 else s).
Proof.
  intros H Hlen Hnn distinct.
  destruct (computeSaturations_entries hm hm' Hlen H)
    as (sorted & top & Hidx & Hlast & _ & _ & L3).
  destruct (sort_Ints_last _ _ Hlast) as [Htd Htop].
  exists top. split; [exact Htd|]. split; [exact Htop|].
  intros i v Hi. destruct (L3 i v Hi) as (r & l & Hr & Hl & Hrs & Hls).
  unfold distinct. rewrite deduplicate_unique.
  set (unique := uniq (-1) (sort_Ints (data hm))) in *.
  pose proof (unique_sorted (data hm)) as Hsorted. fold unique in Hsorted.
  destruct (SearchInts_spec unique v Hsorted) as [Hb Hsp].
  rewrite (count_below_search unique v (SearchInts unique v) Hb Hsp).
  split.
  - rewrite Hrs. f_equal. unfold ranked_saturation in Hr. cbv zeta in Hr.
    destruct (Z.eqb_spec (SearchInts unique v) (len unique));
      [discriminate|].
    injection Hr as <-.
    assert (E : int_add (SearchInts unique v) 1 = SearchInts unique v + 1).
    { unfold int_add. apply wrap_small.
      pose proof (len_unique_le (data hm)) as Hul. fold unique in Hul.
      unfold is_int, min_int, max_int in *. lia. }
    rewrite E. reflexivity.
  - rewrite Hls. f_equal. unfold linear_saturation in Hl.
    rewrite Hidx in Hl. simpl in Hl. injection Hl as <-. reflexivity.
Qed.

(** ** Layout: what it keeps and what makes it aggregate anew *)

(** X21.  Layout leaves alone what its caller controls: the largest value,
    the colour mode, the two bucket sizes and the raw series. *)
Theorem Layout_keeps_settings hm gtx hm' ops rb :
  Layout hm gtx = Some (hm', ops, rb) ->
  MaxY hm' = MaxY hm /\ UseLinearColors hm' = UseLinearColors hm
  /\ XBucketSize hm' = XBucketSize hm /\ YBucketSize hm' = YBucketSize hm
  /\ origData hm' = origData hm.
Proof.
  intros H.
  pose proof (Layout_stores_key _ _ _ _ _ H) as (_ & K2 & K3 & K4).
  apply Layout_inv in H as (hm2 & xs & ys & outline & b & Hc & _ & -> & _).
  destruct (layout_cache_sizes _ _ _ _ _ _ Hc) as (S1 & _ & S3).
  simpl in *. auto.
Qed.

(** X22.  Of the pointer moves of a frame only the last one counts: after
    Layout the pointer is at the position of the last move and the
    viewport recorded with it is that of the frame; without a move both
    stay as they were. *)
Theorem Layout_takes_last_move hm gtx hm' ops rb :
  Layout hm gtx = Some (hm', ops, rb) ->
  match last (moves gtx) with
  | Some p => pointer hm' = p /\ pointerConstraint hm' = ConstraintsMax gtx
  | None =>
      pointer hm' = pointer hm
      /\ pointerConstraint hm' = pointerConstraint hm
  end.
Proof.
  intros H.
  apply Layout_inv in H as (hm2 & xs & ys & outline & b & Hc & _ & -> & _).
  destruct (layout_cache_pointer _ _ _ _ _ _ Hc) as [P1 P2]. simpl.
  rewrite P1, P2.
  destruct (handle_moves_pointer hm (ConstraintsMax gtx) (moves gtx))
    as [(-> & H1 & H2)|[H1 H2]].
  - simpl. auto.
  - rewrite H1. auto.
Qed.

(** X23.  A change of the Y bucket size between two Layouts makes the
    second one aggregate the raw series anew with the new size, from the
    series that the heatmap has kept, and rebuild the cached operations. *)
Theorem bucket_size_change_reaggregates
    hm gtx hm1 ops1 rb1 s gtx2 hm2 ops2 rb2 :
  Layout hm gtx = Some (hm1, ops1, rb1) ->
  s <> YBucketSize hm ->
  Layout (with_YBucketSize hm1 s) gtx2 = Some (hm2, ops2, rb2) ->
  rb2 = true
  /\ origData hm2 = origData hm
  /\ numYBuckets hm2 = numYBuckets_of (MaxY hm) s
  /\ exists row0,
       origData hm !! 0%nat = Some row0
       /\ bucket_rows s (numYBuckets hm2) (origData hm)
            (replicate (Z.to_nat (int_mul (len row0) (numYBuckets hm2))) 0)
          = Some (data hm2).
Proof.
  intros H1 Hs H2.
  pose proof (Layout_stores_key _ _ _ _ _ H1) as (K1 & _).
  assert (HS : MaxY hm1 = MaxY hm /\ origData hm1 = origData hm).
  { apply Layout_inv in H1
      as (hmc & xs & ys & outline & b & Hc & _ & -> & _).
    destruct (layout_cache_sizes _ _ _ _ _ _ Hc) as (S1 & _ & S3).
    simpl. auto. }
  destruct HS as [S1 S5].
  assert (Hsz : XBucketSize (with_YBucketSize hm1 s)
                <> xBucketSize (cacheKey (with_YBucketSize hm1 s))
                \/ YBucketSize (with_YBucketSize hm1 s)
                   <> yBucketSize (cacheKey (with_YBucketSize hm1 s))).
  { right. simpl. rewrite K1. simpl. exact Hs. }
  destruct (Layout_reaggregates _ _ _ _ _ Hsz H2)
    as (R1 & R2 & R3 & row0 & R4 & R5).
  simpl in R2, R3, R4, R5. rewrite S1 in R3. rewrite S5 in R2, R4, R5.
  split; [exact R1|]. split; [exact R2|]. split; [exact R3|].
  exists row0. split; [exact R4|exact R5].
Qed.

(** X24.  The largest value is not part of the cache key: after a Layout,
    a change of MaxY alone is not seen by the next Layout of the same
    frame, which keeps the grid and the number of Y buckets of the old
    value, replays the same operations and does not rebuild them. *)
Theorem MaxY_change_is_not_seen hm gtx hm1 ops rb m gtx' :
  Layout hm gtx = Some (hm1, ops, rb) ->
  ConstraintsMax gtx' = ConstraintsMax gtx -> Dp1 gtx' = Dp1 gtx ->
  moves gtx' = [] ->
  Layout (with_MaxY hm1 m) gtx' = Some (with_MaxY hm1 m, ops, false).
Proof.
  intros H Hd Hp Hm.
  pose proof (Layout_stores_key _ _ _ _ _ H) as (K1 & K2 & K3 & K4).
  apply Layout_inv in H as (hm2 & xs & ys & outline & b & Hc & Hh & -> & ->).
  apply layout_cache_inv in Hc as (hmr & numX & Hr & Hdiv & Hxs & Hys & Hg).
  simpl in K1, K2, K3, K4.
  assert (Hkey : key_of hm2 (ConstraintsMax gtx) = cacheKey hm2).
  { rewrite K1. unfold key_of. rewrite K2, K3, K4. reflexivity. }
  assert (Hgrid : data hm2 = data hmr /\ numYBuckets hm2 = numYBuckets hmr).
  { apply geometry_inv in Hg as [(_ & -> & _)|(_ & _ & ops' & _ & ->)];
      simpl; auto. }
  destruct Hgrid as [G1 G2].
  unfold Layout, layout_cache. rewrite Hd, Hp, Hm. cbv zeta. simpl handle_moves.
  change (key_of (with_MaxY (with_hovered hm2 b) m) (ConstraintsMax gtx))
    with (key_of hm2 (ConstraintsMax gtx)).
  rewrite refresh_same_sizes
    by (simpl; rewrite <- Hkey; reflexivity).
  simpl. rewrite G1, G2, Hdiv. simpl.
  unfold geometry. simpl. rewrite Hkey.
  rewrite bool_decide_eq_true_2 by reflexivity. simpl.
  rewrite <- Hxs, <- Hys.
  change (hover (with_MaxY (with_hovered hm2 b) m) (ConstraintsMax gtx)
            (Dp1 gtx) xs ys)
    with (hover hm2 (ConstraintsMax gtx) (Dp1 gtx) xs ys).
  rewrite Hh. reflexivity.
Qed.

(** ** From the component to the heatmap *)

(** X25.  The heatmap of a new component is well formed when the busy
    series of the processors all have the same length and hold values of
    type [int] that are not negative: its layout passes then return (X9). *)
Theorem NewHeatmapComponent_well_formed (tr : Trace) hmc (L : Z) :
  NewHeatmapComponent tr = Some hmc ->
  L * 100 <= max_int ->
  Forall (fun row => len row = L /\ Forall (fun y => 0 <= y <= max_int) row)
         (origData (hmc_hm hmc)) ->
  samples (origData (hmc_hm hmc)) <= max_int ->
  well_formed (hmc_hm hmc).
Proof.
  intros H HL Hrows Hs. unfold NewHeatmapComponent in H. cbv zeta in H.
  destruct (bucketByX tr _) as [d|] eqn:Hb; simpl in H; [|discriminate].
  destruct (SetData _ d) as [hm'|] eqn:Hsd; simpl in H; [|discriminate].
  injection H as <-. simpl in *.
  apply SetData_fields in Hsd as (row0 & rest & -> & ->). simpl in *.
  assert (Hr0 : len row0 = L).
  { apply Forall_cons in Hrows as [[E _] _]. exact E. }
  unfold well_formed. simpl.
  split; [constructor|]. split; [constructor|]. split.
  - exists row0. split; [reflexivity|]. split; [|exact Hs].
    unfold regular_input. simpl.
    rewrite numYBuckets_of_exact by lia.
    change ((100 + 1 - 1) / 1) with 100.
    split; [lia|]. split; [unfold is_int, min_int, max_int; lia|].
    split; [lia|]. split; [apply len_nonneg|]. split; [lia|].
    eapply Forall_impl; [exact Hrows|]. simpl. intros row [E F].
    split; [lia|exact F].
  - intros _ E. discriminate E.
Qed.

(** * The table and the histogram of package theme *)

Lemma SortByClickedColumn_clicked (tbl : Table) (col : Z) :
  clickedColumn tbl = Some col ->
  (col <> SortedBy tbl ->
   SortByClickedColumn tbl
   = Some (sorted_table tbl col SortAscending, col, true))
  /\ (col = SortedBy tbl -> SortOrder tbl = SortAscending ->
      SortByClickedColumn tbl
      = Some (sorted_table tbl col SortDescending, col, true))
  /\ (col = SortedBy tbl ->
      SortOrder tbl = SortNone \/ SortOrder tbl = SortDescending ->
      SortByClickedColumn tbl
      = Some (sorted_table tbl col SortAscending, col, true))
  /\ (col = SortedBy tbl ->
      SortOrder tbl <> SortNone -> SortOrder tbl <> SortAscending ->
      SortOrder tbl <> SortDescending ->
      SortByClickedColumn tbl = None).
Proof.
  intros Hc. unfold SortByClickedColumn, ClickedColumn, sorted_table.
  rewrite Hc. unfold SortNone, SortAscending, SortDescending.
  split; [|split; [|split]].
  - intros Hne. destruct (Z.eqb_spec col (SortedBy tbl)); [contradiction|].
    reflexivity.
  - intros -> ->. rewrite Z.eqb_refl. reflexivity.
  - intros -> [->| ->]; rewrite Z.eqb_refl; reflexivity.
  - intros -> H0 H1 H2. rewrite Z.eqb_refl.
    destruct (Z.eqb_spec (SortOrder tbl) 0); [contradiction|].
    destruct (Z.eqb_spec (SortOrder tbl) 1); [contradiction|].
    destruct (Z.eqb_spec (SortOrder tbl) 2); [contradiction|].
    reflexivity.
Qed.

Lemma SortByClickedColumn_result (tbl tbl1 : Table) (col c1 : Z) (ok1 : bool) :
  clickedColumn tbl = Some col ->
  SortByClickedColumn tbl = Some (tbl1, c1, ok1) ->
  c1 = col /\ ok1 = true
  /\ ((tbl1 = sorted_table tbl col SortAscending
       /\ (col <> SortedBy tbl \/ SortOrder tbl <> SortAscending))
      \/ (tbl1 = sorted_table tbl col SortDescending
          /\ col = SortedBy tbl)).
Proof.
  intros Hc H.
  destruct (SortByClickedColumn_clicked tbl col Hc) as (A & B & C & D).
  destruct (Z.eq_dec col (SortedBy tbl)) as [E|E].
  - destruct (Z.eq_dec (SortOrder tbl) SortAscending) as [E1|E1].
    + rewrite (B E E1) in H. injection H as <- <- <-. auto.
    + destruct (Z.eq_dec (SortOrder tbl) SortNone) as [E0|E0].
      * rewrite (C E (or_introl E0)) in H. injection H as <- <- <-.
        split; [reflexivity|]. split; [reflexivity|]. left. auto.
      * destruct (Z.eq_dec (SortOrder tbl) SortDescending) as [E2|E2].
        -- rewrite (C E (or_intror E2)) in H. injection H as <- <- <-.
           split; [reflexivity|]. split; [reflexivity|]. left. auto.
        -- rewrite (D E E0 E1 E2) in H. discriminate H.
  - rewrite (A E) in H. injection H as <- <- <-.
    split; [reflexivity|]. split; [reflexivity|]. left. auto.
Qed.

(** X26.  Sorting by the clicked column: without a click nothing changes;
    with a click the table is sorted by the clicked column, in ascending or
    in descending order and never in no order; a click on another column
    than the sorted one gives the ascending order, and a second click on
    the same column reverses the order of the first. *)
Theorem SortByClickedColumn_cycle (tbl : Table) :
  (clickedColumn tbl = None -> SortByClickedColumn tbl = Some (tbl, 0, false))
  /\ forall col tbl1 c1 ok1,
       clickedColumn tbl = Some col ->
       SortByClickedColumn tbl = Some (tbl1, c1, ok1) ->
       c1 = col /\ ok1 = true /\ SortedBy tbl1 = col
       /\ clickedColumn tbl1 = Some col
       /\ (SortOrder tbl1 = SortAscending \/ SortOrder tbl1 = SortDescending)
       /\ (col <> SortedBy tbl -> SortOrder tbl1 = SortAscending)
       /\ exists tbl2,
            SortByClickedColumn tbl1 = Some (tbl2, col, true)
            /\ SortedBy tbl2 = col
            /\ (SortOrder tbl1 = SortAscending ->
                SortOrder tbl2 = SortDescending)
            /\ (SortOrder tbl1 = SortDescending ->
                SortOrder tbl2 = SortAscending).
Proof.
  split.
  - intros H. unfold SortByClickedColumn, ClickedColumn. rewrite H.
    reflexivity.
  - intros col tbl1 c1 ok1 Hc H.
    destruct (SortByClickedColumn_result _ _ _ _ _ Hc H)
      as (-> & -> & [[-> Hw]|[-> Hw]]).
    + split; [reflexivity|]. split; [reflexivity|]. split; [reflexivity|].
      split; [exact Hc|]. split; [left; reflexivity|].
      split; [reflexivity|].
      exists (sorted_table (sorted_table tbl col SortAscending) col
                SortDescending).
      split.
      * apply (SortByClickedColumn_clicked
                 (sorted_table tbl col SortAscending) col Hc); reflexivity.
      * split; [reflexivity|]. split; [reflexivity|]. discriminate.
    + split; [reflexivity|]. split; [reflexivity|]. split; [reflexivity|].
      split; [exact Hc|]. split; [right; reflexivity|].
      split; [intros Hne; contradiction|].
      exists (sorted_table (sorted_table tbl col SortDescending) col
                SortAscending).
      split.
      * apply (SortByClickedColumn_clicked
                 (sorted_table tbl col SortDescending) col Hc);
          [reflexivity | right; reflexivity].
      * split; [reflexivity|]. split; [discriminate|reflexivity].
Qed.

(** X27.  After a click has been handled by SortByClickedColumn, the header
    of the clicked column shows a triangle, up for the ascending and down
    for the descending order, and the header of every other column shows
    none; the header does not reach its panic. *)
Theorem header_mark_after_click (tbl tbl1 : Table) (col c1 : Z) (ok1 : bool) :
  clickedColumn tbl = Some col ->
  SortByClickedColumn tbl = Some (tbl1, c1, ok1) ->
  header_mark_of tbl1 col
  = Some (if SortOrder tbl1 =? SortAscending then MarkAscending
          else MarkDescending)
  /\ forall colIdx, colIdx <> col -> header_mark_of tbl1 colIdx = Some NoMark.
Proof.
  intros Hc H.
  assert (Hne : forall colIdx, colIdx <> col -> (col =? colIdx) = false)
    by (intros; apply Z.eqb_neq; auto).
  destruct (SortByClickedColumn_result _ _ _ _ _ Hc H)
    as (_ & _ & [[-> _]|[-> _]]);
    unfold header_mark_of; simpl; rewrite Z.eqb_refl;
    (split; [reflexivity|]); intros colIdx Hn; rewrite (Hne _ Hn);
    reflexivity.
Qed.

(** X28.  The range selected by a drag does not depend on the direction of
    the drag: it starts where the range of the lower of the two buckets
    starts and ends where the range of the higher one ends. *)
Theorem selectedRange_spans (hs : HistogramState) (h : Histogram) (bin : Z)
    (lo hi : float64 * float64) :
  hs_Histogram hs = Some h ->
  BucketRange h (Z.min (dragging_startBucket hs) bin) = Some lo ->
  BucketRange h (Z.max (dragging_startBucket hs) bin) = Some hi ->
  selectedRange hs bin = Some (fst lo, snd hi)
  /\ selectedRange (with_dragging hs (dragging_active hs) bin)
       (dragging_startBucket hs)
     = Some (fst lo, snd hi).
Proof.
  intros Hh Hlo Hhi. unfold selectedRange. simpl. rewrite Hh. simpl.
  destruct lo as [l1 l2], hi as [h1 h2]. simpl.
  destruct (Z.ltb_spec (dragging_startBucket hs) bin) as [Hlt|Hge],
           (Z.ltb_spec bin (dragging_startBucket hs)) as [Hlt'|Hge'];
    try lia.
  - rewrite Z.min_l, Z.max_r in * by lia.
    rewrite Hlo, Hhi. simpl. auto.
  - rewrite Z.min_r, Z.max_l in * by lia.
    rewrite Hlo, Hhi. simpl. auto.
  - assert (E : bin = dragging_startBucket hs) by lia.
    rewrite E in *. rewrite Z.min_id, Z.max_id in *.
    rewrite Hlo in Hhi. injection Hhi as <- <-.
    rewrite Hlo. simpl. auto.
Qed.

Lemma hovered_bin_range (hs : HistogramState) (h : Histogram) (x : float32) :
  1 <= len (Bins h) <= max_int ->
  0 <= hovered_bin hs h x < len (Bins h).
Proof.
  intros Hn. unfold hovered_bin. cbv zeta.
  destruct (Z.ltb_spec (to_int (F32.div x (prevBarWidth hs))) 0); [lia|].
  destruct (Z.leb_spec (len (Bins h))
              (to_int (F32.div x (prevBarWidth hs)))); [|lia].
  unfold int_sub.
  rewrite wrap_small by (unfold is_int, min_int, max_int in *; lia). lia.
Qed.

(** X29.  On a histogram with at least one bin, the bin under the pointer
    is always one of the bins, whatever the position of the pointer and
    the width of the bars; and the range that Update returns for a double
    click is the range of that bin as BucketRange gives it: the branch that
    adds 1 to the end for the final bin is never taken. *)
Theorem Update_double_click (hs : HistogramState) (h : Histogram)
    (inp : update_input) hs' start end_ ok :
  hs_Histogram hs = Some h ->
  1 <= len (Bins h) <= max_int ->
  in_hovered inp = true ->
  double_clicked (in_clicks inp) = true ->
  Forall (fun ev => pe_Kind ev = PointerDrag) (in_events inp) ->
  Update hs inp = Some (hs', start, end_, ok) ->
  let bin := hovered_bin hs h (in_pointerX inp) in
  0 <= bin < len (Bins h)
  /\ BucketRange h bin = Some (start, end_)
  /\ hs' = with_dragging hs (dragging_active hs) (dragging_startBucket hs).
Proof.
  intros Hh Hn Hhov Hclick Hev H bin.
  pose proof (hovered_bin_range hs h (in_pointerX inp) Hn) as Hb.
  fold bin in Hb. split; [exact Hb|].
  assert (Hfold : fold_left track_drag (in_events inp)
                    (dragging_active hs, false, false)
                  = (dragging_active hs, false, false)).
  { induction Hev as [|ev evs He _ IH]; simpl; [reflexivity|].
    rewrite He. exact IH. }
  unfold Update in H. rewrite Hh, Hfold, Hhov, Hclick in H. cbv zeta in H.
  change (hovered_bin
            (with_dragging hs (dragging_active hs) (dragging_startBucket hs))
            h (in_pointerX inp)) with bin in H.
  destruct (BucketRange h bin) as [[s e]|] eqn:Hbr; simpl in H;
    [|discriminate].
  destruct (Z.eqb_spec bin (len (Bins h))); [lia|].
  injection H as <- <- <- _. auto.
Qed.

(** ** The clicked column *)

Lemma header_events_spec (i : Z) (evs : list click_event) (acc : option Z) :
  header_events i evs acc
  = if existsb primary_click evs then Some i else acc.
Proof.
  unfold header_events. revert acc.
  induction evs as [|ev evs IH]; intros acc; simpl; [reflexivity|].
  rewrite IH. destruct (primary_click ev); simpl; [|reflexivity].
  destruct (existsb primary_click evs); reflexivity.
Qed.

Lemma header_clicks_spec (headerClicks : list (list click_event)) :
  forall i0 acc,
    match header_clicks i0 headerClicks acc with
    | Some i =>
        (i0 <= i < i0 + len headerClicks
         /\ (exists evs, headerClicks !! Z.to_nat (i - i0) = Some evs
                         /\ existsb primary_click evs = true)
         /\ forall j evs, i < j ->
              headerClicks !! Z.to_nat (j - i0) = Some evs ->
              existsb primary_click evs = false)
        \/ (acc = Some i
            /\ Forall (fun evs => existsb primary_click evs = false)
                      headerClicks)
    | None =>
        acc = None
        /\ Forall (fun evs => existsb primary_click evs = false) headerClicks
    end.
Proof.
  induction headerClicks as [|evs rest IH]; intros i0 acc; simpl.
  - destruct acc; [right|]; auto.
  - rewrite header_events_spec. rewrite len_cons.
    pose proof (len_nonneg rest) as Hl.
    specialize (IH (i0 + 1)
                  (if existsb primary_click evs then Some i0 else acc)).
    destruct (header_clicks (i0 + 1) rest _) as [i|].
    + destruct IH as [(Hr & (e & He & Hc) & Hlast)|[Ha Hf]].
      * left. split; [lia|]. split.
        -- exists e. split; [|exact Hc].
           replace (Z.to_nat (i - i0)) with (S (Z.to_nat (i - (i0 + 1))))
             by lia. exact He.
        -- intros j e' Hj Hje.
           apply (Hlast j e' Hj).
           replace (Z.to_nat (j - i0)) with (S (Z.to_nat (j - (i0 + 1))))
             in Hje by lia. exact Hje.
      * destruct (existsb primary_click evs) eqn:Hx.
        -- injection Ha as <-. left. split; [lia|]. split.
           ++ exists evs. rewrite Z.sub_diag. auto.
           ++ intros j e' Hj Hje.
              replace (Z.to_nat (j - i0)) with (S (Z.to_nat (j - (i0 + 1))))
                in Hje by lia. simpl in Hje.
              rewrite Forall_forall in Hf. apply Hf.
              apply list_elem_of_lookup. eauto.
        -- right. split; [exact Ha|]. constructor; auto.
    + destruct IH as [Ha Hf].
      destruct (existsb primary_click evs) eqn:Hx; [discriminate|].
      split; [exact Ha|]. constructor; auto.
Qed.

(** X30.  The clicked column after Table.Layout is the rightmost column
    whose header got a click of the primary button in this frame, and none
    when no header got one: the clicked column of the frame before is
    forgotten. *)
Theorem clicked_column_is_rightmost (tbl : Table)
    (headerClicks : list (list click_event)) :
  match clickedColumn (Table_Layout_clicks tbl headerClicks) with
  | Some i =>
      0 <= i < len headerClicks
      /\ (exists evs, headerClicks !! Z.to_nat i = Some evs
                      /\ existsb primary_click evs = true)
      /\ forall j evs, i < j ->
           headerClicks !! Z.to_nat j = Some evs ->
           existsb primary_click evs = false
  | None =>
      Forall (fun evs => existsb primary_click evs = false) headerClicks
  end.
Proof.
  simpl. pose proof (header_clicks_spec headerClicks 0 None) as H.
  destruct (header_clicks 0 headerClicks None) as [i|].
  - destruct H as [(Hr & (e & He & Hc) & Hlast)|[Ha _]]; [|discriminate].
    rewrite Z.sub_0_r in He. split; [lia|]. split; [eauto|].
    intros j e' Hj Hje. apply (Hlast j e' Hj).
    rewrite Z.sub_0_r. exact Hje.
  - apply H.
Qed.

End Heatmap.

(** * The properties on the example states

    The conversions that Go leaves open are those of gc on amd64, and
    [round32] rounds to the nearest integer. *)

(** ** Well-formed states *)

(** The example heatmap is well formed. *)
Lemma example_heatmap_well_formed :
  well_formed amd64_unrepresentable example_heatmap.
Proof.
  unfold well_formed, uint8_table, aggregable, regular_input.
  split; [constructor|]. split; [constructor|]. split.
  - exists [5; 15]. split; [reflexivity|]. simpl.
    assert (E : numYBuckets_of amd64_unrepresentable 20 10 = 2)
      by (vm_compute; reflexivity).
    rewrite E. unfold is_int, min_int, max_int, samples, len. simpl.
    repeat split; try lia.
    repeat constructor; simpl; lia.
  - simpl. discriminate.
Qed.

Lemma Layout_returns_witness :
  well_formed amd64_unrepresentable example_heatmap
  /\ hover_valid (handle_moves example_heatmap (ConstraintsMax still_frame)
                    (moves still_frame)) (ConstraintsMax still_frame) = false
  /\ exists hm' ops rb,
       Layout amd64_unrepresentable round32_nearest example_heatmap still_frame
       = Some (hm', ops, rb)
       /\ well_formed amd64_unrepresentable hm'.
Proof.
  split; [exact example_heatmap_well_formed|]. split; [reflexivity|].
  exact (Layout_returns amd64_unrepresentable round32_nearest example_heatmap
           still_frame example_heatmap_well_formed eq_refl).
Defined.

(** ** C1 *)

(** The specification's grid: its cells of count 0 get the linear
    saturation 1, not 0. *)
Lemma empty_cell_linear_saturation_is_not_zero :
  ~ (forall hm',
       computeSaturations amd64_unrepresentable example_grid = Some hm' ->
       forall i, data example_grid !! i = Some 0 ->
                 linearSaturations hm' !! i = Some 0).
Proof.
  intros H.
  specialize (H (with_saturations example_grid
                   [1; 1; 1; 28; 1; 1; 1; 141; 1; 1; 1; 255]
                   [63; 63; 63; 127; 63; 63; 63; 191; 63; 63; 63; 255])).
  specialize (H ltac:(vm_compute; reflexivity) 0%nat eq_refl).
  discriminate H.
Qed.

Lemma linear_saturation_of_empty_cell_witness :
  0 < len (data example_grid) <= max_int
  /\ Forall (fun v => 0 <= v <= max_int) (data example_grid)
  /\ (exists v, v ∈ data example_grid /\ 0 < v)
  /\ exists hm',
       computeSaturations amd64_unrepresentable example_grid = Some hm'
       /\ (forall i, data example_grid !! i = Some 0 ->
                     linearSaturations hm' !! i = Some 1)
       /\ (forall i s, linearSaturations hm' !! i = Some s -> 1 <= s <= 255).
Proof.
  assert (H1 : 0 < len (data example_grid) <= max_int).
  { unfold len, max_int. simpl. lia. }
  assert (H2 : Forall (fun v => 0 <= v <= max_int) (data example_grid)).
  { unfold max_int. simpl. repeat constructor; lia. }
  assert (H3 : exists v, v ∈ data example_grid /\ 0 < v).
  { exists 9. split; [|lia]. simpl. repeat (first [apply list_elem_of_here | apply list_elem_of_further]). }
  split; [exact H1|]. split; [exact H2|]. split; [exact H3|].
  exact (linear_saturation_of_empty_cell amd64_unrepresentable example_grid
           H1 H2 H3).
Defined.

(** ** C2 *)

(** The pointer moves to (0, 50) in a frame of 100 x 100: the recorded
    viewport is the current one and the position is in the closed
    rectangle, yet the hovered bucket is the sentinel. *)
Lemma pointer_on_left_edge_reports_sentinel :
  match Layout amd64_unrepresentable round32_nearest
          example_heatmap (example_frame 0 50) with
  | Some (hm', _, _) =>
      pointerConstraint hm' = {| pX := 100; pY := 100 |}
      /\ fle (F32.of_int 0) (fX (pointer hm')) = true
      /\ fle (fX (pointer hm')) (F32.of_int 100) = true
      /\ fle (F32.of_int 0) (fY (pointer hm')) = true
      /\ fle (fY (pointer hm')) (F32.of_int 100) = true
      /\ HoveredBucket hm' = (no_hover, false)
  | None => False
  end.
Proof. vm_compute. repeat split. Qed.

(** The pointer moves to the pixel (30, 70) of a frame of 100 x 100 over
    2 x 2 cells of 50 x 50 pixels: the pass reports the first X bucket and
    the first Y bucket, which holds one sample. *)
Lemma hover_reports_witness :
  well_formed amd64_unrepresentable example_heatmap
  /\ exists hm1 outline rb,
       Layout amd64_unrepresentable round32_nearest
         example_heatmap (example_frame 30 70)
       = Some (with_hovered hm1
                 {| XStart := 0; XEnd := 100; YStart := 0; YEnd := 10;
                    Count := 1 |},
               CallMacro (cachedMacro hm1) :: outline, rb).
Proof.
  split; [exact example_heatmap_well_formed|].
  destruct (hover_reports amd64_unrepresentable round32_nearest
              example_heatmap (example_frame 30 70)
              example_heatmap_well_formed)
    as (hm1 & xs & ys & rb & numX & Hc & HnumX & _ & _ & _ & _ & _ & Hpix).
  vm_compute in Hc. injection Hc as <- <- <- <-.
  vm_compute in HnumX. subst numX.
  destruct (Hpix 30 70 50 50)
    as (x & y & c & outline & Hx & Hy & _ & _ & Hidx & HLay);
    try reflexivity; try (simpl; lia).
  simpl in Hy.
  assert (Ex : x = 0) by lia. assert (Ey : y = 0) by lia. subst x y.
  vm_compute in Hidx. injection Hidx as <-.
  eexists _, outline, _. exact HLay.
Defined.

(** Cells that are not a whole number of pixels wide have a rounded step:
    over 3 columns in 100 pixels the float32 step lies below 100/3, and a
    pointer at that very position, left of the exact boundary, is already
    in column 1. *)
Example hover_x_at_rounded_step :
  let xs := F32.div (F32.of_int 100) (F32.of_int 3) in
  xs = S754_finite false 8738133 (- 18)
  /\ 3 * 8738133 < 100 * 2 ^ 18
  /\ hover_x amd64_unrepresentable
       (with_pointer example_heatmap {| fX := xs; fY := xs |}
          {| pX := 100; pY := 100 |}) xs = 1.
Proof. vm_compute. repeat split. Qed.

(** ** C3 *)

(** The pointer moves to (100, 50), on the right edge of a frame of
    100 x 100 over two X buckets: the guard of the hover accepts it, the X
    index is 2, the number of X buckets, the index into the grid is out of
    range, and Layout panics. *)
Lemma hover_at_right_edge_panics :
  match layout_cache amd64_unrepresentable round32_nearest
          example_heatmap (example_frame 100 50) with
  | Some (hm1, xs, ys, _) =>
      hover_valid hm1 {| pX := 100; pY := 100 |} = true
      /\ int_div (len (data hm1)) (numYBuckets hm1) = Some 2
      /\ hover_x amd64_unrepresentable hm1 xs = 2
      /\ index (data hm1)
           (int_add (int_mul (hover_x amd64_unrepresentable hm1 xs)
                             (numYBuckets hm1))
                    (hover_y amd64_unrepresentable hm1
                       {| pX := 100; pY := 100 |} ys)) = None
  | None => False
  end
  /\ Layout amd64_unrepresentable round32_nearest
       example_heatmap (example_frame 100 50) = None.
Proof. vm_compute. repeat split. Qed.

(** ** C4 *)

(** MaxY = 3 * 2^60 + 380 and a bucket size of 2^60 + 127: float64 rounds
    MaxY up and the bucket size down, their quotient is above 3, and the
    number of Y buckets is 4; a sample equal to MaxY has bin 2, not 3. *)
Lemma sample_at_MaxY_misses_last_bin :
  let maxY := 3 * 2 ^ 60 + 380 in
  let ybs := 2 ^ 60 + 127 in
  let numY := numYBuckets_of amd64_unrepresentable maxY ybs in
  0 <= maxY <= max_int /\ 0 < ybs /\ numY = 4
  /\ bin_of ybs numY maxY = Some 2
  /\ bin_of ybs numY maxY <> Some (numY - 1).
Proof. vm_compute. repeat split; discriminate. Qed.

Lemma bin_of_sample_witness :
  0 <= 100 <= max_int /\ 0 < 10
  /\ 1 <= numYBuckets_of amd64_unrepresentable 100 10
  /\ exists bin,
       bin_of 10 (numYBuckets_of amd64_unrepresentable 100 10) 100 = Some bin
       /\ 0 <= bin <= numYBuckets_of amd64_unrepresentable 100 10 - 1
       /\ (0 < 100 < 2 ^ 53 -> 10 < 2 ^ 53 -> 100 <= 100 ->
           bin = numYBuckets_of amd64_unrepresentable 100 10 - 1).
Proof.
  assert (H1 : 0 <= 100 <= max_int) by (unfold max_int; lia).
  assert (H2 : 0 < 10) by lia.
  assert (H3 : 1 <= numYBuckets_of amd64_unrepresentable 100 10)
    by (vm_compute; discriminate).
  split; [exact H1|]. split; [exact H2|]. split; [exact H3|].
  exact (bin_of_sample amd64_unrepresentable 100 10 100 H1 H2 H3).
Defined.

(** ** C5 *)


(** ** C6 *)

Lemma computeBuckets_counts_every_sample_witness :
  samples (origData example_heatmap) <= max_int
  /\ regular_input amd64_unrepresentable example_heatmap
  /\ exists hm',
       computeBuckets amd64_unrepresentable example_heatmap = Some hm'
       /\ total (data hm') = samples (origData example_heatmap).
Proof.
  assert (H : samples (origData example_heatmap) <= max_int)
    by (vm_compute; discriminate).
  assert (R : regular_input amd64_unrepresentable example_heatmap).
  { unfold regular_input, is_int, min_int, max_int. simpl.
    replace (numYBuckets_of amd64_unrepresentable 20 10) with 2
      by (vm_compute; reflexivity).
    repeat split; try lia.
    repeat constructor; unfold len; simpl; lia. }
  split; [exact H|]. split; [exact R|].
  exact (proj2 (computeBuckets_counts_every_sample amd64_unrepresentable
                  example_heatmap H) R).
Defined.

(** ** C7 *)

(** The specification's grid with its ranked saturations: three
    saturations are in use, 256 fills are recorded. *)
Lemma rebuild_fills_unused_saturations :
  let hm := with_saturations example_grid
              [1; 1; 1; 28; 1; 1; 1; 141; 1; 1; 1; 255]
              [63; 63; 63; 127; 63; 63; 63; 191; 63; 63; 63; 255] in
  match rebuild round32_nearest hm {| pX := 100; pY := 100 |} 4
          (F32.of_int 25) (F32.of_int 33) with
  | Some ops =>
      count_fills ops = 256%nat /\ used_saturations hm 4 = [127; 191; 255]
      /\ count_fills ops <> length (used_saturations hm 4)
  | None => False
  end.
Proof. vm_compute. repeat split; discriminate. Qed.

Lemma rebuild_fills_every_saturation_witness :
  let hm := with_saturations example_grid
              [1; 1; 1; 28; 1; 1; 1; 141; 1; 1; 1; 255]
              [63; 63; 63; 127; 63; 63; 63; 191; 63; 63; 63; 255] in
  drawable hm 4
  /\ is_Some (rebuild round32_nearest hm {| pX := 100; pY := 100 |} 4
                (F32.of_int 25) (F32.of_int 33)).
Proof.
  intros hm.
  assert (D : drawable hm 4).
  { unfold drawable, max_int, len. simpl. repeat split; try lia.
    repeat constructor; lia. }
  split; [exact D|].
  exact (proj2 (rebuild_fills_every_saturation round32_nearest hm
                  {| pX := 100; pY := 100 |} 4
                  (F32.of_int 25) (F32.of_int 33)) D).
Defined.

(** ** C8 *)

Lemma ranked_saturation_monotone_witness :
  let hm' := with_saturations example_grid
               [1; 1; 1; 28; 1; 1; 1; 141; 1; 1; 1; 255]
               [63; 63; 63; 127; 63; 63; 63; 191; 63; 63; 63; 255] in
  computeSaturations amd64_unrepresentable example_grid = Some hm'
  /\ len (data example_grid) <= max_int
  /\ data example_grid !! 3%nat = Some 1
  /\ data example_grid !! 11%nat = Some 9
  /\ rankedSaturations hm' !! 3%nat = Some 127
  /\ rankedSaturations hm' !! 11%nat = Some 255
  /\ (1 < 9 -> 127 <= 255) /\ (1 = 9 -> 127 = 255).
Proof.
  intros hm'.
  assert (H1 : computeSaturations amd64_unrepresentable example_grid
               = Some hm') by (vm_compute; reflexivity).
  assert (H2 : len (data example_grid) <= max_int)
    by (vm_compute; discriminate).
  split; [exact H1|]. split; [exact H2|].
  split; [reflexivity|]. split; [reflexivity|].
  split; [reflexivity|]. split; [reflexivity|].
  exact (ranked_saturation_monotone amd64_unrepresentable example_grid hm'
           3%nat 11%nat 1 9 127 255 H1 H2 eq_refl eq_refl eq_refl eq_refl).
Defined.

(** ** C9 *)

Lemma computeSaturations_search_succeeds_witness :
  0 < len (data example_grid) <= max_int
  /\ Forall (fun v => 0 <= v) (data example_grid)
  /\ (forall v, v ∈ data example_grid ->
        SearchInts (snd (deduplicate (sort_Ints (data example_grid)))) v
        < len (snd (deduplicate (sort_Ints (data example_grid)))))
  /\ is_Some (computeSaturations amd64_unrepresentable example_grid).
Proof.
  assert (H1 : 0 < len (data example_grid) <= max_int).
  { unfold len, max_int. simpl. lia. }
  assert (H2 : Forall (fun v => 0 <= v) (data example_grid)).
  { simpl. repeat constructor; lia. }
  split; [exact H1|]. split; [exact H2|].
  exact (proj2 (computeSaturations_search_succeeds amd64_unrepresentable
                  example_grid) H1 H2).
Defined.

(** ** C10 *)

(** A Layout, the switch to linear colours, a second Layout. *)
Lemma color_toggle_keeps_grid_witness :
  match Layout amd64_unrepresentable round32_nearest
          example_heatmap still_frame with
  | Some (hm1, _, _) =>
      match Layout amd64_unrepresentable round32_nearest
              (with_UseLinearColors hm1 true) still_frame with
      | Some (hm2, _, rb2) =>
          data hm2 = data hm1
          /\ numYBuckets hm2 = numYBuckets hm1
          /\ linearSaturations hm2 = linearSaturations hm1
          /\ rankedSaturations hm2 = rankedSaturations hm1
          /\ (true <> UseLinearColors hm1 -> rb2 = true)
      | None => False
      end
  | None => False
  end.
Proof.
  destruct (Layout amd64_unrepresentable round32_nearest
              example_heatmap still_frame) as [[[hm1 ops1] rb1]|] eqn:E1.
  - destruct (Layout amd64_unrepresentable round32_nearest
                (with_UseLinearColors hm1 true) still_frame)
      as [[[hm2 ops2] rb2]|] eqn:E2.
    + exact (color_toggle_keeps_grid amd64_unrepresentable round32_nearest
               _ _ _ _ _ _ _ _ _ _ E1 E2).
    + vm_compute in E1. injection E1 as <- _ _.
      vm_compute in E2. discriminate E2.
  - vm_compute in E1. discriminate E1.
Defined.

(** * The further properties on the example states *)

(** ** X1 *)
Lemma computeBuckets_cells_witness :
  regular_input amd64_unrepresentable example_heatmap
  /\ samples (origData example_heatmap) <= max_int
  /\ computeBuckets amd64_unrepresentable example_heatmap
     = Some (with_buckets example_heatmap 2 [1; 0; 0; 1])
  /\ forall i b, 0 <= i < 2 -> 0 <= b < 2 ->
       index [1; 0; 0; 1] (i * 2 + b)
       = Some (cell_samples 10 2 [[5; 15]] i b).
Proof.
  assert (R : regular_input amd64_unrepresentable example_heatmap).
  { unfold regular_input, is_int, min_int, max_int. simpl.
    replace (numYBuckets_of amd64_unrepresentable 20 10) with 2
      by (vm_compute; reflexivity).
    repeat split; try lia.
    repeat constructor; unfold len; simpl; lia. }
  assert (S : samples (origData example_heatmap) <= max_int)
    by (vm_compute; discriminate).
  assert (H : computeBuckets amd64_unrepresentable example_heatmap
              = Some (with_buckets example_heatmap 2 [1; 0; 0; 1]))
    by (vm_compute; reflexivity).
  split; [exact R|]. split; [exact S|]. split; [exact H|].
  exact (proj2 (proj2 (computeBuckets_cells amd64_unrepresentable
                         example_heatmap _ R S H))).
Defined.

(** ** X2 *)
Lemma computeBuckets_zero_bucket_size_witness :
  YBucketSize (with_YBucketSize example_heatmap 0) = 0
  /\ 0 < samples (origData (with_YBucketSize example_heatmap 0))
  /\ computeBuckets amd64_unrepresentable (with_YBucketSize example_heatmap 0)
     = None.
Proof.
  split; [reflexivity|]. split; [reflexivity|].
  exact (computeBuckets_zero_bucket_size amd64_unrepresentable
           (with_YBucketSize example_heatmap 0) eq_refl eq_refl).
Defined.

(** ** X3 *)
Lemma computeBuckets_long_series_witness :
  let hm := with_origData example_heatmap [[5; 15]; [1; 2; 3]] 2 zero_key in
  0 < YBucketSize hm
  /\ 1 <= numYBuckets_of amd64_unrepresentable (MaxY hm) (YBucketSize hm)
  /\ 0 <= numXBuckets hm
  /\ numXBuckets hm
     * numYBuckets_of amd64_unrepresentable (MaxY hm) (YBucketSize hm)
     <= max_int
  /\ Forall (Forall (fun y => 0 <= y <= max_int)) (origData hm)
  /\ [1; 2; 3] ∈ origData hm
  /\ numXBuckets hm < len [1; 2; 3]
  /\ computeBuckets amd64_unrepresentable hm = None.
Proof.
  intros hm.
  assert (E : numYBuckets_of amd64_unrepresentable (MaxY hm) (YBucketSize hm)
              = 2) by (vm_compute; reflexivity).
  assert (H1 : 0 < YBucketSize hm) by reflexivity.
  assert (H2 : 1 <= numYBuckets_of amd64_unrepresentable (MaxY hm)
                      (YBucketSize hm)) by (rewrite E; lia).
  assert (H3 : 0 <= numXBuckets hm) by (simpl; lia).
  assert (H4 : numXBuckets hm
               * numYBuckets_of amd64_unrepresentable (MaxY hm)
                   (YBucketSize hm) <= max_int)
    by (rewrite E; vm_compute; discriminate).
  assert (H5 : Forall (Forall (fun y => 0 <= y <= max_int)) (origData hm))
    by (unfold max_int; simpl; repeat constructor; lia).
  assert (H6 : [1; 2; 3] ∈ origData hm)
    by (simpl; apply elem_of_cons; right; apply elem_of_cons; left;
        reflexivity).
  assert (H7 : numXBuckets hm < len [1; 2; 3]) by reflexivity.
  repeat (split; [assumption|]).
  exact (computeBuckets_long_series amd64_unrepresentable hm [1; 2; 3]
           H1 H2 H3 H4 H5 H6 H7).
Defined.

(** ** X4 *)
Lemma deduplicate_in_place_witness :
  Forall (fun v => 0 <= v) (data example_grid)
  /\ let '(sorted, unique) := deduplicate (sort_Ints (data example_grid)) in
     StronglySorted Z.lt unique
     /\ (forall v, v ∈ unique <-> v ∈ data example_grid)
     /\ length sorted = length (data example_grid)
     /\ forall top, last sorted = Some top ->
          top ∈ data example_grid
          /\ forall v, v ∈ data example_grid -> v <= top.
Proof.
  assert (H : Forall (fun v => 0 <= v) (data example_grid))
    by (simpl; repeat constructor; lia).
  split; [exact H|]. exact (deduplicate_in_place (data example_grid) H).
Defined.

(** ** X5 *)
Lemma computeSaturations_tables_cover_witness :
  0 < len (data example_grid) <= max_int
  /\ Forall (fun v => 0 <= v) (data example_grid)
  /\ exists hm',
       computeSaturations amd64_unrepresentable example_grid = Some hm'
       /\ data hm' = data example_grid
       /\ len (linearSaturations hm') = len (data example_grid)
       /\ len (rankedSaturations hm') = len (data example_grid)
       /\ Forall (fun s => 1 <= s <= 255) (linearSaturations hm')
       /\ Forall (fun s => 1 <= s <= 255) (rankedSaturations hm').
Proof.
  assert (H1 : 0 < len (data example_grid) <= max_int)
    by (unfold max_int, len; simpl; lia).
  assert (H2 : Forall (fun v => 0 <= v) (data example_grid))
    by (simpl; repeat constructor; lia).
  split; [exact H1|]. split; [exact H2|].
  exact (computeSaturations_tables_cover amd64_unrepresentable example_grid
           H1 H2).
Defined.

(** ** X6 *)
Lemma largest_count_is_saturated_witness :
  let hm' := with_saturations example_grid
               [1; 1; 1; 28; 1; 1; 1; 141; 1; 1; 1; 255]
               [63; 63; 63; 127; 63; 63; 63; 191; 63; 63; 63; 255] in
  computeSaturations amd64_unrepresentable example_grid = Some hm'
  /\ len (data example_grid) <= max_int
  /\ Forall (fun v => 0 <= v <= max_int) (data example_grid)
  /\ data example_grid !! 11%nat = Some 9
  /\ (forall w, w ∈ data example_grid -> w <= 9)
  /\ rankedSaturations hm' !! 11%nat = Some 255
  /\ (0 < 9 -> linearSaturations hm' !! 11%nat = Some 255).
Proof.
  intros hm'.
  assert (H1 : computeSaturations amd64_unrepresentable example_grid
               = Some hm') by (vm_compute; reflexivity).
  assert (H2 : len (data example_grid) <= max_int)
    by (vm_compute; discriminate).
  assert (H3 : Forall (fun v => 0 <= v <= max_int) (data example_grid))
    by (unfold max_int; simpl; repeat constructor; lia).
  assert (H4 : forall w, w ∈ data example_grid -> w <= 9).
  { assert (F : Forall (fun w => w <= 9) (data example_grid))
      by (simpl; repeat constructor; lia).
    rewrite Forall_forall in F. exact F. }
  split; [exact H1|]. split; [exact H2|]. split; [exact H3|].
  split; [reflexivity|]. split; [exact H4|].
  exact (largest_count_is_saturated amd64_unrepresentable example_grid hm'
           11%nat 9 H1 H2 H3 eq_refl H4).
Defined.

(** ** X7 *)
Lemma linear_saturation_monotone_witness :
  let hm' := with_saturations example_grid
               [1; 1; 1; 28; 1; 1; 1; 141; 1; 1; 1; 255]
               [63; 63; 63; 127; 63; 63; 63; 191; 63; 63; 63; 255] in
  computeSaturations amd64_unrepresentable example_grid = Some hm'
  /\ len (data example_grid) <= max_int
  /\ Forall (fun v => 0 <= v <= max_int) (data example_grid)
  /\ data example_grid !! 3%nat = Some 1
  /\ data example_grid !! 7%nat = Some 5
  /\ linearSaturations hm' !! 3%nat = Some 28
  /\ linearSaturations hm' !! 7%nat = Some 141
  /\ 1 <= 5 /\ 28 <= 141.
Proof.
  intros hm'.
  assert (H1 : computeSaturations amd64_unrepresentable example_grid
               = Some hm') by (vm_compute; reflexivity).
  assert (H2 : len (data example_grid) <= max_int)
    by (vm_compute; discriminate).
  assert (H3 : Forall (fun v => 0 <= v <= max_int) (data example_grid))
    by (unfold max_int; simpl; repeat constructor; lia).
  assert (H4 : 1 <= 5) by lia.
  split; [exact H1|]. split; [exact H2|]. split; [exact H3|].
  split; [reflexivity|]. split; [reflexivity|].
  split; [reflexivity|]. split; [reflexivity|]. split; [exact H4|].
  exact (linear_saturation_monotone amd64_unrepresentable example_grid hm'
           3%nat 7%nat 1 5 28 141 H1 H2 H3 eq_refl eq_refl eq_refl eq_refl
           H4).
Defined.

(** ** X8 *)
Lemma rebuild_paths_witness :
  let hm := with_saturations example_grid
              [1; 1; 1; 28; 1; 1; 1; 141; 1; 1; 1; 255]
              [63; 63; 63; 127; 63; 63; 63; 191; 63; 63; 63; 255] in
  let dims := {| pX := 100; pY := 100 |} in
  match rebuild round32_nearest hm dims 4 (F32.of_int 25) (F32.of_int 33) with
  | Some ops =>
      length ops = 260%nat
      /\ ops !! (3 + 127)%nat
         = Some (FillShape {| cR := 255; cG := 128; cB := 128; cA := 255 |}
                   (cell_path round32_nearest dims (F32.of_int 25)
                      (F32.of_int 33) 1 0))
  | None => False
  end.
Proof.
  intros hm dims.
  destruct (rebuild round32_nearest hm dims 4 (F32.of_int 25) (F32.of_int 33))
    as [ops|] eqn:E.
  - pose proof (rebuild_paths round32_nearest hm dims 4 (F32.of_int 25)
                  (F32.of_int 33) ops E) as (H1 & _ & _ & H4).
    split; [exact H1|].
    pose proof (H4 127 ltac:(lia)) as H5.
    change (3 + Z.to_nat 127)%nat with (3 + 127)%nat in H5.
    rewrite H5. vm_compute. reflexivity.
  - vm_compute in E. discriminate E.
Defined.

(** ** X10 *)
Lemma HoveredBucket_after_Layout_witness :
  well_formed amd64_unrepresentable example_heatmap
  /\ match Layout amd64_unrepresentable round32_nearest
             example_heatmap (example_frame 30 70) with
     | Some (hm', _, _) =>
         snd (HoveredBucket hm')
         = hover_valid
             (handle_moves example_heatmap
                (ConstraintsMax (example_frame 30 70))
                (moves (example_frame 30 70)))
             (ConstraintsMax (example_frame 30 70))
     | None => False
     end.
Proof.
  split; [exact example_heatmap_well_formed|].
  destruct (Layout amd64_unrepresentable round32_nearest
              example_heatmap (example_frame 30 70))
    as [[[hm' ops] rb]|] eqn:E.
  - exact (HoveredBucket_after_Layout amd64_unrepresentable round32_nearest
             _ _ _ _ _ example_heatmap_well_formed E).
  - vm_compute in E. discriminate E.
Defined.

(** ** X11 *)
Lemma Layout_again_witness :
  match Layout amd64_unrepresentable round32_nearest
          example_heatmap (example_frame 30 70) with
  | Some (hm1, ops, _) =>
      ConstraintsMax still_frame = ConstraintsMax (example_frame 30 70)
      /\ Dp1 still_frame = Dp1 (example_frame 30 70)
      /\ moves still_frame = []
      /\ Layout amd64_unrepresentable round32_nearest hm1 still_frame
         = Some (hm1, ops, false)
  | None => False
  end.
Proof.
  destruct (Layout amd64_unrepresentable round32_nearest
              example_heatmap (example_frame 30 70))
    as [[[hm1 ops] rb]|] eqn:E.
  - split; [reflexivity|]. split; [reflexivity|]. split; [reflexivity|].
    exact (Layout_again amd64_unrepresentable round32_nearest
             _ _ _ _ _ still_frame E eq_refl eq_refl eq_refl).
  - vm_compute in E. discriminate E.
Defined.

(** ** X13 *)
Lemma hover_without_columns_witness :
  let hm1 := with_origData example_heatmap [[]] 0 zero_key in
  SetData example_heatmap [[]] = Some hm1
  /\ [[]] !! 0%nat = Some ([] : list Z)
  /\ (XBucketSize example_heatmap <> 0 \/ YBucketSize example_heatmap <> 0)
  /\ hover_valid (handle_moves hm1 (ConstraintsMax (example_frame 30 70))
                    (moves (example_frame 30 70)))
       (ConstraintsMax (example_frame 30 70)) = true
  /\ Layout amd64_unrepresentable round32_nearest hm1 (example_frame 30 70)
     = None.
Proof.
  intros hm1.
  assert (H3 : XBucketSize example_heatmap <> 0
               \/ YBucketSize example_heatmap <> 0)
    by (left; simpl; lia).
  assert (H4 : hover_valid
                 (handle_moves hm1 (ConstraintsMax (example_frame 30 70))
                    (moves (example_frame 30 70)))
                 (ConstraintsMax (example_frame 30 70)) = true)
    by (vm_compute; reflexivity).
  split; [reflexivity|]. split; [reflexivity|]. split; [exact H3|].
  split; [exact H4|].
  exact (hover_without_columns amd64_unrepresentable round32_nearest
           example_heatmap [[]] hm1 (example_frame 30 70)
           eq_refl eq_refl H3 H4).
Defined.

(** ** X14 *)

Arguments Build_HeatmapComponent {Trace}.
Arguments hmc_trace {Trace}.
Arguments hmc_hm {Trace}.
Arguments hmc_yStep {Trace}.
Arguments hmc_useLinear {Trace}.
Arguments NewHeatmapComponent {Trace Processor}.
Arguments handle_event {Trace Processor}.
Arguments handle_events {Trace Processor}.
Arguments component_ok {Trace Processor}.

(** A trace of one processor whose busy series is [5, 15] at every bucket
    size; the up arrow, then the left arrow. *)
Lemma handle_events_keeps_component_ok_witness :
  let busy := fun (_ : unit) (_ : nat) (_ : Z) => Some [5; 15] in
  let procs := fun _ : unit => [0%nat] in
  let evs := [KeyEvent NameUpArrow Press; KeyEvent NameLeftArrow Press] in
  match NewHeatmapComponent procs busy tt with
  | Some hmc =>
      component_ok procs busy hmc
      /\ match handle_events procs busy hmc evs with
         | Some hmc' =>
             component_ok procs busy hmc'
             /\ hmc_trace hmc' = hmc_trace hmc
             /\ numYBuckets_of amd64_unrepresentable 100
                  (YBucketSize (hmc_hm hmc'))
                * YBucketSize (hmc_hm hmc') = 100
         | None => False
         end
  | None => False
  end.
Proof.
  intros busy procs evs.
  destruct (NewHeatmapComponent procs busy tt) as [hmc|] eqn:E0.
  - assert (Hok : component_ok procs busy hmc).
    { vm_compute in E0. injection E0 as <-.
      unfold component_ok. simpl.
      split; [lia|]. split; [reflexivity|]. split; reflexivity. }
    split; [exact Hok|].
    destruct (handle_events procs busy hmc evs) as [hmc'|] eqn:E1.
    + exact (handle_events_keeps_component_ok amd64_unrepresentable
               unit nat procs busy hmc evs hmc' Hok E1).
    + vm_compute in E0. injection E0 as <-.
      vm_compute in E1. discriminate E1.
  - vm_compute in E0. discriminate E0.
Defined.

(** ** X15 *)
Lemma handle_events_returns_witness :
  let busy := fun (_ : unit) (_ : nat) (_ : Z) => Some [5; 15] in
  let procs := fun _ : unit => [0%nat] in
  let evs := [KeyEvent NameDownArrow Press; KeyEvent NameRightArrow Press;
              FocusEvent true; KeyEvent NameUpArrow Release] in
  match NewHeatmapComponent procs busy tt with
  | Some hmc =>
      component_ok procs busy hmc
      /\ procs (hmc_trace hmc) <> []
      /\ (forall p x, is_Some (busy (hmc_trace hmc) p x))
      /\ is_Some (handle_events procs busy hmc evs)
  | None => False
  end.
Proof.
  intros busy procs evs.
  destruct (NewHeatmapComponent procs busy tt) as [hmc|] eqn:E0.
  - assert (Hok : component_ok procs busy hmc).
    { vm_compute in E0. injection E0 as <-.
      unfold component_ok. simpl.
      split; [lia|]. split; [reflexivity|]. split; reflexivity. }
    assert (Hne : procs (hmc_trace hmc) <> []) by discriminate.
    assert (Ht : forall p x, is_Some (busy (hmc_trace hmc) p x))
      by (intros p x; exists [5; 15]; reflexivity).
    split; [exact Hok|]. split; [exact Hne|]. split; [exact Ht|].
    exact (handle_events_returns unit nat procs busy hmc evs Hok Hne Ht).
  - vm_compute in E0. discriminate E0.
Defined.

(** ** X16 *)
Lemma no_processors_panics_witness :
  let busy := fun (_ : unit) (_ : nat) (_ : Z) => Some [5; 15] in
  let procs := fun _ : unit => ([] : list nat) in
  procs tt = []
  /\ NewHeatmapComponent procs busy tt = None
  /\ forall hmc, hmc_trace hmc = tt ->
       handle_event procs busy hmc (KeyEvent NameLeftArrow Press) = None
       /\ handle_event procs busy hmc (KeyEvent NameRightArrow Press) = None.
Proof.
  intros busy procs. split; [reflexivity|].
  exact (no_processors_panics unit nat procs busy tt eq_refl).
Defined.

(** ** X18 *)
Lemma XBucketSize_floor_witness :
  let busy := fun (_ : unit) (_ : nat) (_ : Z) => Some [5; 15] in
  let procs := fun _ : unit => [0%nat] in
  let evs := [KeyEvent NameRightArrow Press; KeyEvent NameUpArrow Press;
              KeyEvent NameLeftArrow Press; KeyEvent NameLeftArrow Press;
              KeyEvent NameLeftArrow Release] in
  let hmc := {| hmc_trace := tt;
                hmc_hm := with_XBucketSize example_heatmap (15 * Millisecond);
                hmc_yStep := 4; hmc_useLinear := false |} in
  10 * Millisecond <= XBucketSize (hmc_hm hmc)
  /\ XBucketSize (hmc_hm hmc) + 10 * Millisecond * len evs <= max_int
  /\ match handle_events procs busy hmc evs with
     | Some hmc' =>
         XBucketSize (hmc_hm hmc') = 10 * Millisecond
         /\ XBucketSize (hmc_hm hmc')
            = foldl XBucketSize_after (XBucketSize (hmc_hm hmc)) evs
         /\ 10 * Millisecond <= XBucketSize (hmc_hm hmc')
            <= XBucketSize (hmc_hm hmc) + 10 * Millisecond * len evs
     | None => False
     end.
Proof.
  intros busy procs evs hmc.
  assert (H1 : 10 * Millisecond <= XBucketSize (hmc_hm hmc))
    by (vm_compute; discriminate).
  assert (H2 : XBucketSize (hmc_hm hmc) + 10 * Millisecond * len evs
               <= max_int) by (vm_compute; discriminate).
  split; [exact H1|]. split; [exact H2|].
  destruct (handle_events procs busy hmc evs) as [hmc'|] eqn:E.
  - split.
    + vm_compute in E. injection E as <-. reflexivity.
    + exact (XBucketSize_floor unit nat procs busy hmc evs hmc' H1 H2 E).
  - vm_compute in E. discriminate E.
Defined.

(** ** X19 *)
Lemma label_close_last_bucket_witness :
  well_formed amd64_unrepresentable example_heatmap
  /\ match layout_cache amd64_unrepresentable round32_nearest
             example_heatmap (example_frame 30 70) with
     | Some (hm1, xs, ys, rb) =>
         hover_valid hm1 (ConstraintsMax (example_frame 30 70)) = true
         /\ 0 < MaxY example_heatmap < 2 ^ 53
         /\ YBucketSize example_heatmap < 2 ^ 53
         /\ hover_y amd64_unrepresentable hm1
              (ConstraintsMax (example_frame 30 70)) ys = 0
         /\ numYBuckets hm1 = 2
         /\ forall hm' ops,
              Layout amd64_unrepresentable round32_nearest
                example_heatmap (example_frame 30 70) = Some (hm', ops, rb) ->
              label_close hm' = Some ")"%char
     | None => False
     end.
Proof.
  split; [exact example_heatmap_well_formed|].
  destruct (layout_cache amd64_unrepresentable round32_nearest
              example_heatmap (example_frame 30 70))
    as [[[[hm1 xs] ys] rb]|] eqn:E.
  - assert (Hv : hover_valid hm1 (ConstraintsMax (example_frame 30 70))
                 = true)
      by (vm_compute in E; injection E as <- _ _ _; vm_compute; reflexivity).
    assert (HM : 0 < MaxY example_heatmap < 2 ^ 53)
      by (vm_compute; split; reflexivity).
    assert (HY : YBucketSize example_heatmap < 2 ^ 53)
      by (vm_compute; reflexivity).
    assert (Hy : hover_y amd64_unrepresentable hm1
                   (ConstraintsMax (example_frame 30 70)) ys = 0)
      by (vm_compute in E; injection E as <- _ <- _; vm_compute; reflexivity).
    assert (Hn : numYBuckets hm1 = 2)
      by (vm_compute in E; injection E as <- _ _ _; reflexivity).
    split; [exact Hv|]. split; [exact HM|]. split; [exact HY|].
    split; [exact Hy|]. split; [exact Hn|].
    intros hm' ops H.
    pose proof (label_close_last_bucket amd64_unrepresentable round32_nearest
                  example_heatmap (example_frame 30 70) hm1 xs ys rb hm' ops
                  example_heatmap_well_formed E H Hv HM HY) as L.
    rewrite Hy, Hn in L. exact (L ltac:(lia)).
  - vm_compute in E. discriminate E.
Defined.

(** ** X20 *)
Lemma saturations_by_rank_and_maximum_witness :
  let hm' := with_saturations example_grid
               [1; 1; 1; 28; 1; 1; 1; 141; 1; 1; 1; 255]
               [63; 63; 63; 127; 63; 63; 63; 191; 63; 63; 63; 255] in
  computeSaturations amd64_unrepresentable example_grid = Some hm'
  /\ 0 < len (data example_grid) <= max_int
  /\ Forall (fun v => 0 <= v) (data example_grid)
  /\ exists top,
       top ∈ data example_grid
       /\ (forall w, w ∈ data example_grid -> w <= top)
       /\ forall i v, data example_grid !! i = Some v ->
            rankedSaturations hm' !! i
            = Some (let s := to_uint8 amd64_unrepresentable
                               (F32.mul (F32.of_int 255)
                                  (F32.div
                                     (F32.of_int
                                        (count_below
                                           (snd (deduplicate
                                                   (sort_Ints
                                                      (data example_grid))))
                                           v + 1))
                                     (F32.of_int
                                        (len (snd (deduplicate
                                                     (sort_Ints
                                                        (data example_grid))))))))
                    in if s =? 0 then 1 else s)
            /\ linearSaturations hm' !! i
               = Some (let s := to_uint8 amd64_unrepresentable
                                  (F32.mul (F32.of_int 255)
                                     (F32.div (F32.of_int v) (F32.of_int top)))
                       in if s =? 0 then 1 else s).
Proof.
  intros hm'.
  assert (H1 : computeSaturations amd64_unrepresentable example_grid
               = Some hm') by (vm_compute; reflexivity).
  assert (H2 : 0 < len (data example_grid) <= max_int)
    by (unfold max_int, len; simpl; lia).
  assert (H3 : Forall (fun v => 0 <= v) (data example_grid))
    by (simpl; repeat constructor; lia).
  split; [exact H1|]. split; [exact H2|]. split; [exact H3|].
  exact (saturations_by_rank_and_maximum amd64_unrepresentable example_grid
           hm' H1 H2 H3).
Defined.

(** ** X21, X22 *)
Lemma Layout_keeps_settings_witness :
  match Layout amd64_unrepresentable round32_nearest
          example_heatmap (example_frame 30 70) with
  | Some (hm', _, _) =>
      MaxY hm' = 20 /\ UseLinearColors hm' = false
      /\ XBucketSize hm' = 100 /\ YBucketSize hm' = 10
      /\ origData hm' = [[5; 15]]
  | None => False
  end.
Proof.
  destruct (Layout amd64_unrepresentable round32_nearest
              example_heatmap (example_frame 30 70))
    as [[[hm' ops] rb]|] eqn:E.
  - exact (Layout_keeps_settings amd64_unrepresentable round32_nearest
             _ _ _ _ _ E).
  - vm_compute in E. discriminate E.
Defined.

Lemma Layout_takes_last_move_witness :
  match Layout amd64_unrepresentable round32_nearest
          example_heatmap (example_frame 30 70) with
  | Some (hm', _, _) =>
      pointer hm' = {| fX := F32.of_int 30; fY := F32.of_int 70 |}
      /\ pointerConstraint hm' = {| pX := 100; pY := 100 |}
  | None => False
  end.
Proof.
  destruct (Layout amd64_unrepresentable round32_nearest
              example_heatmap (example_frame 30 70))
    as [[[hm' ops] rb]|] eqn:E.
  - exact (Layout_takes_last_move amd64_unrepresentable round32_nearest
             _ _ _ _ _ E).
  - vm_compute in E. discriminate E.
Defined.

(** ** X23 *)
Lemma bucket_size_change_reaggregates_witness :
  match Layout amd64_unrepresentable round32_nearest
          example_heatmap still_frame with
  | Some (hm1, _, _) =>
      5 <> YBucketSize example_heatmap
      /\ match Layout amd64_unrepresentable round32_nearest
                 (with_YBucketSize hm1 5) still_frame with
         | Some (hm2, _, rb2) =>
             rb2 = true /\ numYBuckets hm2 = 4
             /\ data hm2 = [0; 1; 0; 0; 0; 0; 0; 1]
         | None => False
         end
  | None => False
  end.
Proof.
  destruct (Layout amd64_unrepresentable round32_nearest
              example_heatmap still_frame) as [[[hm1 ops1] rb1]|] eqn:E1.
  - assert (Hs : 5 <> YBucketSize example_heatmap) by discriminate.
    split; [exact Hs|].
    destruct (Layout amd64_unrepresentable round32_nearest
                (with_YBucketSize hm1 5) still_frame)
      as [[[hm2 ops2] rb2]|] eqn:E2.
    + pose proof (bucket_size_change_reaggregates amd64_unrepresentable
                    round32_nearest _ _ _ _ _ 5 _ _ _ _ E1 Hs E2)
        as (R1 & _ & R3 & row0 & R4 & R5).
      split; [exact R1|].
      assert (R3' : numYBuckets hm2 = 4)
        by (rewrite R3; vm_compute; reflexivity).
      split; [exact R3'|].
      rewrite R3' in R5. injection R4 as <-.
      assert (R6 : Some (data hm2) = Some [0; 1; 0; 0; 0; 0; 0; 1])
        by (rewrite <- R5; vm_compute; reflexivity).
      injection R6 as ->. reflexivity.
    + vm_compute in E1. injection E1 as <- _ _.
      vm_compute in E2. discriminate E2.
  - vm_compute in E1. discriminate E1.
Defined.

(** ** X24 *)
Lemma MaxY_change_is_not_seen_witness :
  match Layout amd64_unrepresentable round32_nearest
          example_heatmap still_frame with
  | Some (hm1, ops, _) =>
      Layout amd64_unrepresentable round32_nearest
        (with_MaxY hm1 40) still_frame
      = Some (with_MaxY hm1 40, ops, false)
      /\ numYBuckets hm1 = 2
  | None => False
  end.
Proof.
  destruct (Layout amd64_unrepresentable round32_nearest
              example_heatmap still_frame) as [[[hm1 ops] rb]|] eqn:E.
  - split.
    + exact (MaxY_change_is_not_seen amd64_unrepresentable round32_nearest
               _ _ _ _ _ 40 still_frame E eq_refl eq_refl eq_refl).
    + vm_compute in E. injection E as <- _ _. reflexivity.
  - vm_compute in E. discriminate E.
Defined.

(** ** X25 *)
Lemma NewHeatmapComponent_well_formed_witness :
  let busy := fun (_ : unit) (_ : nat) (_ : Z) => Some [5; 15] in
  let procs := fun _ : unit => [0%nat; 1%nat] in
  match NewHeatmapComponent procs busy tt with
  | Some hmc =>
      2 * 100 <= max_int
      /\ Forall (fun row => len row = 2
                            /\ Forall (fun y => 0 <= y <= max_int) row)
                (origData (hmc_hm hmc))
      /\ samples (origData (hmc_hm hmc)) <= max_int
      /\ well_formed amd64_unrepresentable (hmc_hm hmc)
  | None => False
  end.
Proof.
  intros busy procs.
  destruct (NewHeatmapComponent procs busy tt) as [hmc|] eqn:E.
  - assert (H1 : 2 * 100 <= max_int) by (vm_compute; discriminate).
    assert (H2 : Forall (fun row => len row = 2
                                    /\ Forall (fun y => 0 <= y <= max_int) row)
                   (origData (hmc_hm hmc))).
    { vm_compute in E. injection E as <-. unfold max_int. simpl.
      repeat constructor; lia. }
    assert (H3 : samples (origData (hmc_hm hmc)) <= max_int).
    { vm_compute in E. injection E as <-. vm_compute. discriminate. }
    split; [exact H1|]. split; [exact H2|]. split; [exact H3|].
    exact (NewHeatmapComponent_well_formed amd64_unrepresentable unit nat
             procs busy tt hmc 2 E H1 H2 H3).
  - vm_compute in E. discriminate E.
Defined.

(** ** X27 *)
Lemma header_mark_after_click_witness :
  let tbl := {| SortOrder := SortAscending; SortedBy := 2;
                clickedColumn := Some 2 |} in
  let tbl1 := {| SortOrder := SortDescending; SortedBy := 2;
                 clickedColumn := Some 2 |} in
  clickedColumn tbl = Some 2
  /\ SortByClickedColumn tbl = Some (tbl1, 2, true)
  /\ header_mark_of tbl1 2 = Some MarkDescending
  /\ forall colIdx, colIdx <> 2 -> header_mark_of tbl1 colIdx = Some NoMark.
Proof.
  intros tbl tbl1. split; [reflexivity|]. split; [reflexivity|].
  exact (header_mark_after_click tbl tbl1 2 2 true eq_refl eq_refl).
Defined.

(** ** X28 *)

Arguments Build_HistogramState {Histogram}.
Arguments hs_Histogram {Histogram}.
Arguments dragging_active {Histogram}.
Arguments dragging_startBucket {Histogram}.
Arguments with_dragging {Histogram}.
Arguments selectedRange {Histogram}.

(** A histogram whose bucket [b] ranges from [b] to [b + 1]; a drag from
    bucket 3 to bucket 1. *)
Lemma selectedRange_spans_witness :
  let range := fun (_ : unit) (b : Z) =>
                 Some (F64.of_int b, F64.of_int (b + 1)) in
  let hs := {| hs_Histogram := Some tt; prevBarWidth := F32.of_int 10;
               dragging_active := true; dragging_startBucket := 3 |} in
  hs_Histogram hs = Some tt
  /\ range tt (Z.min (dragging_startBucket hs) 1)
     = Some (F64.of_int 1, F64.of_int 2)
  /\ range tt (Z.max (dragging_startBucket hs) 1)
     = Some (F64.of_int 3, F64.of_int 4)
  /\ selectedRange range hs 1 = Some (F64.of_int 1, F64.of_int 4)
  /\ selectedRange range (with_dragging hs true 1) 3
     = Some (F64.of_int 1, F64.of_int 4).
Proof.
  intros range hs.
  split; [reflexivity|]. split; [reflexivity|]. split; [reflexivity|].
  exact (selectedRange_spans unit range hs tt 1
           (F64.of_int 1, F64.of_int 2) (F64.of_int 3, F64.of_int 4)
           eq_refl eq_refl eq_refl).
Defined.

(** ** X29 *)

Arguments hovered_bin unrepresentable {Histogram}.
Arguments Update unrepresentable {Histogram}.

(** A histogram of two bins with bars of 10 pixels; the pointer at 57: the
    bin would be 5 and is brought back to 1. *)
Lemma Update_double_click_witness :
  let range := fun (_ : unit) (b : Z) =>
                 Some (F64.of_int b, F64.of_int (b + 1)) in
  let bins := fun _ : unit => [3; 4] in
  let hs := {| hs_Histogram := Some tt; prevBarWidth := F32.of_int 10;
               dragging_active := false; dragging_startBucket := 0 |} in
  let inp := {| in_clicks := [ {| ce_Button := 1; ce_Kind := 1;
                                  ce_NumClicks := 2 |} ];
                in_hovered := true;
                in_events := [ {| pe_Kind := PointerDrag;
                                  pe_Modifiers := 0 |} ];
                in_pointerX := F32.of_int 57 |} in
  hs_Histogram hs = Some tt
  /\ 1 <= len (bins tt) <= max_int
  /\ in_hovered inp = true
  /\ double_clicked 1 1 (in_clicks inp) = true
  /\ Forall (fun ev => pe_Kind ev = PointerDrag) (in_events inp)
  /\ Update amd64_unrepresentable bins range 1 1 2 hs inp
     = Some (hs, F64.of_int 1, F64.of_int 2, true)
  /\ hovered_bin amd64_unrepresentable bins hs tt (in_pointerX inp) = 1
  /\ range tt 1 = Some (F64.of_int 1, F64.of_int 2).
Proof.
  intros range bins hs inp.
  assert (H2 : 1 <= len (bins tt) <= max_int)
    by (vm_compute; split; discriminate).
  assert (H5 : Forall (fun ev => pe_Kind ev = PointerDrag) (in_events inp))
    by (repeat constructor).
  assert (H6 : Update amd64_unrepresentable bins range 1 1 2 hs inp
               = Some (hs, F64.of_int 1, F64.of_int 2, true))
    by (vm_compute; reflexivity).
  split; [reflexivity|]. split; [exact H2|]. split; [reflexivity|].
  split; [reflexivity|]. split; [exact H5|]. split; [exact H6|].
  pose proof (Update_double_click amd64_unrepresentable unit bins range
                1 1 2 hs tt inp hs (F64.of_int 1) (F64.of_int 2) true
                eq_refl H2 eq_refl eq_refl H5 H6) as (_ & H & _).
  split; [vm_compute; reflexivity|]. exact H.
Defined.

